(** * RagDocs: the chat hook, the chat route and the retrieval core

    A shallow embedding of the TypeScript front end of RagDocs
    ([types/chat.ts], the [useChat] hook, the [POST] chat route, the
    history routes, the chat page, the components [Chat], [ChatInput],
    [LoadingMessages], [SourceDetails], [SourceItem] and [SourceContent],
    the [useHistory] hook, the sidebar history and [lib/utils]) and of the
    indexing and retrieval core that the front end talks to.

    Conventions.
    - A JavaScript string is a Rocq [string]; one character stands for one
      UTF-16 code unit in the range U+0000..U+00FF.
    - A JavaScript [number] that the code only carries around (a relevance
      score) is an integer [Z].
    - React state is an explicit record; a [setState] call is a record
      update, and an [async] function is cut at its [await fetch] into the
      part that runs when it is called and the part that runs when the
      request settles. *)

From Stdlib Require Import ZArith Ascii String List Lia.
From stdpp Require Import base option list gmap strings sorting pretty.

Local Open Scope string_scope.
Local Open Scope list_scope.
Local Open Scope nat_scope.

(** ** JavaScript string helpers *)

Module Js.

(** ECMAScript WhiteSpace and LineTerminator code points below U+0100: TAB,
    LF, VT, FF, CR, SPACE and NO-BREAK SPACE. *)
Definition is_white_space (c : ascii) : bool :=
  match N_of_ascii c with
  | 9%N | 10%N | 11%N | 12%N | 13%N | 32%N | 160%N => true
  | _ => false
  end.

Fixpoint trimStart (s : string) : string :=
  match s with
  | EmptyString => EmptyString
  | String c s' => if is_white_space c then trimStart s' else s
  end.

Definition trimEnd (s : string) : string :=
  String.rev (trimStart (String.rev s)).

(** [String.prototype.trim]. *)
Definition trim (s : string) : string := trimEnd (trimStart s).

(** [trimStart] on the list of the characters of a string. *)
Fixpoint ltrim (l : list ascii) : list ascii :=
  match l with
  | [] => []
  | c :: l' => if is_white_space c then ltrim l' else l
  end.

Definition rtrim (l : list ascii) : list ascii := reverse (ltrim (reverse l)).

(** A list that is empty or starts with a character that is not white
    space. *)
Definition head_ok (l : list ascii) : Prop :=
  match l with [] => True | c :: _ => is_white_space c = false end.

(** Truthiness of a string: only the empty string is falsy. *)
Definition truthy (s : string) : bool :=
  match s with EmptyString => false | _ => true end.

(** [a || b] on possibly undefined arrays: an array, even an empty one, is
    truthy, so the first defined operand wins. *)
Definition or_else {A} (a b : option A) : option A :=
  match a with Some _ => a | None => b end.

End Js.

(** ** [types/chat.ts] *)

Inductive Role := user | assistant | system.

#[global] Instance Role_eq_dec : EqDecision Role.
Proof. solve_decision. Defined.

Record Source := {
  technology : string;
  file_path : string;
  section_title : string;
  category : string;
  score : Z;
  content_preview : string;
  full_content : string
}.

#[global] Instance Source_eq_dec : EqDecision Source.
Proof. solve_decision. Defined.

Record Message := {
  id : string;
  role : Role;
  content : string;
  sources : option (list Source)
}.

#[global] Instance Message_eq_dec : EqDecision Message.
Proof. solve_decision. Defined.

Record ChatResponse := {
  conversation_id : string;
  response : string;
  response_sources : list Source
}.

(** The filter options of [append], [reload] and [handleSubmit], and the
    [body] member of [UseChatOptions]: both members are optional. *)
Record FilterOptions := {
  technologies : option (list string);
  categories : option (list string)
}.

Definition no_options : FilterOptions :=
  {| technologies := None; categories := None |}.

(** ** The [useChat] hook *)

Module UseChat.

(** The JSON body that [append] posts to the chat route. *)
Record RequestBody := {
  message : string;
  body_conversation_id : option string;
  body_technologies : list string;
  body_categories : list string
}.

(** A request handed to [fetch]: its body and the [AbortController] whose
    signal it carries. Controllers are numbered in order of creation. *)
Record Request := {
  controller : nat;
  request_body : RequestBody
}.

(** How an issued [fetch] settles when its signal is not aborted. *)
Inductive FetchResult :=
| FetchOk (data : ChatResponse)
| FetchHttpError (msg : string)
| FetchRejected (msg : string).

(** What an [async] function of the hook resolves to. *)
Inductive Returned :=
| RetNull
| RetUndefined
| RetString (s : string).

(** A call either returns before any [await], or is suspended on the
    request it has just issued. *)
Inductive Called :=
| Finished (r : Returned)
| Awaiting (c : nat).

Record State := {
  messages : list Message;
  input : string;
  isLoading : bool;
  error : option string;
  abortControllerRef : option nat;
  conversationIdRef : option string;
  controllers : nat;
  aborted : gset nat;
  uuids : nat;
  in_flight : list Request;
  pushed : list string
}.

Definition set_messages (f : list Message → list Message) (st : State) : State :=
  {| messages := f (messages st); input := input st; isLoading := isLoading st;
     error := error st; abortControllerRef := abortControllerRef st;
     conversationIdRef := conversationIdRef st; controllers := controllers st;
     aborted := aborted st; uuids := uuids st; in_flight := in_flight st;
     pushed := pushed st |}.

Definition set_input (s : string) (st : State) : State :=
  {| messages := messages st; input := s; isLoading := isLoading st;
     error := error st; abortControllerRef := abortControllerRef st;
     conversationIdRef := conversationIdRef st; controllers := controllers st;
     aborted := aborted st; uuids := uuids st; in_flight := in_flight st;
     pushed := pushed st |}.

Definition set_isLoading (b : bool) (st : State) : State :=
  {| messages := messages st; input := input st; isLoading := b;
     error := error st; abortControllerRef := abortControllerRef st;
     conversationIdRef := conversationIdRef st; controllers := controllers st;
     aborted := aborted st; uuids := uuids st; in_flight := in_flight st;
     pushed := pushed st |}.

Definition set_error (e : option string) (st : State) : State :=
  {| messages := messages st; input := input st; isLoading := isLoading st;
     error := e; abortControllerRef := abortControllerRef st;
     conversationIdRef := conversationIdRef st; controllers := controllers st;
     aborted := aborted st; uuids := uuids st; in_flight := in_flight st;
     pushed := pushed st |}.

(** [abortControllerRef.current.abort()], guarded by the null test. *)
Definition abort_current (st : State) : State :=
  match abortControllerRef st with
  | None => st
  | Some c =>
    {| messages := messages st; input := input st; isLoading := isLoading st;
       error := error st; abortControllerRef := abortControllerRef st;
       conversationIdRef := conversationIdRef st; controllers := controllers st;
       aborted := {[c]} ∪ aborted st; uuids := uuids st;
       in_flight := in_flight st; pushed := pushed st |}
  end.

(** [new AbortController()] stored in [abortControllerRef.current]. *)
Definition new_controller (st : State) : nat * State :=
  (controllers st,
   {| messages := messages st; input := input st; isLoading := isLoading st;
      error := error st; abortControllerRef := Some (controllers st);
      conversationIdRef := conversationIdRef st;
      controllers := S (controllers st); aborted := aborted st;
      uuids := uuids st; in_flight := in_flight st; pushed := pushed st |}).

Definition issue (r : Request) (st : State) : State :=
  {| messages := messages st; input := input st; isLoading := isLoading st;
     error := error st; abortControllerRef := abortControllerRef st;
     conversationIdRef := conversationIdRef st; controllers := controllers st;
     aborted := aborted st; uuids := uuids st;
     in_flight := in_flight st ++ [r]; pushed := pushed st |}.

Definition retire (c : nat) (st : State) : State :=
  {| messages := messages st; input := input st; isLoading := isLoading st;
     error := error st; abortControllerRef := abortControllerRef st;
     conversationIdRef := conversationIdRef st; controllers := controllers st;
     aborted := aborted st; uuids := uuids st;
     in_flight := filter (λ r, controller r ≠ c) (in_flight st);
     pushed := pushed st |}.

(** [updateConversationId]: navigate when the id changes. *)
Definition updateConversationId (newId : string) (st : State) : State :=
  if decide (Some newId = conversationIdRef st) then st
  else
    {| messages := messages st; input := input st; isLoading := isLoading st;
       error := error st; abortControllerRef := abortControllerRef st;
       conversationIdRef := Some newId; controllers := controllers st;
       aborted := aborted st; uuids := uuids st; in_flight := in_flight st;
       pushed := pushed st ++ ["/chat/" +:+ newId] |}.

Section Hook.

(** [uuidv4 n] is the n-th identifier that the [uuid] package hands out, and
    [body] is the hook's [body] option. The callbacks [onResponse],
    [onFinish] and [onError] do not touch the hook's state and are left
    out. *)
Variable uuidv4 : nat → string.
Variable body : FilterOptions.

Definition draw_uuid (st : State) : string * State :=
  (uuidv4 (uuids st),
   {| messages := messages st; input := input st; isLoading := isLoading st;
      error := error st; abortControllerRef := abortControllerRef st;
      conversationIdRef := conversationIdRef st; controllers := controllers st;
      aborted := aborted st; uuids := S (uuids st); in_flight := in_flight st;
      pushed := pushed st |}).

(** The hook's state after the first render and the mount effect, which
    creates the first controller. *)
Definition init (initialId : option string) (initialMessages : list Message)
  : State :=
  {| messages := initialMessages; input := ""; isLoading := false;
     error := None; abortControllerRef := Some 0;
     conversationIdRef := initialId; controllers := 1; aborted := ∅;
     uuids := 0; in_flight := []; pushed := [] |}.

Definition userMessage (uid content : string) : Message :=
  {| id := uid; content := Js.trim content; role := user; sources := Some [] |}.

Definition assistantMessage (uid : string) (data : ChatResponse) : Message :=
  {| id := uid; content := response data; role := assistant;
     sources := Some (response_sources data) |}.

Definition requestBody (content : string) (options : FilterOptions) (st : State)
  : RequestBody :=
  {| message := Js.trim content;
     body_conversation_id := conversationIdRef st;
     body_technologies :=
       default [] (Js.or_else (technologies options) (technologies body));
     body_categories :=
       default [] (Js.or_else (categories options) (categories body)) |}.

(** [append], from its call to the [await fetch]. *)
Definition append_call (content : string) (options : FilterOptions) (st : State)
  : State * Called :=
  if negb (Js.truthy (Js.trim content)) then (st, Finished RetNull)
  else
    let st := abort_current st in
    let '(c, st) := new_controller st in
    let st := set_isLoading true st in
    let st := set_error None st in
    let '(uid, st) := draw_uuid st in
    let st := set_messages (λ ms, ms ++ [userMessage uid content]) st in
    let st := issue {| controller := c;
                       request_body := requestBody content options st |} st in
    (st, Awaiting c).

(** [append], from the point where the request of controller [c] settles
    to its end, as one step: an aborted signal makes [fetch] (or the
    reading of the body) reject, whatever the server answered. *)
Definition append_settle (c : nat) (res : FetchResult) (st : State)
  : State * Returned :=
  let st := retire c st in
  let outcome :=
    if decide (c ∈ aborted st) then FetchRejected "AbortError" else res in
  match outcome with
  | FetchOk data =>
    let st := if Js.truthy (conversation_id data)
              then updateConversationId (conversation_id data) st else st in
    let '(uid, st) := draw_uuid st in
    let st := set_messages (λ ms, ms ++ [assistantMessage uid data]) st in
    let st := set_isLoading false st in
    (st, RetString (conversation_id data))
  | FetchHttpError msg | FetchRejected msg =>
    let st := set_error (Some msg) st in
    let st := set_isLoading false st in
    (st, RetUndefined)
  end.

(** Index of the last [user] message, as the [reduceRight] computes it;
    [None] stands for [-1]. *)
Definition lastUserMessageIndex (ms : list Message) : option nat :=
  foldr (λ '(index, m) acc,
           match acc with
           | Some _ => acc
           | None => if decide (role m = user) then Some index else None
           end)
        None (imap (λ i m, (i, m)) ms) .

(** [reload], from its call to the [await fetch] of the [append] it ends
    with. The closure's [messages] is the current state. The last branch
    cannot be taken: the index comes from the list. *)
Definition reload_call (options : FilterOptions) (st : State) : State * Called :=
  if decide (length (messages st) = 0) then (st, Finished RetNull)
  else
    match lastUserMessageIndex (messages st) with
    | None => (st, Finished RetNull)
    | Some index =>
      let newMessages := take (index + 1) (messages st) in
      match messages st !! index with
      | Some lastUserMessage =>
        append_call (content lastUserMessage) options
                    (set_messages (λ _, newMessages) st)
      | None => (st, Finished RetUndefined)
      end
    end.

Definition stop (st : State) : State :=
  match abortControllerRef st with
  | Some _ => set_isLoading false (abort_current st)
  | None => st
  end.

Definition handleInputChange (value : string) (st : State) : State :=
  set_input value st.

Definition handleSubmit (options : FilterOptions) (st : State) : State :=
  if negb (Js.truthy (Js.trim (input st))) then st
  else set_input "" (append_call (Js.trim (input st)) options st).1.

(** *** The hook as a transition system

    What can happen to a mounted hook: the component calls one of its
    functions, or a request that is in flight settles. *)
Inductive Event :=
| Append (content : string) (options : FilterOptions)
| Reload (options : FilterOptions)
| Stop
| Submit (options : FilterOptions)
| InputChange (value : string)
| Settle (c : nat) (res : FetchResult).

Definition is_in_flight (c : nat) (st : State) : bool :=
  bool_decide (c ∈ controller <$> in_flight st).

Definition step (st : State) (e : Event) : State :=
  match e with
  | Append content options => (append_call content options st).1
  | Reload options => (reload_call options st).1
  | Stop => stop st
  | Submit options => handleSubmit options st
  | InputChange value => handleInputChange value st
  | Settle c res => if is_in_flight c st then (append_settle c res st).1 else st
  end.

Definition run (es : list Event) (st : State) : State := foldl step st es.

(** The requests in flight whose signal has not been aborted. *)
Definition live (st : State) : list Request :=
  filter (λ r, controller r ∉ aborted st) (in_flight st).

Definition failed (res : FetchResult) : Prop :=
  match res with FetchOk _ => False | _ => True end.

(** The index of the last [user] message by plain recursion, to reason
    about the [reduceRight]. *)
Fixpoint last_user (ms : list Message) : option nat :=
  match ms with
  | [] => None
  | m :: ms' =>
    match last_user ms' with
    | Some i => Some (S i)
    | None => if decide (role m = user) then Some 0 else None
    end
  end.

End Hook.

(** The fields of the state that decide which requests are live are well
    formed when every controller mentioned has been created. *)
Definition well_formed (st : State) : Prop :=
  set_Forall (λ c, c < controllers st) (aborted st)
  ∧ from_option (λ c, c < controllers st) True (abortControllerRef st)
  ∧ Forall (λ r, controller r < controllers st) (in_flight st).

#[global] Instance well_formed_dec st : Decision (well_formed st).
Proof.
  unfold well_formed. destruct (abortControllerRef st); simpl; apply _.
Defined.

(** Every live request carries the signal of the current controller, and
    there is at most one. *)
Definition one_live (st : State) : Prop :=
  live st = []
  ∨ ∃ r, live st = [r] ∧ abortControllerRef st = Some (controller r).

Definition inv (st : State) : Prop := well_formed st ∧ one_live st.

End UseChat.

(** ** The chat route: [chatRequestSchema] and [POST] *)

Module Route.

(** JSON values. Numbers are integers here; an object lists its members in
    order. *)
#[warnings="-register-all"]
Inductive Json :=
| JNull
| JBool (b : bool)
| JNumber (n : Z)
| JString (s : string)
| JArray (xs : list Json)
| JObject (members : list (string * Json)).

(** [o.key]: of two members with one key the later one wins, as in
    [JSON.parse]; [None] stands for [undefined]. *)
Fixpoint assoc_last (key : string) (members : list (string * Json)) : option Json :=
  match members with
  | [] => None
  | (k, v) :: rest =>
    match assoc_last key rest with
    | Some w => Some w
    | None => if decide (k = key) then Some v else None
    end
  end.

(** Property access on a value that is not [null]: only objects have the
    members the route asks for. *)
Definition member (key : string) (j : Json) : option Json :=
  match j with
  | JObject members => assoc_last key members
  | _ => None
  end.

Definition keys (j : Json) : list string :=
  match j with
  | JObject members => members.*1
  | _ => []
  end.

(** JavaScript truthiness of a member that may be [undefined]. *)
Definition truthy (v : option Json) : bool :=
  match v with
  | None | Some JNull | Some (JBool false) | Some (JNumber 0) => false
  | Some (JString s) => Js.truthy s
  | Some _ => true
  end.

Definition Source_to_json (s : Source) : Json :=
  JObject [("technology", JString (technology s));
           ("file_path", JString (file_path s));
           ("section_title", JString (section_title s));
           ("category", JString (category s));
           ("score", JNumber (score s));
           ("content_preview", JString (content_preview s));
           ("full_content", JString (full_content s))].

(** [NextResponse.json(data)] for a [data] of the declared type
    [ChatResponse]. *)
Definition ChatResponse_to_json (data : ChatResponse) : Json :=
  JObject [("conversation_id", JString (conversation_id data));
           ("response", JString (response data));
           ("sources", JArray (Source_to_json <$> response_sources data))].

(** The value that [chatRequestSchema.parse] returns: unknown members are
    stripped, absent optional members stay absent. *)
Record ChatRequest := {
  message : string;
  conversation_id : option string;
  technologies : option (list string);
  categories : option (list string)
}.

Definition as_string (j : Json) : option string :=
  match j with JString s => Some s | _ => None end.

Definition as_string_array (j : Json) : option (list string) :=
  match j with JArray xs => mapM as_string xs | _ => None end.

(** [schema.optional()]: [undefined] passes, anything else must pass the
    schema. *)
Definition optional {A} (schema : Json → option A) (v : option Json)
  : option (option A) :=
  match v with
  | None => Some None
  | Some j => Some <$> schema j
  end.

(** [z.string().min(1)]. *)
Definition string_min1 (j : Json) : option string :=
  s ← as_string j; if decide (1 ≤ String.length s)%nat then Some s else None.

(** [chatRequestSchema.parse]; [None] stands for a thrown [ZodError]. *)
Definition chatRequestSchema (body : Json) : option ChatRequest :=
  match body with
  | JObject _ =>
    m ← member "message" body ≫= string_min1;
    c ← optional as_string (member "conversation_id" body);
    t ← optional as_string_array (member "technologies" body);
    g ← optional as_string_array (member "categories" body);
    Some {| message := m; conversation_id := c;
            technologies := t; categories := g |}
  | _ => None
  end.

Definition string_array_to_json (xs : list string) : Json :=
  JArray (JString <$> xs).

(** [JSON.stringify] of a request: an [undefined] member is left out. *)
Definition ChatRequest_to_json (r : ChatRequest) : Json :=
  JObject
    ([("message", JString (message r))]
     ++ from_option (λ c, [("conversation_id", JString c)]) []
          (conversation_id r)
     ++ from_option (λ t, [("technologies", string_array_to_json t)]) []
          (technologies r)
     ++ from_option (λ g, [("categories", string_array_to_json g)]) []
          (categories r)).


(** How the forwarded [fetch] to the backend ends: it throws, or answers
    with a status that is not ok and maybe a [detail] (a string), or
    answers ok with a body of the declared type [ChatResponse]. *)
Inductive BackendResult :=
| BackendUnreachable
| BackendNotOk (status : nat) (detail : option string)
| BackendOk (data : ChatResponse).

Record NextResponse := {
  status : nat;
  payload : Json
}.

Definition invalid_request (details : Json) : NextResponse :=
  {| status := 400;
     payload := JObject [("error", JString "Invalid request data");
                         ("details", details)] |}.

Definition internal_server_error : NextResponse :=
  {| status := 500;
     payload := JObject [("error", JString "Internal server error")] |}.

(** The issue that the route builds itself when [body.message] is falsy. *)
Definition message_required : Json :=
  JArray [JObject [("path", JArray [JString "message"]);
                   ("message", JString "Message is required");
                   ("code", JString "invalid_type");
                   ("expected", JString "string");
                   ("received", JString "undefined")]].

(** [errorData?.detail || 'Backend API error']. *)
Definition detail_or_default (detail : option string) : string :=
  match detail with
  | Some d => if Js.truthy d then d else "Backend API error"
  | None => "Backend API error"
  end.

Section Handler.

(** [zod_issues body] is the issue list of the [ZodError] that the schema
    throws on [body]; [backend] is the backend behind [API_URL/chat]. *)
Variable zod_issues : Json → Json.
Variable backend : ChatRequest → BackendResult.

(** [POST]; the body is [None] when [request.json()] throws. *)
Definition POST (body : option Json) : NextResponse :=
  match body with
  | None | Some JNull => internal_server_error
  | Some body =>
    if negb (truthy (member "message" body)) then invalid_request message_required
    else
      match chatRequestSchema body with
      | None => invalid_request (zod_issues body)
      | Some validatedData =>
        match backend validatedData with
        | BackendUnreachable => internal_server_error
        | BackendNotOk st detail =>
          {| status := st;
             payload :=
               JObject [("error", JString (detail_or_default detail));
                        ("status", JNumber (Z.of_nat st))] |}
        | BackendOk data =>
          {| status := 200; payload := ChatResponse_to_json data |}
        end
      end
  end.

End Handler.

End Route.

(** ** The history routes: [GET], [GET_SINGLE_CONVERSATION] and [DELETE] *)

Module History.

(** How the [fetch] to the backend ends: it throws, or it answers with a
    status and a body; the body is [None] when [response.json()] throws. *)
Inductive BackendResponse :=
| Unreachable
| Responded (status : nat) (body : option Route.Json).

(** [response.ok]: the status is in the range 200..299. *)
Definition ok (status : nat) : bool :=
  (200 <=? status) && (status <=? 299).

(** A [NextResponse]; [new NextResponse(null, ...)] has no body. *)
Record NextResponse := {
  status : nat;
  body : option Route.Json
}.

Definition json (data : Route.Json) (status : nat) : NextResponse :=
  {| status := status; body := Some data |}.

Definition error_body (text : string) : Route.Json :=
  Route.JObject [("error", Route.JString text)].

Definition GET (backend : BackendResponse) : NextResponse :=
  match backend with
  | Responded st body =>
    if negb (ok st) then json (error_body "Failed to fetch conversations") 500
    else
      match body with
      | Some data => json data 200
      | None => json (error_body "Failed to fetch conversations") 500
      end
  | Unreachable => json (error_body "Failed to fetch conversations") 500
  end.

Definition GET_SINGLE_CONVERSATION (backend : BackendResponse) : NextResponse :=
  match backend with
  | Responded st body =>
    if decide (st = 404) then json (error_body "Conversation not found") 404
    else if negb (ok st)
    then json (error_body "Failed to fetch conversation") 500
    else
      match body with
      | Some data => json data 200
      | None => json (error_body "Failed to fetch conversation") 500
      end
  | Unreachable => json (error_body "Failed to fetch conversation") 500
  end.

Definition DELETE (backend : BackendResponse) : NextResponse :=
  match backend with
  | Responded st _ =>
    if decide (st = 404) then json (error_body "Conversation not found") 404
    else if negb (ok st)
    then json (error_body "Failed to delete conversation") 500
    else {| status := 204; body := None |}
  | Unreachable => json (error_body "Failed to delete conversation") 500
  end.

End History.

(** ** The chat page: [getChat], [ChatPage] and [generateMetadata] *)

Module ChatPage.

(** How an [async] function ends: its promise resolves or rejects. *)
Inductive Outcome (A : Type) :=
| Resolved (a : A)
| Rejected.
Arguments Resolved {A} a.
Arguments Rejected {A}.

(** What [response.json()] gives, as far as [getChat] looks at it: it
    throws, or the value has no truthy [messages] member, or it has the
    messages of the declared type [Conversation]. *)
Inductive Body :=
| Unreadable
| NoMessages
| Messages (ms : list Message).

(** How the [fetch] of a conversation ends. *)
Inductive Fetched :=
| FetchThrew
| Response (status : nat) (body : Body).

(** What the page renders. *)
Inductive Page :=
| ChatOf (initialMessages : list Message) (initialId : option string)
| NotFound.

Record Metadata := {
  title : string;
  description : string
}.

Section Server.

(** [backend id] is the answer to a [GET] of [/conversations/id]. *)
Variable backend : string → Fetched.

(** [getChat]; [None] stands for [null]. The [catch] clause turns every
    exception of the body into [null]. *)
Definition getChat (id : string) : Outcome (option (list Message)) :=
  let body : Outcome (option (list Message)) :=
    match backend id with
    | FetchThrew => Rejected
    | Response st data =>
      if negb (History.ok st) then
        if decide (st = 404) then Resolved None else Rejected
      else
        match data with
        | Unreadable => Rejected
        | NoMessages => Resolved (Some [])
        | Messages ms => Resolved (Some ms)
        end
    end in
  match body with
  | Resolved r => Resolved r
  | Rejected => Resolved None
  end.

(** [ChatPage]: [notFound()] throws, inside the [try] as well as in the
    [catch] clause, so both end in the not-found page. *)
Definition ChatPage (id : string) : Page :=
  if decide (id = "new") then ChatOf [] None
  else
    match getChat id with
    | Resolved (Some ms) => ChatOf ms (Some id)
    | Resolved None => NotFound
    | Rejected => NotFound
    end.

Definition generateMetadata (id : string) : Metadata :=
  if decide (id = "new") then
    {| title := "New Chat";
       description :=
         "Start a new conversation with your vector database assistant" |}
  else
    match getChat id with
    | Resolved None =>
      {| title := "Chat Not Found";
         description := "The requested chat could not be found" |}
    | Resolved (Some _) =>
      {| title := "Chat";
         description :=
           "Continue your conversation with your vector database assistant" |}
    | Rejected =>
      {| title := "Chat Error";
         description := "An error occurred while loading the chat" |}
    end.

End Server.

End ChatPage.

(** ** The hook talking to the chat route *)

Module ChatApi.






Section Api.

Variable zod_issues : Route.Json → Route.Json.
Variable backend : Route.ChatRequest → Route.BackendResult.


End Api.

End ChatApi.

(** ** [Chat] and [ChatInput] *)

Module ChatView.
Import UseChat.

(** The [body] option that [Chat] hands to the hook. *)
Definition body : FilterOptions :=
  {| technologies := Some []; categories := Some [] |}.

(** [handleTechnologyToggle], as the updater that it hands to
    [setSelectedTechnologies]. *)
Definition handleTechnologyToggle (technologyId : string) (prev : list string)
  : list string :=
  if bool_decide (technologyId ∈ prev)
  then filter (λ id, id ≠ technologyId) prev
  else prev ++ [technologyId].

(** The options of every submit: [{ technologies: selectedTechnologies }]. *)
Definition selection (selectedTechnologies : list string) : FilterOptions :=
  {| technologies := Some selectedTechnologies; categories := None |}.

(** The suggested prompts are rendered when
    [!input && !isLoading && messages.length === 0]. *)
Definition suggestions_shown (st : State) : bool :=
  negb (Js.truthy (input st)) && negb (isLoading st)
  && bool_decide (length (messages st) = 0).

Section Component.

Variable uuidv4 : nat → string.

(** [onRegenerate] of [Chat]. The arrow function declares no parameter, so
    the options that [ChatInput] passes are dropped and [reload] is called
    without options. *)
Definition onRegenerate (_ : FilterOptions) (st : State) : State * Called :=
  if isLoading st then (st, Finished RetNull)
  else reload_call uuidv4 body no_options st.

(** [handleSubmit] as the render of the state [rendered] created it: the
    callback closes over the [input] of that render, while [append] and
    [setInput] act on the state at the time of the call. *)
Definition onSubmit (rendered : State) (options : FilterOptions) (st : State)
  : State :=
  if negb (Js.truthy (Js.trim (input rendered))) then st
  else set_input ""
         (append_call uuidv4 body (Js.trim (input rendered)) options st).1.

Definition handleManualSubmit (selectedTechnologies : list string) (st : State)
  : State :=
  onSubmit st (selection selectedTechnologies) st.

(** [onKeyDown] for the Enter key without Shift. *)
Definition onKeyDown_Enter (selectedTechnologies : list string) (st : State)
  : State :=
  if isLoading st then st else onSubmit st (selection selectedTechnologies) st.

(** [handleSuggestionClick]: [handleInputChange] schedules the new input,
    and [onSubmit] is still the callback of the render that showed the
    suggestion. *)
Definition handleSuggestionClick (suggestion : string)
    (selectedTechnologies : list string) (st : State) : State :=
  onSubmit st (selection selectedTechnologies) (handleInputChange suggestion st).

Definition handleRegenerate (selectedTechnologies : list string) (st : State)
  : State :=
  if isLoading st then st
  else (onRegenerate (selection selectedTechnologies) st).1.

End Component.

End ChatView.

(** ** [LoadingMessages] *)

Module LoadingMessages.

Definition messages : list string :=
  ["Initializing process...";
   "Searching through documentation...";
   "Gathering relevant information...";
   "Analyzing content thoroughly...";
   "Processing data points...";
   "Organizing findings...";
   "Preparing comprehensive response...";
   "Validating information...";
   "Formatting results...";
   "Almost ready with your answer...";
   "Finalizing response..."].

Record State := {
  messageIndex : nat;
  isComplete : bool
}.

Definition init : State := {| messageIndex := 0; isComplete := false |}.

(** One run of the interval callback. *)
Definition tick (st : State) : State :=
  if decide (messageIndex st = length messages - 1)
  then {| messageIndex := messageIndex st; isComplete := true |}
  else {| messageIndex := messageIndex st + 1; isComplete := isComplete st |}.

Definition ticks (n : nat) : State := Nat.iter n tick init.

(** The message on display, [messages[messageIndex]]; [None] stands for
    [undefined]. *)
Definition shown (st : State) : option string := messages !! messageIndex st.

End LoadingMessages.

(** ** [lib/utils]: [truncateText], [generateTitle] and [generateUUID] *)

Module Utils.

(** [s.slice(start, end)] for integers [start] and [end]: a negative index
    counts from the end of the string, and both are clamped to the
    string. *)
Definition slice (start end_ : Z) (s : string) : string :=
  let len := Z.of_nat (String.length s) in
  let clamp i := if (i <? 0)%Z then Z.max (len + i) 0 else Z.min i len in
  let from := clamp start in
  let to := clamp end_ in
  substring (Z.to_nat from) (Z.to_nat (Z.max (to - from) 0)) s.

(** [truncateText], for an integer [maxLength]. *)
Definition truncateText (text : string) (maxLength : Z) : string :=
  if (Z.of_nat (String.length text) <=? maxLength)%Z then text
  else slice 0 (maxLength - 3) text +:+ "...".

(** [s.split(/\s+/)]: the pieces between the maximal runs of white space;
    the flag tells whether the previous character was white space. *)
Fixpoint split_white_space_go (in_run : bool) (current : string) (s : string)
  : list string :=
  match s with
  | EmptyString => [String.rev current]
  | String c s' =>
    if Js.is_white_space c then
      if in_run then split_white_space_go true current s'
      else String.rev current :: split_white_space_go true "" s'
    else split_white_space_go false (String c current) s'
  end.

Definition split_white_space (s : string) : list string :=
  split_white_space_go false "" s.

(** [words.join(sep)]. *)
Definition join (sep : string) (words : list string) : string :=
  String.concat sep words.

Definition generateTitle (message : string) : string :=
  let words := split_white_space message in
  let titleWords := take 6 words in
  let title := join " " titleWords in
  if decide (80 < String.length title) then slice 0 77 title +:+ "..."
  else title.

(** A string whose white space is single spaces: every white space
    character is a space and is not followed by white space. *)
Fixpoint single_spaced (s : string) : bool :=
  match s with
  | EmptyString => true
  | String c s' =>
    (if Js.is_white_space c
     then bool_decide (c = " "%char)
          && match s' with
             | String d _ => negb (Js.is_white_space d)
             | EmptyString => true
             end
     else true)
    && single_spaced s'
  end.

(** The digit of [v.toString(16)] for [v] below 16. *)
Definition hex_digit (v : N) : ascii :=
  match v with
  | 0 => "0" | 1 => "1" | 2 => "2" | 3 => "3" | 4 => "4" | 5 => "5"
  | 6 => "6" | 7 => "7" | 8 => "8" | 9 => "9" | 10 => "a" | 11 => "b"
  | 12 => "c" | 13 => "d" | 14 => "e" | _ => "f"
  end%N%char.

(** [v.toString(16)] for a natural number. *)
Fixpoint toString16_go (fuel : nat) (v : N) (acc : string) : string :=
  match fuel with
  | 0 => acc
  | S fuel' =>
    let acc' := String (hex_digit (v mod 16)) acc in
    if (v / 16 =? 0)%N then acc' else toString16_go fuel' (v / 16) acc'
  end.

Definition toString16 (v : N) : string :=
  toString16_go (S (N.size_nat v)) v "".

Section Random.

(** [random16 n] is the value of [(Math.random() * 16) | 0] at the n-th
    call, a number from 0 to 15. *)
Variable random16 : nat → N.

(** The callback of the [replace]. *)
Definition generateUUID_digit (c : ascii) (call : nat) : string :=
  let r := random16 call in
  let v := if decide (c = "x"%char) then r else N.lor (N.land r 3) 8 in
  toString16 v.

(** [template.replace(/[xy]/g, callback)]: the callback runs once for each
    [x] or [y], from left to right. *)
Fixpoint replace_xy (call : nat) (template : string) : string :=
  match template with
  | EmptyString => EmptyString
  | String c rest =>
    if decide (c = "x"%char ∨ c = "y"%char)
    then generateUUID_digit c call +:+ replace_xy (S call) rest
    else String c (replace_xy call rest)
  end.

Definition generateUUID : string :=
  replace_xy 0 "xxxxxxxx-xxxx-4xxx-yxxx-xxxxxxxxxxxx".

End Random.

End Utils.

(** ** [useHistory] and the sidebar history *)

Module Conversation.

(** The [Conversation] of [types/chat.ts]. *)
Record t := {
  id : string;
  title : string;
  messages : list Message;
  created_at : string;
  updated_at : string
}.

End Conversation.

Module UseHistory.

Inductive Toast :=
| toast_error (text : string)
| toast_success (text : string).

Record State := {
  conversations : list Conversation.t;
  isLoading : bool;
  error : option string;
  toasts : list Toast
}.

Definition toast (t : Toast) (st : State) : State :=
  {| conversations := conversations st; isLoading := isLoading st;
     error := error st; toasts := toasts st ++ [t] |}.

Definition setConversations (f : list Conversation.t → list Conversation.t)
    (st : State) : State :=
  {| conversations := f (conversations st); isLoading := isLoading st;
     error := error st; toasts := toasts st |}.

Definition setIsLoading (b : bool) (st : State) : State :=
  {| conversations := conversations st; isLoading := b;
     error := error st; toasts := toasts st |}.

Definition setError (e : option string) (st : State) : State :=
  {| conversations := conversations st; isLoading := isLoading st;
     error := e; toasts := toasts st |}.

(** How a [fetch] of the list ends: it throws an error with a message, or
    it answers with a status and a body that [response.json()] either
    fails to read, with a message, or reads as the declared list. *)
Inductive ListBody :=
| ListUnreadable (msg : string)
| ListData (data : list Conversation.t).

Inductive ListResponse :=
| ListThrew (msg : string)
| ListResponded (status : nat) (body : ListBody).

(** How the [fetch] of a deletion ends. *)
Inductive DeleteResponse :=
| DeleteThrew (msg : string)
| DeleteResponded (status : nat).

(** How an [async] function ends: its promise resolves to a value or
    rejects with the message of an error. *)
Inductive Outcome (A : Type) :=
| Resolved (a : A)
| Rejected (msg : string).
Arguments Resolved {A} a.
Arguments Rejected {A} msg.

(** [fetchConversations], run to its end on the answer [resp]. *)
Definition fetchConversations (resp : ListResponse) (st : State) : State :=
  let st := setIsLoading true st in
  let st := setError None st in
  let failed msg st :=
    toast (toast_error "Failed to fetch conversations") (setError (Some msg) st) in
  let st :=
    match resp with
    | ListThrew msg => failed msg st
    | ListResponded status body =>
      if negb (History.ok status) then failed "Failed to fetch conversations" st
      else
        match body with
        | ListUnreadable msg => failed msg st
        | ListData data => setConversations (λ _, data) st
        end
    end in
  setIsLoading false st.

(** [deleteConversation], run to its end: [resp] answers the deletion and
    [refetch] answers the [fetchConversations] of the [catch] clause. *)
Definition deleteConversation (id : string) (resp : DeleteResponse)
    (refetch : ListResponse) (st : State) : State * Outcome bool :=
  let failed msg st :=
    let st := toast (toast_error "Failed to delete conversation") st in
    (fetchConversations refetch st, Rejected msg) in
  match resp with
  | DeleteThrew msg => failed msg st
  | DeleteResponded status =>
    if decide (status = 404)
    then (toast (toast_error "Conversation not found") st, Resolved false)
    else if negb (History.ok status)
    then failed "Failed to delete conversation" st
    else
      let st :=
        setConversations
          (filter (λ conv, Conversation.id conv ≠ id)) st in
      (toast (toast_success "Conversation deleted") st, Resolved true)
  end.

End UseHistory.

Module SidebarHistory.

Record GroupedConversations := {
  today : list Conversation.t;
  yesterday : list Conversation.t;
  lastWeek : list Conversation.t;
  lastMonth : list Conversation.t;
  older : list Conversation.t
}.

Definition no_groups : GroupedConversations :=
  {| today := []; yesterday := []; lastWeek := []; lastMonth := [];
     older := [] |}.

Section Grouping.

(** [getTime date] is [new Date(date).getTime()] for a [created_at] that
    parses; [isToday] and [isYesterday] are those of [date-fns], and
    [oneWeekAgo] and [oneMonthAgo] the times of [subWeeks(now, 1)] and
    [subMonths(now, 1)]. *)
Variable getTime : string → Z.
Variable isToday isYesterday : Z → bool.
Variable oneWeekAgo oneMonthAgo : Z.

(** The comparator of the sort. *)
Definition compare (a b : Conversation.t) : Z :=
  (getTime (Conversation.created_at b) - getTime (Conversation.created_at a))%Z.

(** [Array.prototype.sort] is stable: an element goes in front of the
    first one that the comparator does not put before it. *)
Fixpoint insert (a : Conversation.t) (sorted : list Conversation.t)
  : list Conversation.t :=
  match sorted with
  | [] => [a]
  | b :: rest =>
    if (compare a b <=? 0)%Z then a :: b :: rest else b :: insert a rest
  end.

Definition sort (conversations : list Conversation.t) : list Conversation.t :=
  foldr insert [] conversations.

(** The callback of the [reduce]. *)
Definition push (groups : GroupedConversations) (conversation : Conversation.t)
  : GroupedConversations :=
  let date := getTime (Conversation.created_at conversation) in
  if isToday date then
    {| today := today groups ++ [conversation]; yesterday := yesterday groups;
       lastWeek := lastWeek groups; lastMonth := lastMonth groups;
       older := older groups |}
  else if isYesterday date then
    {| today := today groups; yesterday := yesterday groups ++ [conversation];
       lastWeek := lastWeek groups; lastMonth := lastMonth groups;
       older := older groups |}
  else if (oneWeekAgo <? date)%Z then
    {| today := today groups; yesterday := yesterday groups;
       lastWeek := lastWeek groups ++ [conversation];
       lastMonth := lastMonth groups; older := older groups |}
  else if (oneMonthAgo <? date)%Z then
    {| today := today groups; yesterday := yesterday groups;
       lastWeek := lastWeek groups;
       lastMonth := lastMonth groups ++ [conversation];
       older := older groups |}
  else
    {| today := today groups; yesterday := yesterday groups;
       lastWeek := lastWeek groups; lastMonth := lastMonth groups;
       older := older groups ++ [conversation] |}.

Definition groupConversationsByDate (conversations : list Conversation.t)
  : GroupedConversations :=
  foldl push no_groups (sort conversations).

End Grouping.

(** The state of the component next to that of [useHistory]: the
    conversation picked for deletion, the dialog, and the routes pushed. *)
Record State := {
  deleteId : option string;
  showDeleteDialog : bool;
  pushed : list string
}.

(** [handleDelete]; [active] is the [id] of [useParams]. *)
Definition handleDelete (active : option string)
    (resp : UseHistory.DeleteResponse) (refetch : UseHistory.ListResponse)
    (ui : State) (history : UseHistory.State) : State * UseHistory.State :=
  match deleteId ui with
  | None => (ui, history)
  | Some d =>
    if negb (Js.truthy d) then (ui, history)
    else
      match UseHistory.deleteConversation d resp refetch history with
      | (history, UseHistory.Resolved _) =>
        ({| deleteId := deleteId ui; showDeleteDialog := false;
            pushed := pushed ui
                      ++ (if decide (Some d = active) then ["/"] else []) |},
         history)
      | (history, UseHistory.Rejected _) => (ui, history)
      end
  end.

End SidebarHistory.

(** ** [SourceDetails] and [SourceItem]: the link to the documentation *)

Module MessageView.

(** [s.replace(pattern, "")] for a pattern that is a string: the first
    occurrence of the pattern is removed. *)
Definition remove_first (pattern s : string) : string :=
  match index 0 pattern s with
  | Some i =>
    substring 0 i s
    +:+ substring (i + String.length pattern)
          (String.length s - (i + String.length pattern)) s
  | None => s
  end.

(** [s.split(sep)] for a separator of one character. *)
Fixpoint split_go (sep : ascii) (current : string) (s : string) : list string :=
  match s with
  | EmptyString => [String.rev current]
  | String c s' =>
    if decide (c = sep) then String.rev current :: split_go sep "" s'
    else split_go sep (String c current) s'
  end.

Definition split (sep : ascii) (s : string) : list string := split_go sep "" s.

(** A value inside a template literal: [undefined] prints as such. *)
Definition in_template (v : option string) : string := default "undefined" v.

(** [doc_url] of [SourceDetails]. *)
Definition SourceDetails_doc_url (source : Source) : string :=
  if decide (technology source = "milvus") then
    "https://milvus.io/docs/"
    +:+ in_template (last (split "/" (file_path source)))
  else if decide (technology source = "weaviate") then
    "https://weaviate.io/developers/weaviate/"
    +:+ in_template
          (head (split "."
                   (remove_first "/index"
                      (remove_first "data/weaviate_docs/" (file_path source)))))
  else if decide (technology source = "qdrant") then
    "https://qdrant.tech/"
    +:+ in_template
          (head (split "."
                   (remove_first "data/qdrant_docs/" (file_path source))))
  else "".

(** [doc_url] of [SourceItem]. *)
Definition SourceItem_doc_url (source : Source) : string :=
  if decide (technology source = "milvus") then
    "https://milvus.io/docs/"
    +:+ in_template (last (split "/" (file_path source)))
  else if decide (technology source = "weaviate") then
    "https://weaviate.io/developers/weaviate/"
    +:+ in_template
          (head (split "."
                   (remove_first "index"
                      (remove_first "data/weaviate_docs/" (file_path source)))))
  else if decide (technology source = "qdrant") then
    "https://qdrant.tech/"
    +:+ in_template
          (head (split "."
                   (remove_first "data/qdrant_docs/" (file_path source))))
  else "".

(** [SourceContent]: how the [fetch] of the file ends. Either the [fetch]
    or [response.text()] throws, an [Error] with a message or another
    value, or the text of an answer with a status is read. *)
Inductive Loaded :=
| LoadThrew (message : option string)
| LoadResponded (status : nat) (text : string).

Record SourceContent := {
  content : string;
  error : option string
}.

Definition SourceContent_init : SourceContent :=
  {| content := ""; error := None |}.

(** [fetchContent], from the point where the request settles. *)
Definition fetchContent (loaded : Loaded) (st : SourceContent) : SourceContent :=
  match loaded with
  | LoadResponded status text =>
    if negb (History.ok status)
    then {| content := content st;
            error := Some "Failed to load documentation" |}
    else {| content := text; error := error st |}
  | LoadThrew message =>
    {| content := content st;
       error := Some (default "Failed to load documentation" message) |}
  end.

Inductive Rendered :=
| ErrorText (text : string)
| LoadingText
| Markdown (text : string).

(** What [SourceContent] returns. *)
Definition render (st : SourceContent) : Rendered :=
  match error st with
  | Some e =>
    if Js.truthy e then ErrorText e
    else if negb (Js.truthy (content st)) then LoadingText
         else Markdown (content st)
  | None =>
    if negb (Js.truthy (content st)) then LoadingText
    else Markdown (content st)
  end.

End MessageView.

(** ** [SidebarUserNav]: the theme item *)

Module SidebarUserNav.

(** The theme that the item sets; [theme] is [None] when [useTheme] gives
    [undefined]. *)
Definition onSelect (theme : option string) : string :=
  if decide (theme = Some "dark") then "light" else "dark".

(** The text of the item. *)
Definition label (theme : option string) : string :=
  "Toggle " +:+ (if decide (theme = Some "light") then "dark" else "light")
  +:+ " mode".

End SidebarUserNav.

(** ** The indexing and retrieval core

    The Python backend ([file_tracker.py], [markdown_processor.py],
    [rag_system.py]) is specified in prose only; the definitions of this
    module follow that prose. *)

Module Core.

(** Modelled from the spec: the identities of section 3, whose Python types
    ([rag_system.py]) are missing. A document is identified by its
    technology tag and path, a chunk by its document and its ordinal in the
    document's chunk sequence. *)
Abbreviation doc_id := (string * string)%type.
Abbreviation chunk_id := (string * string * nat)%type.

(** Modelled from the spec: the [Chunk] of section 3 (the chunk type of
    [markdown_processor.py] is missing). *)
Record Chunk := {
  chunk_doc : doc_id;
  ordinal : nat;
  text : string;
  chunk_section_title : string;
  chunk_technology : string;
  chunk_category : string;
  position : nat
}.

#[global] Instance Chunk_eq_dec : EqDecision Chunk.
Proof. solve_decision. Defined.

(** Modelled from the spec: the stable id of a chunk, derived from its
    document id and ordinal (the id derivation of [rag_system.py] is
    missing). *)
Definition id_of (c : Chunk) : chunk_id := (chunk_doc c, ordinal c).

(** Modelled from the spec: the filters of [search] in section 4.4, each
    one optional (the retriever of [rag_system.py] is missing). *)
Record Filters := {
  filter_technology : option string;
  filter_category : option string
}.

(** Modelled from the spec: a chunk satisfies the filters when it has the
    technology and the category that they name (missing: the filter
    expression of [rag_system.py]). *)
Definition satisfies (f : Filters) (c : Chunk) : bool :=
  match filter_technology f with
  | Some t => bool_decide (chunk_technology c = t)
  | None => true
  end
  &&
  match filter_category f with
  | Some g => bool_decide (chunk_category c = g)
  | None => true
  end.

(** Modelled from the spec: an element of the ranked result of [search], a
    chunk with its score (missing: the result type of [rag_system.py]). *)
Record Hit := {
  hit_chunk : Chunk;
  hit_score : Z
}.

#[global] Instance Hit_eq_dec : EqDecision Hit.
Proof. solve_decision. Defined.

(** Modelled from the spec: the tie-break of section 4.4, by technology
    name, then by sequence position (missing: the merge of
    [rag_system.py]). *)
Definition tie_le (a b : Chunk) : Prop :=
  (chunk_technology a ≠ chunk_technology b
   ∧ String.le (chunk_technology a) (chunk_technology b))
  ∨ (chunk_technology a = chunk_technology b ∧ (position a ≤ position b)%nat).

(** Modelled from the spec: the order of a ranked result, by score
    descending, then by the tie-break (missing: the merge of
    [rag_system.py]). *)
Definition ranks_before (a b : Hit) : Prop :=
  (hit_score b < hit_score a)%Z
  ∨ (hit_score a = hit_score b ∧ tie_le (hit_chunk a) (hit_chunk b)).

#[global] Instance tie_le_dec a b : Decision (tie_le a b).
Proof. unfold tie_le. apply _. Defined.

#[global] Instance ranks_before_dec : RelDecision ranks_before.
Proof. intros a b. unfold ranks_before. apply _. Defined.

(** The line feed that ends a line of the prompt. *)
Definition newline : string := String (ascii_of_nat 10) EmptyString.

Section Model.

(** The capabilities that the core consumes: the content hash, the
    embedding function and the similarity of two vectors (an integer
    score), and of the document processor the splitting of a document's
    content into titled pieces ([None] is a [ParseError]) and the category
    of a document. *)
Context {vector : Type}.
Variable hash : string → N.
Variable embed : string → vector.
Variable similarity : vector → vector → Z.
Variable split : string → option (list (string * string)).
Variable category_of : doc_id → string → string.

(** Modelled from the spec: the [EmbeddingRecord] of section 3 holds the
    vector, the content hash copied from the chunk, and the chunk as the
    metadata of the vector store's [upsert] (missing: the record type of
    [rag_system.py]). *)
Record EmbeddingRecord := {
  record_vector : vector;
  record_hash : N;
  record_chunk : Chunk
}.

(** Modelled from the spec: the store of section 3 (missing: the state of
    [file_tracker.py] and [rag_system.py]). The manifest maps a document id
    to its content hash and the set of its indexed chunk ids; the index
    maps a chunk id to its record. *)
Record Store := {
  manifest : gmap doc_id (N * gset chunk_id);
  index : gmap chunk_id EmbeddingRecord
}.

(** Modelled from the spec: the store of the first run, initialized empty
    (missing: the start-up of [rag_system.py]). *)
Definition empty_store : Store := {| manifest := ∅; index := ∅ |}.

(** *** Change Tracker *)

(** Modelled from the spec: the partition of section 4.1 (missing: the
    result type of [file_tracker.py]). *)
Record Partition := {
  unchanged : gset doc_id;
  modified : gset doc_id;
  added : gset doc_id;
  deleted : gset doc_id
}.

(** Modelled from the spec: the hash that the manifest records for a
    document (missing: the lookup of [file_tracker.py]). *)
Definition recorded_hash (m : gmap doc_id (N * gset chunk_id)) (d : doc_id)
  : option N := fst <$> m !! d.

(** Modelled from the spec: the Change Tracker of section 4.1 (missing:
    [file_tracker.py]); [scan] maps each document found under the document
    tree to its content. A document is modified when its hash differs from
    the recorded one, added when no entry exists, deleted when an entry
    exists with no file. *)
Definition track (m : gmap doc_id (N * gset chunk_id))
    (scan : gmap doc_id string) : Partition :=
  {| unchanged :=
       dom (filter (λ dc, recorded_hash m dc.1 = Some (hash dc.2)) scan);
     modified :=
       dom (filter (λ dc, is_Some (recorded_hash m dc.1)
                          ∧ recorded_hash m dc.1 ≠ Some (hash dc.2)) scan);
     added := dom (filter (λ dc, recorded_hash m dc.1 = None) scan);
     deleted := dom m ∖ dom scan |}.

(** *** Document Processor *)

(** Modelled from the spec: [parse] of section 4.2 (missing:
    [markdown_processor.py]) numbers the pieces of a document in order; a
    chunk's ordinal is its sequence position. *)
Definition parse (d : doc_id) (content : string) : option (list Chunk) :=
  pieces ← split content;
  Some (imap (λ i piece,
                {| chunk_doc := d; ordinal := i; text := piece.2;
                   chunk_section_title := piece.1; chunk_technology := d.1;
                   chunk_category := category_of d content; position := i |})
             pieces).

(** *** Embedding Indexer *)

(** Modelled from the spec: the chunk ids that the manifest records for a
    document (missing: the lookup of [rag_system.py]). *)
Definition chunk_ids_of (m : gmap doc_id (N * gset chunk_id)) (d : doc_id)
  : gset chunk_id :=
  match m !! d with Some e => e.2 | None => ∅ end.

(** Modelled from the spec: a chunk is embedded unless its id is present
    with a matching content hash (missing: the skip test of
    [rag_system.py]). *)
Definition needs_embedding (idx : gmap chunk_id EmbeddingRecord) (c : Chunk)
  : bool :=
  match idx !! id_of c with
  | Some r => negb (bool_decide (record_hash r = hash (text c)))
  | None => true
  end.

(** Modelled from the spec: the record embedded for a chunk (missing: the
    embedding step of [rag_system.py]). *)
Definition embed_chunk (c : Chunk) : EmbeddingRecord :=
  {| record_vector := embed (text c); record_hash := hash (text c);
     record_chunk := c |}.

(** Modelled from the spec: the upsert of one chunk of a document when it
    needs an embedding (missing: [rag_system.py]); the index goes together
    with the log of the chunk ids embedded so far. *)
Definition upsert_stale (il : gmap chunk_id EmbeddingRecord * list chunk_id)
    (c : Chunk) : gmap chunk_id EmbeddingRecord * list chunk_id :=
  if needs_embedding il.1 c
  then (<[id_of c := embed_chunk c]> il.1, il.2 ++ [id_of c])
  else il.

(** Modelled from the spec: the vector store's [delete] for each of a set
    of chunk ids (missing: the store calls of [rag_system.py]). *)
Definition delete_all (ids : gset chunk_id)
    (idx : gmap chunk_id EmbeddingRecord) : gmap chunk_id EmbeddingRecord :=
  filter (λ ir, ir.1 ∉ ids) idx.

(** Modelled from the spec: the apply of one added or modified document in
    section 4.3 (missing: [rag_system.py]). A document that does not parse
    is skipped. Otherwise the index is changed first (stale or new chunks
    embedded, chunk ids no longer produced removed) and the manifest entry
    is written last. *)
Definition apply_document (d : doc_id) (content : string)
    (sl : Store * list chunk_id) : Store * list chunk_id :=
  match parse d content with
  | None => sl
  | Some chunks =>
    let old_ids := chunk_ids_of (manifest sl.1) d in
    let new_ids : gset chunk_id := list_to_set (id_of <$> chunks) in
    let il := foldl upsert_stale (index sl.1, sl.2) chunks in
    ({| manifest := <[d := (hash content, new_ids)]> (manifest sl.1);
        index := delete_all (old_ids ∖ new_ids) il.1 |}, il.2)
  end.

(** Modelled from the spec: the apply of one deleted document in section
    4.3 (missing: [rag_system.py]): its records are removed and its
    manifest entry is dropped. *)
Definition delete_document (st : Store) (d : doc_id) : Store :=
  {| manifest := delete d (manifest st);
     index := delete_all (chunk_ids_of (manifest st) d) (index st) |}.

(** Modelled from the spec: the apply of an added or modified document,
    re-read from the scan (missing: [rag_system.py]). *)
Definition apply_scanned (scan : gmap doc_id string)
    (sl : Store * list chunk_id) (d : doc_id) : Store * list chunk_id :=
  match scan !! d with
  | Some content => apply_document d content sl
  | None => sl
  end.

(** Modelled from the spec: [apply partition] of section 4.3 (missing:
    [rag_system.py]), which also returns the log of the chunk ids it
    embedded. *)
Definition apply (p : Partition) (scan : gmap doc_id string) (st : Store)
  : Store * list chunk_id :=
  foldl (apply_scanned scan)
        (foldl delete_document st (elements (deleted p)), [])
        (elements (added p ∪ modified p)).

(** Modelled from the spec: one indexing pass, a Change-Tracker run and
    the apply of its partition (missing: the indexing entry point of
    [rag_system.py]). *)
Definition index_pass (scan : gmap doc_id string) (st : Store) : Store :=
  (apply (track (manifest st) scan) scan st).1.

(** Modelled from the spec: the chunk ids that one indexing pass embeds
    (missing: the embedding calls of [rag_system.py]). *)
Definition embedded_by_pass (scan : gmap doc_id string) (st : Store)
  : list chunk_id :=
  (apply (track (manifest st) scan) scan st).2.

(** Modelled from the spec: the store reached from the empty one by a
    sequence of apply calls, each with its partition and scan (missing:
    [rag_system.py]). *)
Definition run_applies (calls : list (Partition * gmap doc_id string))
  : Store :=
  foldl (λ st ps, (apply ps.1 ps.2 st).1) empty_store calls.

(** Modelled from the spec: the invariant of section 3. Every chunk id of
    a manifest entry belongs to the entry's document and has a record, and
    every record's chunk id is in the manifest entry of its document. *)
Definition consistent (st : Store) : Prop :=
  (∀ d e id, manifest st !! d = Some e → id ∈ e.2 →
             id.1 = d ∧ is_Some (index st !! id))
  ∧ (∀ id r, index st !! id = Some r →
             ∃ e, manifest st !! id.1 = Some e ∧ id ∈ e.2).

(** *** Retriever *)

(** Modelled from the spec: the searchable records, section 5 (missing:
    the read path of [rag_system.py]); a chunk is searchable once its
    manifest entry is committed. *)
Definition searchable (st : Store) : list EmbeddingRecord :=
  (filter (λ ir, ir.1 ∈ chunk_ids_of (manifest st) ir.1.1)
          (map_to_list (index st))).*2.

(** Modelled from the spec: the hit of a record for a query vector, scored
    by the similarity capability (missing: [rag_system.py]). *)
Definition hit_of (qv : vector) (r : EmbeddingRecord) : Hit :=
  {| hit_chunk := record_chunk r;
     hit_score := similarity qv (record_vector r) |}.

(** Modelled from the spec: the vector store's [query] of section 6 on one
    index (missing: the store calls of [rag_system.py]). The filter is
    applied to the candidates, before ranking. *)
Definition query (idx : list EmbeddingRecord) (qv : vector) (f : Filters)
    (top_k : nat) : list Hit :=
  take top_k
       (merge_sort ranks_before
          (hit_of qv
             <$> filter (λ r, satisfies f (record_chunk r) = true) idx)).

(** Modelled from the spec: the index scoped to one technology (missing:
    the per-technology indexes of [rag_system.py]). *)
Definition scoped (t : string) (rs : list EmbeddingRecord)
  : list EmbeddingRecord :=
  filter (λ r, chunk_technology (record_chunk r) = t) rs.

(** Modelled from the spec: the technologies that have an index (missing:
    the index registry of [rag_system.py]). *)
Definition technologies_of (rs : list EmbeddingRecord) : list string :=
  remove_dups ((λ r, chunk_technology (record_chunk r)) <$> rs).

(** Modelled from the spec: the indexes that a query fans out to, all of
    them or the one of the technology filter (missing: the dispatch of
    [rag_system.py]). *)
Definition selected (f : Filters) (techs : list string) : list string :=
  match filter_technology f with
  | Some t => filter (λ t', t' = t) techs
  | None => techs
  end.

(** Modelled from the spec: [search] of section 4.4 (missing:
    [rag_system.py]) embeds the query, fans out to the selected
    technology-scoped indexes and merges their results. *)
Definition search (st : Store) (query_text : string) (f : Filters)
    (top_k : nat) : list Hit :=
  let qv := embed query_text in
  let rs := searchable st in
  take top_k
       (merge_sort ranks_before
          (mjoin ((λ t, query (scoped t rs) qv f top_k)
                    <$> selected f (technologies_of rs)))).

(** *** Answer Synthesizer *)

(** Modelled from the spec: the turns of a conversation, section 3
    (missing: the conversation type of [conversation_api.py]). *)
Inductive Turn :=
| UserTurn (text : string)
| AssistantTurn (text : string) (cited : list Hit).

Section Synthesizer.

(** The language model ([None] is a timeout or an unavailable model) and
    the synthesizer's choice of the retrieved chunks that it surfaces with
    an answer. *)
Variable generate : string → list Turn → option string.
Variable surfaces : string → Hit → bool.

(** Modelled from the spec: a labeled, attributable context block for one
    retrieved chunk (missing: the prompt template of [rag_system.py]). *)
Definition context_block (n : nat) (h : Hit) : string :=
  "[" +:+ pretty n +:+ "] " +:+ chunk_technology (hit_chunk h) +:+ ": "
  +:+ (chunk_doc (hit_chunk h)).2 +:+ " # "
  +:+ chunk_section_title (hit_chunk h) +:+ newline
  +:+ text (hit_chunk h) +:+ newline.

(** Modelled from the spec: the prompt of section 4.5, the context blocks
    followed by the question (missing: the prompt template of
    [rag_system.py]). *)
Definition build_prompt (query_text : string) (retrieved : list Hit) : string :=
  foldr String.append ("Question: " +:+ query_text)
        (imap context_block retrieved).

(** Modelled from the spec: [synthesize] of section 4.5 (missing:
    [rag_system.py] and [llm_provider.py]); a failed model call gives no
    answer, and the sources are the retrieved chunks that the synthesizer
    surfaces. *)
Definition synthesize (query_text : string) (history : list Turn)
    (retrieved_chunks : list Hit) : option (string * list Hit) :=
  answer_text ← generate (build_prompt query_text retrieved_chunks) history;
  Some (answer_text,
        filter (λ h, surfaces answer_text h = true) retrieved_chunks).

End Synthesizer.

End Model.

End Core.

(** ** Concrete inputs used by the examples below *)

Module Examples.

Definition uuid (n : nat) : string := "id-" +:+ pretty n.

(** A hook mounted on a new chat. *)
Definition fresh : UseChat.State := UseChat.init None [].

Definition qdrant_source : Source :=
  {| technology := "qdrant"; file_path := "guides/configuration.md";
     section_title := "Configuration"; category := "guides"; score := 87;
     content_preview := "To change or correct";
     full_content := "To change or correct Qdrant's behavior" |}.

Definition first_answer : ChatResponse :=
  {| conversation_id := "c-1"; response := "Use a config file.";
     response_sources := [qdrant_source] |}.

Definition second_answer : ChatResponse :=
  {| conversation_id := "c-1"; response := "Use environment variables.";
     response_sources := [] |}.

Definition question : Message :=
  {| id := "m-1"; role := user; content := "How do I configure Qdrant?";
     sources := None |}.

Definition reply : Message :=
  {| id := "m-2"; role := assistant; content := "Use a config file.";
     sources := Some [qdrant_source] |}.

Definition blank_question : Message :=
  {| id := "m-1"; role := user; content := " "; sources := None |}.

Definition padded_question : Message :=
  {| id := "m-1"; role := user; content := " How? "; sources := None |}.

(** A small instance of the core: a polynomial hash, vectors that count
    the length and the letter s of a text, the dot product, and documents
    whose sections are separated by a bar, the empty document being
    invalid. *)
Definition hash (s : string) : N :=
  foldl (λ h c, (h * 31 + N_of_ascii c) mod 4294967296)%N 0%N
        (list_ascii_of_string s).

Definition embed (s : string) : list Z :=
  [Z.of_nat (String.length s);
   Z.of_nat (length (filter (λ c, c = "s"%char) (list_ascii_of_string s)))].

Definition similarity (a b : list Z) : Z :=
  foldr Z.add 0%Z (zip_with Z.mul a b).

Fixpoint sections (current : string) (s : string) : list string :=
  match s with
  | EmptyString => [String.rev current]
  | String c s' =>
    if decide (c = "|"%char) then String.rev current :: sections "" s'
    else sections (String c current) s'
  end.

Definition split (content : string) : option (list (string * string)) :=
  if decide (content = "") then None
  else Some ((λ piece, (piece, piece)) <$> sections "" content).

Definition category_of (d : string * string) (content : string) : string :=
  "guides".

Definition doc_a : string * string := ("qdrant", "a.md").
Definition doc_b : string * string := ("milvus", "b.md").

Definition corpus : gmap (string * string) string :=
  {[ doc_a := "intro|scaling"; doc_b := "intro" ]}.

(** The corpus after the first section of [doc_a] is edited. *)
Definition edited_corpus : gmap (string * string) string :=
  {[ doc_a := "introduction|scaling"; doc_b := "intro" ]}.


Definition index_pass :=
  Core.index_pass hash embed split category_of.

(** The first apply call, on the partition of the corpus against the empty
    manifest, and the store it leaves. *)
Definition first_pass : list (Core.Partition * gmap (string * string) string) :=
  [(Core.track hash ∅ corpus, corpus)].

Definition indexed : Core.Store :=
  Core.run_applies hash embed split category_of first_pass.


Definition scaling_record : Core.EmbeddingRecord :=
  Core.embed_chunk hash embed
    {| Core.chunk_doc := doc_a; Core.ordinal := 1; Core.text := "scaling";
       Core.chunk_section_title := "scaling"; Core.chunk_technology := "qdrant";
       Core.chunk_category := "guides"; Core.position := 1 |}.

Definition no_filter : Core.Filters :=
  {| Core.filter_technology := None; Core.filter_category := None |}.

(** A model that answers every prompt but the empty one, and a
    synthesizer that surfaces the chunks with a score above 30. *)
Definition generate (prompt : string) (history : list Core.Turn) : option string :=
  if decide (prompt = "") then None else Some "See the section on scaling.".

Definition surfaces (answer : string) (h : Core.Hit) : bool :=
  bool_decide (30 < Core.hit_score h)%Z.

End Examples.

(** * Properties *)

(** ** [String.prototype.trim] *)

Module JsFacts.
Import Js.

Lemma chars_rev_app s1 s2 :
  list_ascii_of_string (String.rev_app s1 s2)
  = reverse (list_ascii_of_string s1) ++ list_ascii_of_string s2.
Proof.
  revert s2. induction s1 as [|c s1 IH]; intros s2; [done|].
  simpl. rewrite IH, reverse_cons, <- app_assoc. done.
Qed.

Lemma chars_rev s :
  list_ascii_of_string (String.rev s) = reverse (list_ascii_of_string s).
Proof. unfold String.rev. rewrite chars_rev_app. simpl. apply app_nil_r. Qed.

Lemma chars_trimStart s :
  list_ascii_of_string (Js.trimStart s) = ltrim (list_ascii_of_string s).
Proof.
  induction s as [|c s IH]; [done|].
  simpl. by destruct (Js.is_white_space c).
Qed.

Lemma chars_trim s :
  list_ascii_of_string (Js.trim s) = rtrim (ltrim (list_ascii_of_string s)).
Proof.
  unfold Js.trim, Js.trimEnd, rtrim.
  by rewrite chars_rev, chars_trimStart, chars_rev, chars_trimStart.
Qed.

Lemma ltrim_head_ok l : head_ok (ltrim l).
Proof.
  induction l as [|c l IH]; [done|].
  simpl. by destruct (Js.is_white_space c) eqn:E.
Qed.

Lemma ltrim_id l : head_ok l → ltrim l = l.
Proof. destruct l as [|c l]; [done|]. simpl. by intros ->. Qed.

Lemma ltrim_suffix l : ∃ w, l = w ++ ltrim l.
Proof.
  induction l as [|c l [w IH]]; [by exists []|].
  simpl. destruct (Js.is_white_space c).
  - exists (c :: w). simpl. by rewrite <- IH.
  - by exists [].
Qed.

Lemma rtrim_prefix l : ∃ w, l = rtrim l ++ w.
Proof.
  unfold rtrim. destruct (ltrim_suffix (reverse l)) as [w Hw].
  exists (reverse w).
  by rewrite <- reverse_app, <- Hw, reverse_involutive.
Qed.

Lemma rtrim_head_ok l : head_ok l → head_ok (rtrim l).
Proof.
  intros Hl. destruct (rtrim_prefix l) as [w Hw].
  destruct (rtrim l) as [|c t]; [done|]. by rewrite Hw in Hl.
Qed.

Lemma rtrim_idemp l : rtrim (rtrim l) = rtrim l.
Proof.
  unfold rtrim. rewrite reverse_involutive.
  by rewrite (ltrim_id (ltrim _)) by apply ltrim_head_ok.
Qed.

(** Trimming a trimmed string changes nothing. *)
Lemma trim_idemp s : Js.trim (Js.trim s) = Js.trim s.
Proof.
  rewrite <- (string_of_list_ascii_of_string (Js.trim (Js.trim s))).
  rewrite <- (string_of_list_ascii_of_string (Js.trim s)) at 2.
  f_equal. rewrite (chars_trim (Js.trim s)), chars_trim.
  rewrite (ltrim_id (rtrim _)) by apply rtrim_head_ok, ltrim_head_ok.
  apply rtrim_idemp.
Qed.

End JsFacts.

(** ** The [useChat] hook *)

Module UseChatFacts.
Import UseChat.

Lemma truthy_false (s : string) : Js.truthy s = false ↔ s = "".
Proof. destruct s; simpl; split; congruence. Qed.

Lemma truthy_true (s : string) : Js.truthy s = true ↔ s ≠ "".
Proof. destruct s; simpl; split; congruence. Qed.

Section Facts.

Variable uuidv4 : nat → string.
Variable body : FilterOptions.

Abbreviation append_call := (append_call uuidv4 body).
Abbreviation append_settle := (append_settle uuidv4).
Abbreviation reload_call := (reload_call uuidv4 body).
Abbreviation step := (step uuidv4 body).
Abbreviation run := (run uuidv4 body).

Lemma append_call_blank content options st :
  Js.trim content = "" → append_call content options st = (st, Finished RetNull).
Proof.
  intros H. unfold UseChat.append_call.
  by rewrite (proj2 (truthy_false _) H).
Qed.

(** What a call of [append] with a text that is not blank does to the
    state, field by field. *)
Lemma append_call_awaiting content options st :
  Js.trim content ≠ "" →
  ∃ st1,
    append_call content options st = (st1, Awaiting (controllers st))
    ∧ messages st1 = messages st ++ [userMessage (uuidv4 (uuids st)) content]
    ∧ uuids st1 = S (uuids st)
    ∧ controllers st1 = S (controllers st)
    ∧ abortControllerRef st1 = Some (controllers st)
    ∧ aborted st1 = aborted (abort_current st)
    ∧ in_flight st1 =
        in_flight st ++ [{| controller := controllers st;
                            request_body := requestBody body content options st |}]
    ∧ conversationIdRef st1 = conversationIdRef st.
Proof.
  intros H. unfold UseChat.append_call.
  rewrite (proj2 (truthy_true _) H). simpl.
  unfold abort_current.
  destruct (abortControllerRef st); simpl;
    (eexists; split; [reflexivity|]); simpl; auto 10.
Qed.

Lemma aborted_abort_current st :
  aborted (abort_current st) =
  match abortControllerRef st with
  | Some c => {[c]} ∪ aborted st
  | None => aborted st
  end.
Proof. unfold abort_current. by destruct (abortControllerRef st). Qed.

(** A request that fails, or whose signal is aborted, adds no message. *)
Lemma append_settle_failure c res st :
  c ∈ aborted st ∨ failed res →
  messages (append_settle c res st).1 = messages st
  ∧ (append_settle c res st).2 = RetUndefined.
Proof.
  intros H. unfold UseChat.append_settle. simpl.
  destruct (decide (c ∈ aborted st)) as [|Hn]; [done|].
  destruct H as [|H]; [done|]. by destruct res.
Qed.

(** A request that succeeds, its signal not aborted, adds the assistant
    message and returns the conversation id of the response. *)
Lemma append_settle_success c data st :
  c ∉ aborted st →
  messages (append_settle c (FetchOk data) st).1 =
    messages st ++ [assistantMessage (uuidv4 (uuids st)) data]
  ∧ (append_settle c (FetchOk data) st).2 = RetString (conversation_id data).
Proof.
  intros H. unfold UseChat.append_settle. simpl.
  destruct (decide (c ∈ aborted st)) as [|_]; [done|].
  destruct (Js.truthy (conversation_id data)); simpl; [|done].
  unfold updateConversationId. by case_decide.
Qed.

Lemma fresh_controller_not_aborted st :
  well_formed st → controllers st ∉ aborted (abort_current st).
Proof.
  intros (Ha & Hr & _). rewrite aborted_abort_current.
  destruct (abortControllerRef st) as [c0|]; simpl in Hr.
  - intros [Heq%elem_of_singleton|Hin%Ha]%elem_of_union; lia.
  - intros Hin%Ha. lia.
Qed.

Lemma append_call_Awaiting_inv content options st st1 c :
  append_call content options st = (st1, Awaiting c) → Js.trim content ≠ "".
Proof.
  intros H Hb. rewrite append_call_blank in H by done. discriminate.
Qed.

Lemma stop_after_append content options st st1 c :
  append_call content options st = (st1, Awaiting c) →
  c ∈ aborted (stop st1) ∧ messages (stop st1) = messages st1.
Proof.
  intros H. pose proof (append_call_Awaiting_inv _ _ _ _ _ H) as Hb.
  destruct (append_call_awaiting content options st Hb)
    as (st1' & E & _ & _ & _ & Hr & _).
  rewrite E in H. injection H as -> <-.
  unfold stop, abort_current. rewrite Hr. simpl. split; [set_solver|done].
Qed.

Lemma lastUserMessageIndex_shift (f : nat → Message → nat * Message)
    (g : nat → nat) ms :
  (∀ i m, f i m = (g i, m)) →
  foldr (λ '(index, m) acc,
           match acc with
           | Some _ => acc
           | None => if decide (role m = user) then Some index else None
           end)
        None (imap f ms)
  = g <$> last_user ms.
Proof.
  revert f g. induction ms as [|m ms IH]; intros f g Hf; [done|].
  simpl. rewrite (IH (f ∘ S) (g ∘ S)) by (intros; apply Hf).
  rewrite Hf. destruct (last_user ms); simpl; [done|]. by case_decide.
Qed.

Lemma lastUserMessageIndex_last_user ms :
  lastUserMessageIndex ms = last_user ms.
Proof.
  unfold lastUserMessageIndex.
  rewrite (lastUserMessageIndex_shift _ (λ i, i)) by done.
  by destruct (last_user ms).
Qed.

Lemma last_user_None ms :
  last_user ms = None ↔ Forall (λ m, role m ≠ user) ms.
Proof.
  induction ms as [|m ms IH]; simpl; [by split; auto|].
  rewrite Forall_cons. destruct (last_user ms) as [i|].
  - split; [done|]. intros [_ H%IH]. done.
  - case_decide; split; try done.
    + by intros [? _].
    + intros _. split; [done|]. by apply IH.
Qed.

Lemma last_user_app before m after :
  role m = user → Forall (λ m', role m' ≠ user) after →
  last_user (before ++ m :: after) = Some (length before).
Proof.
  intros Hm Ha. induction before as [|b before IH]; simpl.
  - rewrite (proj2 (last_user_None after) Ha). by case_decide.
  - by rewrite IH.
Qed.

(** C2, as the code has it. A turn whose request fails, or which the caller
    cancels with [stop], leaves the user message that [append] pushed
    before it sent the request, and adds no assistant message: the list is
    the list before the call followed by that user message, and the call
    returns [undefined]. *)
Theorem failed_or_cancelled_turn_keeps_user_message
    st content options st1 c res :
  append_call content options st = (st1, Awaiting c) →
  messages st1 = messages st ++ [userMessage (uuidv4 (uuids st)) content]
  ∧ (failed res →
     messages (append_settle c res st1).1 = messages st1
     ∧ (append_settle c res st1).2 = RetUndefined)
  ∧ messages (append_settle c res (stop st1)).1 = messages st1
  ∧ (append_settle c res (stop st1)).2 = RetUndefined.
Proof.
  intros H. pose proof (append_call_Awaiting_inv _ _ _ _ _ H) as Hb.
  destruct (stop_after_append _ _ _ _ _ H) as [Hab Hms].
  destruct (append_call_awaiting content options st Hb)
    as (st1' & E & Hm & _).
  rewrite E in H. injection H as -> <-.
  split; [done|]. split.
  - intros Hf. apply append_settle_failure. by right.
  - rewrite <- Hms. apply append_settle_failure. by left.
Qed.

(** *** At most one live request *)

Lemma live_issue r st :
  live (issue r st) =
  live st ++ (if decide (controller r ∈ aborted st) then [] else [r]).
Proof.
  unfold live, issue. simpl. rewrite filter_app. f_equal.
  rewrite filter_cons, filter_nil. by repeat case_decide.
Qed.

Lemma live_retire c st :
  live (retire c st) = filter (λ r, controller r ≠ c) (live st).
Proof.
  unfold live, retire. simpl. rewrite !list_filter_filter.
  apply list_filter_iff. tauto.
Qed.

Lemma live_abort_current st :
  live (abort_current st) =
  match abortControllerRef st with
  | Some c => filter (λ r, controller r ≠ c) (live st)
  | None => live st
  end.
Proof.
  unfold live, abort_current. destruct (abortControllerRef st) as [c|]; [|done].
  simpl. rewrite list_filter_filter. apply list_filter_iff.
  intros r. rewrite not_elem_of_union, not_elem_of_singleton. tauto.
Qed.

Lemma filter_one_live c st :
  one_live st →
  filter (λ r, controller r ≠ c) (live st) = []
  ∨ filter (λ r, controller r ≠ c) (live st) = live st.
Proof.
  intros [->|(r & -> & _)]; [by left|].
  rewrite filter_cons, filter_nil. case_decide; auto.
Qed.

Lemma live_abort_current_nil st : one_live st → live (abort_current st) = [].
Proof.
  intros H. rewrite live_abort_current.
  destruct H as [E|(r & E & Hr)]; rewrite E.
  - by destruct (abortControllerRef st).
  - rewrite Hr, filter_cons, filter_nil. by case_decide.
Qed.

Lemma live_ext st st' :
  aborted st = aborted st' → in_flight st = in_flight st' → live st = live st'.
Proof. unfold live. by intros -> ->. Qed.

Lemma append_settle_frame c res st :
  abortControllerRef (append_settle c res st).1 = abortControllerRef st
  ∧ controllers (append_settle c res st).1 = controllers st
  ∧ aborted (append_settle c res st).1 = aborted st
  ∧ in_flight (append_settle c res st).1 =
      filter (λ r, controller r ≠ c) (in_flight st).
Proof.
  unfold UseChat.append_settle. simpl.
  destruct (decide (c ∈ aborted st)); [done|].
  destruct res; simpl; try done.
  destruct (Js.truthy (conversation_id data)); simpl; [|done].
  unfold updateConversationId. by case_decide.
Qed.

Lemma inv_init initialId initialMessages : inv (init initialId initialMessages).
Proof.
  split; [|by left]. unfold well_formed. simpl.
  split; [apply set_Forall_empty|]. split; [lia|constructor].
Qed.

Lemma well_formed_mono st st' :
  well_formed st →
  controllers st ≤ controllers st' →
  aborted st' ⊆ aborted (abort_current st) →
  from_option (λ c, c < controllers st') True (abortControllerRef st') →
  Forall (λ r, controller r < controllers st') (in_flight st') →
  well_formed st'.
Proof.
  intros (Ha & Hr & Hf) Hc Hab Hr' Hf'. split; [|done].
  intros c Hin%Hab. rewrite aborted_abort_current in Hin.
  destruct (abortControllerRef st) as [c0|]; simpl in Hr.
  - apply elem_of_union in Hin as [->%elem_of_singleton|Hin%Ha]; lia.
  - apply Ha in Hin. lia.
Qed.

Lemma aborted_subseteq_abort_current st :
  aborted st ⊆ aborted (abort_current st).
Proof.
  rewrite aborted_abort_current. destruct (abortControllerRef st); set_solver.
Qed.

(** A call of [append] with a text that is not blank leaves exactly its own
    request live. *)
Lemma inv_append_call content options st :
  inv st →
  inv (append_call content options st).1
  ∧ (Js.trim content ≠ "" →
     live (append_call content options st).1 =
       [{| controller := controllers st;
           request_body := requestBody body content options st |}]).
Proof.
  intros [Hwf Hone].
  destruct (decide (Js.trim content = "")) as [Hb|Hb].
  { rewrite append_call_blank by done. done. }
  destruct (append_call_awaiting content options st Hb)
    as (st1 & E & _ & _ & Hc & Hr & Ha & Hf & _).
  rewrite E. simpl.
  assert (live st1 = [{| controller := controllers st;
                         request_body := requestBody body content options st |}])
    as Hlive.
  { unfold live. rewrite Ha, Hf, filter_app.
    assert (filter (λ r, controller r ∉ aborted (abort_current st)) (in_flight st)
            = live (abort_current st)) as ->.
    { unfold live, abort_current. by destruct (abortControllerRef st). }
    rewrite live_abort_current_nil by done. simpl.
    rewrite filter_cons, filter_nil. simpl.
    case_decide as Hn; [done|].
    by apply fresh_controller_not_aborted in Hn. }
  split; [|done]. split.
  - apply (well_formed_mono st); [done|lia|by rewrite Ha| |].
    + rewrite Hr, Hc. simpl. lia.
    + rewrite Hf, Hc. apply Forall_app. split.
      * eapply Forall_impl; [apply Hwf|]. simpl. lia.
      * apply Forall_singleton. simpl. lia.
  - right. eexists. split; [done|]. by rewrite Hr.
Qed.

Lemma inv_ext st st' :
  inv st →
  abortControllerRef st' = abortControllerRef st →
  controllers st' = controllers st →
  aborted st' = aborted st →
  in_flight st' = in_flight st →
  inv st'.
Proof.
  intros [(Ha & Hr & Hf) Hone] Er Ec Eab Ef. split.
  - unfold well_formed. by rewrite Er, Ec, Eab, Ef.
  - unfold one_live. rewrite (live_ext st' st), Er by done. done.
Qed.

Lemma inv_append_settle c res st : inv st → inv (append_settle c res st).1.
Proof.
  intros [Hwf Hone].
  destruct (append_settle_frame c res st) as (Er & Ec & Eab & Ef).
  assert (live (append_settle c res st).1 = filter (λ r, controller r ≠ c) (live st))
    as Hlive.
  { rewrite <- live_retire. by apply live_ext. }
  split.
  - apply (well_formed_mono st); [done|lia| | |].
    + rewrite Eab. apply aborted_subseteq_abort_current.
    + rewrite Er, Ec. apply Hwf.
    + rewrite Ef, Ec. apply Forall_forall.
      intros r [_ Hin]%list_elem_of_filter.
      destruct Hwf as (_ & _ & Hf). by apply (proj1 (Forall_forall _ _) Hf).
  - unfold one_live. rewrite Hlive, Er.
    destruct (filter_one_live c st Hone) as [->| ->]; [by left|done].
Qed.

Lemma inv_stop st : inv st → inv (stop st).
Proof.
  intros [Hwf Hone]. unfold stop.
  destruct (abortControllerRef st) as [c0|] eqn:Hr; [|done].
  assert (live (set_isLoading false (abort_current st)) = []) as Hlive.
  { rewrite (live_ext _ (abort_current st)) by done.
    by apply live_abort_current_nil. }
  split; [|by left].
  apply (well_formed_mono st); [done|..];
    unfold abort_current; rewrite ?Hr; simpl; rewrite ?Hr; simpl.
  - lia.
  - done.
  - destruct Hwf as (_ & Hc & _). by rewrite Hr in Hc.
  - apply Hwf.
Qed.

Lemma inv_step st e : inv st → inv (step st e).
Proof.
  intros Hinv. destruct e as [content options|options| |options|value|c res]; simpl.
  - by apply inv_append_call.
  - unfold UseChat.reload_call. case_decide; [done|].
    destruct (lastUserMessageIndex (messages st)) as [index|]; [|done].
    destruct (messages st !! index) as [m|]; [|done].
    apply inv_append_call. by apply (inv_ext st).
  - by apply inv_stop.
  - unfold handleSubmit. destruct (negb _); [done|].
    eapply inv_ext; [by apply (inv_append_call (Js.trim (input st)) options)|done..].
  - by apply (inv_ext st).
  - destruct (is_in_flight c st); [|done]. by apply inv_append_settle.
Qed.

Lemma inv_run es st : inv st → inv (run es st).
Proof.
  revert st. induction es as [|e es IH]; intros st H; [done|].
  simpl. apply IH. by apply inv_step.
Qed.

(** C3, as the code has it. A successful turn appends the user message,
    whose content is the trimmed text, and then the assistant message with
    the answer and the sources of the response; the call returns the
    conversation id of the response and nothing else. *)
Theorem successful_turn_appends_both_and_returns_id
    initialId initialMessages es content options st1 c data :
  append_call content options (run es (init initialId initialMessages))
    = (st1, Awaiting c) →
  messages (append_settle c (FetchOk data) st1).1 =
    messages (run es (init initialId initialMessages))
    ++ [userMessage
          (uuidv4 (uuids (run es (init initialId initialMessages)))) content;
        assistantMessage
          (uuidv4 (S (uuids (run es (init initialId initialMessages))))) data]
  ∧ (append_settle c (FetchOk data) st1).2 = RetString (conversation_id data).
Proof.
  pose proof (inv_run es _ (inv_init initialId initialMessages)) as [Hwf _].
  set (st := run es (init initialId initialMessages)) in *.
  intros H. pose proof (append_call_Awaiting_inv _ _ _ _ _ H) as Hb.
  destruct (append_call_awaiting content options st Hb)
    as (st1' & E & Hm & Hu & _ & _ & Ha & _).
  rewrite E in H. injection H as -> <-.
  destruct (append_settle_success (controllers st) data st1) as [Hs Hr].
  { rewrite Ha. by apply fresh_controller_not_aborted. }
  rewrite Hs, Hr, Hm, Hu. by rewrite <- app_assoc.
Qed.

(** C10, as the code has it. On a list without a [user] message [reload]
    returns [null] and changes nothing. On a list whose last [user]
    message [m] has a content that is not blank, [reload] cuts the list
    after [m] and pushes a new [user] message with a new id and the
    trimmed content of [m] (the same content when it was trimmed already,
    as it is when [append] pushed [m]);
    when the request succeeds, the assistant message comes right after
    these two. *)
Theorem reload_resubmits_last_user_message
    initialId initialMessages es options :
  (Forall (λ m, role m ≠ user)
          (messages (run es (init initialId initialMessages))) →
   reload_call options (run es (init initialId initialMessages))
   = (run es (init initialId initialMessages), Finished RetNull))
  ∧ (∀ before m after,
       messages (run es (init initialId initialMessages))
         = before ++ m :: after →
       role m = user →
       Forall (λ m', role m' ≠ user) after →
       Js.trim (content m) ≠ "" →
       ∃ st1,
         reload_call options (run es (init initialId initialMessages))
           = (st1, Awaiting (controllers (run es (init initialId initialMessages))))
         ∧ messages st1 =
             before
             ++ [m; userMessage
                      (uuidv4 (uuids (run es (init initialId initialMessages))))
                      (content m)]
         ∧ (Js.trim (content m) = content m
            ∨ (∃ submitted, content m = Js.trim submitted) →
            content (userMessage
                       (uuidv4 (uuids (run es (init initialId initialMessages))))
                       (content m)) = content m)
         ∧ ∀ data,
             messages (append_settle
                         (controllers (run es (init initialId initialMessages)))
                         (FetchOk data) st1).1 =
               before
               ++ [m; userMessage
                        (uuidv4 (uuids (run es (init initialId initialMessages))))
                        (content m);
                   assistantMessage
                     (uuidv4 (S (uuids (run es (init initialId initialMessages)))))
                     data]).
Proof.
  pose proof (inv_run es _ (inv_init initialId initialMessages)) as [Hwf _].
  set (st := run es (init initialId initialMessages)) in *.
  split.
  - intros Hno. unfold UseChat.reload_call.
    case_decide; [done|].
    rewrite lastUserMessageIndex_last_user.
    by rewrite (proj2 (last_user_None _) Hno).
  - intros before m after Hms Hm Hafter Hb.
    unfold UseChat.reload_call.
    case_decide as Hlen; [rewrite Hms, length_app in Hlen; simpl in Hlen; lia|].
    rewrite lastUserMessageIndex_last_user, Hms, (last_user_app _ _ _ Hm Hafter).
    rewrite list_lookup_middle by done.
    destruct (append_call_awaiting (content m) options
                (set_messages (λ _, take (length before + 1) (before ++ m :: after)) st) Hb)
      as (st1 & E & Hm1 & Hu & _ & _ & Ha & _).
    simpl in *. exists st1. split; [done|].
    assert (take (length before + 1) (before ++ m :: after) = before ++ [m]) as Ht.
    { rewrite take_app_ge by lia.
      replace (length before + 1 - length before) with 1 by lia. done. }
    rewrite Ht, <- app_assoc in Hm1. simpl in Hm1.
    split; [done|]. split.
    { intros [E'|[submitted E']]; [done|].
      rewrite E'. apply JsFacts.trim_idemp. }
    intros data.
    destruct (append_settle_success (controllers st) data st1) as [Hs _].
    { rewrite Ha. by apply (fresh_controller_not_aborted (set_messages _ st)). }
    rewrite Hs, Hm1, Hu, <- app_assoc. done.
Qed.

(** C9, as the code has it. In every state that a mounted hook reaches, at
    most one request is in flight with a signal that is not aborted. A new
    call of [append] is neither queued nor rejected: it aborts the request
    in flight, whose answer is then dropped, and issues its own request at
    once, which is then the only live one. *)
Theorem at_most_one_live_request initialId initialMessages es :
  length (live (run es (init initialId initialMessages))) ≤ 1
  ∧ ∀ content options,
      Js.trim content ≠ "" →
      (∃ r, live (step (run es (init initialId initialMessages))
                       (Append content options)) = [r]
            ∧ controller r = controllers (run es (init initialId initialMessages)))
      ∧ ∀ r data,
          r ∈ live (run es (init initialId initialMessages)) →
          controller r ∈
            aborted (step (run es (init initialId initialMessages))
                          (Append content options))
          ∧ ∀ st', controller r ∈ aborted st' →
                   messages (append_settle (controller r) (FetchOk data) st').1
                   = messages st'.
Proof.
  pose proof (inv_run es _ (inv_init initialId initialMessages)) as Hinv.
  set (st := run es (init initialId initialMessages)) in *.
  split.
  { destruct Hinv as [_ [->|(r & -> & _)]]; simpl; lia. }
  intros content options Hb. simpl.
  destruct (inv_append_call content options st Hinv) as [_ Hlive].
  split; [eexists; split; [by apply Hlive|done]|].
  intros r data Hr. split.
  - destruct (append_call_awaiting content options st Hb)
      as (st1 & E & _ & _ & _ & _ & Ha & _).
    rewrite E. simpl. rewrite Ha, aborted_abort_current.
    destruct Hinv as [_ [E0|(r0 & E0 & Href)]]; rewrite E0 in Hr.
    + by apply elem_of_nil in Hr.
    + apply list_elem_of_singleton in Hr as ->. rewrite Href.
      apply elem_of_union_l. by apply elem_of_singleton.
  - intros st' Hab. apply append_settle_failure. by left.
Qed.

End Facts.

(** C2, witness: a turn on a new chat whose request is rejected. *)
Lemma failed_or_cancelled_turn_witness :
  let st1 := (UseChat.append_call Examples.uuid no_options "hello" no_options
                Examples.fresh).1 in
  UseChat.append_call Examples.uuid no_options "hello" no_options
    Examples.fresh = (st1, Awaiting 1)
  ∧ messages st1 = [userMessage "id-0" "hello"]
  ∧ (failed (FetchRejected "timeout") →
     messages (UseChat.append_settle Examples.uuid 1 (FetchRejected "timeout") st1).1
       = messages st1
     ∧ (UseChat.append_settle Examples.uuid 1 (FetchRejected "timeout") st1).2
       = RetUndefined)
  ∧ messages (UseChat.append_settle Examples.uuid 1 (FetchRejected "timeout")
                (stop st1)).1 = messages st1
  ∧ (UseChat.append_settle Examples.uuid 1 (FetchRejected "timeout")
       (stop st1)).2 = RetUndefined.
Proof.
  intros st1. split; [reflexivity|].
  apply (failed_or_cancelled_turn_keeps_user_message Examples.uuid no_options
           Examples.fresh "hello" no_options st1 1 (FetchRejected "timeout")).
  reflexivity.
Defined.

(** C2, counterexample: after a turn whose request fails the list is not
    what it was before the call, it has gained the user message; the same
    holds for a turn cancelled with [stop]. *)
Lemma failed_turn_is_not_rolled_back :
  let st1 := (UseChat.append_call Examples.uuid no_options "hello" no_options
                Examples.fresh).1 in
  let failed_turn :=
    (UseChat.append_settle Examples.uuid 1 (FetchRejected "timeout") st1).1 in
  let cancelled_turn :=
    (UseChat.append_settle Examples.uuid 1 (FetchOk Examples.first_answer)
       (stop st1)).1 in
  messages Examples.fresh = []
  ∧ messages failed_turn ≠ messages Examples.fresh
  ∧ messages cancelled_turn ≠ messages Examples.fresh
  ∧ messages failed_turn =
      [{| id := "id-0"; role := user; content := "hello"; sources := Some [] |}]
  ∧ messages cancelled_turn = messages failed_turn.
Proof. vm_compute. repeat split; congruence. Qed.

(** C3, witness: a successful turn on a new chat. *)
Lemma successful_turn_witness :
  let st1 := (UseChat.append_call Examples.uuid no_options " hello " no_options
                Examples.fresh).1 in
  UseChat.append_call Examples.uuid no_options " hello " no_options
    Examples.fresh = (st1, Awaiting 1)
  ∧ messages (UseChat.append_settle Examples.uuid 1
                (FetchOk Examples.first_answer) st1).1 =
      [userMessage "id-0" " hello ";
       assistantMessage "id-1" Examples.first_answer]
  ∧ (UseChat.append_settle Examples.uuid 1
       (FetchOk Examples.first_answer) st1).2 = RetString "c-1".
Proof.
  intros st1. split; [reflexivity|].
  apply (successful_turn_appends_both_and_returns_id Examples.uuid no_options
           None [] [] " hello " no_options st1 1 Examples.first_answer).
  reflexivity.
Defined.

(** C3, counterexample: two successful turns whose answers and sources
    differ return the same value, so the value returned is not the triple
    of id, answer and sources; and the user message holds the trimmed
    text, not the text as submitted. *)
Lemma append_returns_the_id_alone :
  let st1 := (UseChat.append_call Examples.uuid no_options " hello " no_options
                Examples.fresh).1 in
  let one := UseChat.append_settle Examples.uuid 1
               (FetchOk Examples.first_answer) st1 in
  let other := UseChat.append_settle Examples.uuid 1
                 (FetchOk Examples.second_answer) st1 in
  one.2 = other.2
  ∧ one.2 = RetString "c-1"
  ∧ response Examples.first_answer ≠ response Examples.second_answer
  ∧ response_sources Examples.first_answer ≠ response_sources Examples.second_answer
  ∧ content <$> messages one.1 !! 0 = Some "hello"
  ∧ content <$> messages one.1 !! 0 ≠ Some " hello ".
Proof. vm_compute. repeat split; congruence. Qed.

(** C10, witness: a chat with a question and its reply. *)
Lemma reload_resubmits_witness :
  let st := UseChat.init (Some "c-1") [Examples.question; Examples.reply] in
  ∃ st1,
    UseChat.reload_call Examples.uuid no_options no_options st = (st1, Awaiting 1)
    ∧ messages st1 =
        [Examples.question; userMessage "id-0" "How do I configure Qdrant?"]
    ∧ messages (UseChat.append_settle Examples.uuid 1
                  (FetchOk Examples.first_answer) st1).1 =
        [Examples.question; userMessage "id-0" "How do I configure Qdrant?";
         assistantMessage "id-1" Examples.first_answer].
Proof.
  intros st.
  destruct (proj2 (reload_resubmits_last_user_message Examples.uuid no_options
                     (Some "c-1") [Examples.question; Examples.reply] []
                     no_options)
              [] Examples.question [Examples.reply])
    as (st1 & E & Hm & _ & Hs).
  - reflexivity.
  - reflexivity.
  - repeat constructor. by vm_compute.
  - by vm_compute.
  - exists st1. split; [exact E|]. split; [exact Hm|]. exact (Hs _).
Defined.

(** C10, counterexample: the list holds a [user] message, yet [reload]
    pushes no new message and sends nothing when that message is blank (it
    cuts the list and returns [null]); and when the message has spaces
    around it, the content of the new message is not the same. *)
Lemma reload_of_a_blank_or_padded_message :
  let blank := UseChat.init None [Examples.blank_question; Examples.reply] in
  let padded := UseChat.init None [Examples.padded_question; Examples.reply] in
  role Examples.blank_question = user
  ∧ (UseChat.reload_call Examples.uuid no_options no_options blank).2
    = Finished RetNull
  ∧ messages (UseChat.reload_call Examples.uuid no_options no_options blank).1
    = [Examples.blank_question]
  ∧ in_flight (UseChat.reload_call Examples.uuid no_options no_options blank).1
    = []
  ∧ (content <$> messages (UseChat.reload_call Examples.uuid no_options
                             no_options padded).1) = [" How? "; "How?"].
Proof. vm_compute. repeat split. Qed.

(** C9, witness: a second [append] while the first is in flight. *)
Lemma at_most_one_live_request_witness :
  let st := UseChat.run Examples.uuid no_options [Append "first" no_options]
              Examples.fresh in
  length (live st) ≤ 1
  ∧ ∃ r, live (UseChat.step Examples.uuid no_options st
                 (Append "second" no_options)) = [r]
         ∧ controller r = 2.
Proof.
  intros st.
  destruct (at_most_one_live_request Examples.uuid no_options None []
              [Append "first" no_options]) as [H1 H2].
  split; [exact H1|].
  destruct (H2 "second" no_options) as [H3 _]; [by vm_compute|].
  exact H3.
Defined.

(** C9, counterexample: a second [append] while the first request is in
    flight is not rejected (it returns no busy value and suspends on its
    own request) and is not queued (its request is issued while the first
    has not settled); the first request is aborted instead, and its answer,
    when it comes, is dropped. *)
Lemma second_append_preempts_the_first :
  let st1 := UseChat.run Examples.uuid no_options [Append "first" no_options]
               Examples.fresh in
  let second := UseChat.append_call Examples.uuid no_options "second"
                  no_options st1 in
  (controller <$> live st1) = [1]
  ∧ second.2 = Awaiting 2
  ∧ (controller <$> in_flight second.1) = [1; 2]
  ∧ (controller <$> live second.1) = [2]
  ∧ 1 ∈ aborted second.1
  ∧ (content <$> messages (UseChat.append_settle Examples.uuid 1
                             (FetchOk Examples.first_answer) second.1).1)
    = ["first"; "second"].
Proof.
  cbv zeta. split_and!; vm_compute; reflexivity.
Qed.

End UseChatFacts.

(** ** The chat route *)

Module RouteFacts.
Import Route.

Lemma as_string_array_to_json xs :
  as_string_array (string_array_to_json xs) = Some xs.
Proof.
  unfold as_string_array, string_array_to_json. by apply mapM_fmap_Some.
Qed.

Lemma string_min1_nonempty m : m ≠ "" → string_min1 (JString m) = Some m.
Proof.
  intros H. unfold string_min1. simpl. case_decide as Hl; [done|].
  destruct m; [done|]. simpl in Hl. lia.
Qed.

(** The schema accepts what [JSON.stringify] makes of a request whose
    message is not empty, and gives the request back. *)
Lemma chatRequestSchema_to_json r :
  message r ≠ "" →
  chatRequestSchema (ChatRequest_to_json r) = Some r
  ∧ truthy (member "message" (ChatRequest_to_json r)) = true.
Proof.
  intros Hm. destruct r as [m c t g]. simpl in Hm.
  pose proof (string_min1_nonempty m Hm) as Hs.
  pose proof (proj2 (UseChatFacts.truthy_true m) Hm) as Ht.
  unfold chatRequestSchema, ChatRequest_to_json.
  destruct c as [c|], t as [t|], g as [g|]; simpl;
    rewrite ?Hs, ?Ht; simpl; rewrite ?mapM_fmap_Some by done; done.
Qed.

Section Facts.

Variable zod_issues : Json → Json.
Variable backend : ChatRequest → BackendResult.


End Facts.



End RouteFacts.

(** ** Lists *)

Module ListFacts.

Section Filter.

Context {A : Type}.

Lemma filter_ext_in (P Q : A → Prop)
    `{!∀ x, Decision (P x), !∀ x, Decision (Q x)}
    (l : list A) :
  (∀ x, x ∈ l → (P x ↔ Q x)) → filter P l = filter Q l.
Proof.
  induction l as [|a l IH]; intros Hext; [done|].
  rewrite !filter_cons, IH by (intros; apply Hext; by right).
  apply decide_ext, Hext. by left.
Qed.



Lemma length_filter_Forall (P : A → Prop) `{!∀ x, Decision (P x)} (l : list A) :
  Forall P l → length (filter P l) = length l.
Proof.
  induction 1 as [|x l Hx Hl IH]; [done|].
  rewrite filter_cons_True by done. simpl. by rewrite IH.
Qed.




End Filter.

(** Ranked lists: the first [k] of a sorted list, and the first [k] of the
    merge of the first [k] of several sorted lists. *)
Section TopK.

Context {A : Type} (R : relation A).
Context `{!RelDecision R, !Transitive R, !Total R}.




End TopK.

End ListFacts.

(** ** The indexing and retrieval core *)

Module CoreFacts.
Import Core.

(** *** The ranking order *)

Lemma tie_le_total a b : tie_le a b ∨ tie_le b a.
Proof.
  unfold tie_le.
  destruct (decide (chunk_technology a = chunk_technology b)) as [E|Hne].
  - destruct (le_ge_dec (position a) (position b)); [left|right]; right; split;
      try done; lia.
  - destruct (total String.le (chunk_technology a) (chunk_technology b));
      [left|right]; left; split; try done; congruence.
Qed.

Lemma tie_le_trans a b c : tie_le a b → tie_le b c → tie_le a c.
Proof.
  unfold tie_le.
  intros [[Hab Lab]|[Eab Pab]] [[Hbc Lbc]|[Ebc Pbc]].
  - left. split; [|by transitivity (chunk_technology b)].
    intros E. rewrite <- E in Lbc. apply Hab. by apply (anti_symm String.le).
  - left. rewrite <- Ebc. done.
  - left. rewrite Eab. done.
  - right. split; [congruence|lia].
Qed.

#[global] Instance ranks_before_total : Total ranks_before.
Proof.
  intros a b. unfold ranks_before.
  destruct (Z.lt_trichotomy (hit_score a) (hit_score b)) as [?|[E|?]].
  - right. by left.
  - destruct (tie_le_total (hit_chunk a) (hit_chunk b)); [left|right]; right;
      split; done.
  - left. by left.
Qed.

#[global] Instance ranks_before_trans : Transitive ranks_before.
Proof.
  intros a b c. unfold ranks_before.
  intros [Hab|[Eab Tab]] [Hbc|[Ebc Tbc]].
  - left. lia.
  - left. lia.
  - left. lia.
  - right. split; [lia|]. by eapply tie_le_trans.
Qed.


Section Facts.

Context {vector : Type}.
Variable hash : string → N.
Variable embed : string → vector.
Variable similarity : vector → vector → Z.
Variable split : string → option (list (string * string)).
Variable category_of : doc_id → string → string.

Abbreviation Record_ := (@EmbeddingRecord vector).
Abbreviation Store_ := (@Store vector).
Abbreviation parse := (Core.parse split category_of).
Abbreviation needs_embedding := (Core.needs_embedding (vector:=vector) hash).
Abbreviation embed_chunk := (Core.embed_chunk hash embed).
Abbreviation upsert_stale := (Core.upsert_stale hash embed).
Abbreviation apply_document := (Core.apply_document hash embed split category_of).
Abbreviation apply_scanned := (Core.apply_scanned hash embed split category_of).
Abbreviation apply := (Core.apply hash embed split category_of).
Abbreviation track := (Core.track hash).
Abbreviation index_pass := (Core.index_pass hash embed split category_of).
Abbreviation embedded_by_pass := (Core.embedded_by_pass hash embed split category_of).
Abbreviation search := (Core.search embed similarity).
Abbreviation run_applies := (Core.run_applies hash embed split category_of).

(** *** The document processor *)

Lemma parse_lookup d content chunks i c :
  parse d content = Some chunks → chunks !! i = Some c →
  chunk_doc c = d ∧ ordinal c = i ∧ chunk_technology c = d.1.
Proof.
  unfold Core.parse. destruct (split content) as [pieces|]; [|done].
  simpl. intros [= <-]. rewrite list_lookup_imap.
  destruct (pieces !! i); [|done]. simpl. by intros [= <-].
Qed.

Lemma parse_id_of d content chunks i c :
  parse d content = Some chunks → chunks !! i = Some c → id_of c = (d, i).
Proof.
  intros Hp Hc. destruct (parse_lookup _ _ _ _ _ Hp Hc) as (Hd & Ho & _).
  unfold id_of. by rewrite Hd, Ho.
Qed.

Lemma parse_elem_of d content chunks c :
  parse d content = Some chunks → c ∈ chunks → (id_of c).1 = d.
Proof.
  intros Hp [i Hi]%list_elem_of_lookup.
  by rewrite (parse_id_of _ _ _ _ _ Hp Hi).
Qed.

Lemma parse_NoDup d content chunks :
  parse d content = Some chunks → NoDup (id_of <$> chunks).
Proof.
  intros Hp. apply NoDup_alt. intros i j id Hi Hj.
  rewrite list_lookup_fmap in Hi, Hj.
  apply fmap_Some in Hi as (ci & Ei & Hi). apply fmap_Some in Hj as (cj & Ej & Hj).
  rewrite (parse_id_of _ _ _ _ _ Hp Ei) in Hi.
  rewrite (parse_id_of _ _ _ _ _ Hp Ej) in Hj. congruence.
Qed.

(** *** The index mutations of one document *)

Lemma delete_all_lookup (ids : gset chunk_id) (idx : gmap chunk_id Record_) id :
  delete_all ids idx !! id = if decide (id ∈ ids) then None else idx !! id.
Proof.
  unfold delete_all. rewrite map_lookup_filter.
  destruct (idx !! id) as [r|]; simpl; [|by case_decide].
  case_decide; by rewrite ?option_guard_True, ?option_guard_False by auto.
Qed.

Lemma upsert_stale_lookup_ne (il : gmap chunk_id Record_ * list chunk_id) c id :
  id ≠ id_of c → (upsert_stale il c).1 !! id = il.1 !! id.
Proof.
  intros Hne. unfold Core.upsert_stale.
  destruct (needs_embedding il.1 c); [|done].
  simpl. by rewrite lookup_insert_ne.
Qed.

Lemma upsert_fold_lookup_ne (chunks : list Chunk)
    (il : gmap chunk_id Record_ * list chunk_id) id :
  id ∉ id_of <$> chunks → (foldl upsert_stale il chunks).1 !! id = il.1 !! id.
Proof.
  revert il. induction chunks as [|c chunks IH]; intros il Hid; [done|].
  rewrite fmap_cons, not_elem_of_cons in Hid. destruct Hid as [Hne Hid].
  simpl. rewrite IH by done. by apply upsert_stale_lookup_ne.
Qed.

Lemma needs_embedding_ext (idx idx' : gmap chunk_id Record_) c :
  idx' !! id_of c = idx !! id_of c → needs_embedding idx' c = needs_embedding idx c.
Proof. unfold Core.needs_embedding. by intros ->. Qed.

(** After the fold, a chunk of the document has the record embedded for
    it when it was stale or new, and its old record otherwise. *)
Lemma upsert_fold_lookup (chunks : list Chunk)
    (il : gmap chunk_id Record_ * list chunk_id) c :
  NoDup (id_of <$> chunks) → c ∈ chunks →
  (foldl upsert_stale il chunks).1 !! id_of c =
    if needs_embedding il.1 c then Some (embed_chunk c) else il.1 !! id_of c.
Proof.
  revert il. induction chunks as [|c0 chunks IH]; intros il Hnd Hc.
  { by apply elem_of_nil in Hc. }
  rewrite fmap_cons in Hnd. apply NoDup_cons in Hnd as [Hc0 Hnd].
  simpl. apply elem_of_cons in Hc as [->|Hc].
  - rewrite upsert_fold_lookup_ne by done.
    unfold Core.upsert_stale. destruct (needs_embedding il.1 c0); [|done].
    simpl. by rewrite lookup_insert_eq.
  - assert (id_of c ≠ id_of c0) as Hne.
    { intros E. apply Hc0. rewrite <- E. by apply list_elem_of_fmap_2. }
    rewrite IH by done.
    rewrite (needs_embedding_ext il.1) by by apply upsert_stale_lookup_ne.
    destruct (needs_embedding il.1 c); [done|].
    by apply upsert_stale_lookup_ne.
Qed.

(** The log grows by the chunks that needed an embedding, in order. *)
Lemma upsert_fold_log (chunks : list Chunk)
    (il : gmap chunk_id Record_ * list chunk_id) :
  NoDup (id_of <$> chunks) →
  (foldl upsert_stale il chunks).2 =
    il.2 ++ (id_of <$> filter (λ c, needs_embedding il.1 c = true) chunks).
Proof.
  revert il. induction chunks as [|c0 chunks IH]; intros il Hnd.
  { simpl. by rewrite app_nil_r. }
  rewrite fmap_cons in Hnd. apply NoDup_cons in Hnd as [Hc0 Hnd].
  simpl. rewrite IH by done.
  assert (filter (λ c, needs_embedding (upsert_stale il c0).1 c = true) chunks
          = filter (λ c, needs_embedding il.1 c = true) chunks) as ->.
  { apply ListFacts.filter_ext_in. intros c Hc.
    rewrite (needs_embedding_ext il.1); [done|].
    apply upsert_stale_lookup_ne. intros E. apply Hc0. rewrite <- E.
    by apply list_elem_of_fmap_2. }
  rewrite filter_cons. unfold Core.upsert_stale at 1.
  destruct (needs_embedding il.1 c0) eqn:E; simpl; [|done].
  by rewrite <- app_assoc.
Qed.

Lemma upsert_fold_hash (chunks : list Chunk)
    (il : gmap chunk_id Record_ * list chunk_id) c :
  NoDup (id_of <$> chunks) → c ∈ chunks →
  ∃ r, (foldl upsert_stale il chunks).1 !! id_of c = Some r
       ∧ record_hash r = hash (text c).
Proof.
  intros Hnd Hc. rewrite upsert_fold_lookup by done.
  unfold Core.needs_embedding.
  destruct (il.1 !! id_of c) as [r|] eqn:E; simpl; [|by eexists].
  case_bool_decide; simpl; by eexists.
Qed.

(** *** The apply of one document *)

Lemma chunk_ids_of_elem_of (st : Store_) d id :
  consistent st → id ∈ chunk_ids_of (manifest st) d →
  id.1 = d ∧ is_Some (index st !! id).
Proof.
  intros [Hm _]. unfold chunk_ids_of.
  destruct (manifest st !! d) as [e|] eqn:E; [|by intros ?%elem_of_empty].
  by apply Hm.
Qed.

Lemma apply_document_skip d content (sl : Store_ * list chunk_id) :
  parse d content = None → apply_document d content sl = sl.
Proof. unfold Core.apply_document. by intros ->. Qed.

Lemma apply_document_parsed d content (sl : Store_ * list chunk_id) chunks :
  parse d content = Some chunks →
  manifest (apply_document d content sl).1 =
    <[d := (hash content, list_to_set (id_of <$> chunks))]> (manifest sl.1)
  ∧ (∀ id, index (apply_document d content sl).1 !! id =
           if decide (id ∈ chunk_ids_of (manifest sl.1) d
                           ∖ list_to_set (id_of <$> chunks))
           then None
           else (foldl upsert_stale (index sl.1, sl.2) chunks).1 !! id)
  ∧ (apply_document d content sl).2 =
      sl.2 ++ (id_of <$> filter (λ c, needs_embedding (index sl.1) c = true) chunks).
Proof.
  intros Hp. unfold Core.apply_document. rewrite Hp. simpl.
  split; [done|]. split.
  - intros id. apply delete_all_lookup.
  - rewrite upsert_fold_log by by eapply parse_NoDup. done.
Qed.


(** The apply of a document leaves the records of every other document
    alone. *)
Lemma apply_document_index_ne d content (sl : Store_ * list chunk_id) id :
  consistent sl.1 → id.1 ≠ d →
  index (apply_document d content sl).1 !! id = index sl.1 !! id.
Proof.
  intros Hc Hne. destruct (parse d content) as [chunks|] eqn:Hp.
  - destruct (apply_document_parsed d content sl chunks Hp) as (_ & -> & _).
    rewrite decide_False.
    + apply upsert_fold_lookup_ne. intros (c & -> & Hin)%list_elem_of_fmap.
      by rewrite (parse_elem_of _ _ _ _ Hp Hin) in Hne.
    + intros [Hin _]%elem_of_difference.
      by destruct (chunk_ids_of_elem_of _ _ _ Hc Hin).
  - by rewrite apply_document_skip.
Qed.

Lemma consistent_apply_document d content (sl : Store_ * list chunk_id) :
  consistent sl.1 → consistent (apply_document d content sl).1.
Proof.
  intros Hc. destruct (parse d content) as [chunks|] eqn:Hp;
    [|by rewrite apply_document_skip].
  destruct (apply_document_parsed d content sl chunks Hp) as (Hm & Hi & _).
  pose proof (parse_NoDup _ _ _ Hp) as Hnd.
  split.
  - intros d' e id He Hid. rewrite Hm in He.
    destruct (decide (d' = d)) as [->|Hne].
    + rewrite lookup_insert_eq in He. injection He as <-. simpl in Hid.
      apply elem_of_list_to_set, list_elem_of_fmap in Hid as (c & -> & Hin).
      split; [by eapply parse_elem_of|].
      rewrite Hi, decide_False.
      * destruct (upsert_fold_hash chunks (index sl.1, sl.2) c Hnd Hin)
          as (r & -> & _). by eexists.
      * intros [_ Hn]%elem_of_difference. apply Hn.
        by apply elem_of_list_to_set, list_elem_of_fmap_2.
    + rewrite lookup_insert_ne in He by done.
      destruct (proj1 Hc d' e id He Hid) as [Hd Hs]. split; [done|].
      rewrite apply_document_index_ne; [done..|]. by rewrite Hd.
  - intros id r Hr. rewrite Hi in Hr. case_decide as Hdel; [done|].
    destruct (decide (id ∈ id_of <$> chunks)) as [Hin|Hnin].
    + apply list_elem_of_fmap in Hin as (c & -> & Hin).
      rewrite (parse_elem_of _ _ _ _ Hp Hin), Hm, lookup_insert_eq.
      eexists. split; [done|]. simpl.
      by apply elem_of_list_to_set, list_elem_of_fmap_2.
    + rewrite upsert_fold_lookup_ne in Hr by done. simpl in Hr.
      destruct (proj2 Hc id r Hr) as (e & He & Hid).
      destruct (decide (id.1 = d)) as [Hd|Hne].
      * exfalso. apply Hdel, elem_of_difference. split.
        -- unfold chunk_ids_of. by rewrite <- Hd, He.
        -- by rewrite elem_of_list_to_set.
      * exists e. by rewrite Hm, lookup_insert_ne.
Qed.

(** *** The apply of a deleted document *)

Lemma delete_document_manifest (st : Store_) d d' :
  manifest (delete_document st d) !! d' =
    if decide (d = d') then None else manifest st !! d'.
Proof. unfold delete_document. simpl. apply lookup_delete. Qed.

Lemma delete_document_index (st : Store_) d id :
  consistent st →
  index (delete_document st d) !! id =
    if decide (id.1 = d) then None else index st !! id.
Proof.
  intros Hc. unfold delete_document. simpl. rewrite delete_all_lookup.
  case_decide as Hin; case_decide as Hd; try done.
  - by destruct (chunk_ids_of_elem_of _ _ _ Hc Hin).
  - destruct (index st !! id) as [r|] eqn:Hr; [|done].
    destruct (proj2 Hc id r Hr) as (e & He & Hid).
    exfalso. apply Hin. unfold chunk_ids_of. by rewrite <- Hd, He.
Qed.

Lemma consistent_delete_document (st : Store_) d :
  consistent st → consistent (delete_document st d).
Proof.
  intros Hc. split.
  - intros d' e id He Hid. rewrite delete_document_manifest in He.
    case_decide as Hne; [done|].
    destruct (proj1 Hc d' e id He Hid) as [Hd Hs]. split; [done|].
    rewrite delete_document_index by done. rewrite decide_False; [done|].
    by rewrite Hd.
  - intros id r Hr. rewrite delete_document_index in Hr by done.
    case_decide as Hd; [done|].
    destruct (proj2 Hc id r Hr) as (e & He & Hid). exists e.
    rewrite delete_document_manifest. by rewrite decide_False by done.
Qed.

(** *** The apply of a partition *)

Lemma consistent_empty : consistent (empty_store (vector:=vector)).
Proof. split; intros *; simpl; by rewrite lookup_empty. Qed.

Lemma consistent_apply_scanned (scan : gmap doc_id string)
    (sl : Store_ * list chunk_id) d :
  consistent sl.1 → consistent (apply_scanned scan sl d).1.
Proof.
  intros Hc. unfold Core.apply_scanned. destruct (scan !! d); [|done].
  by apply consistent_apply_document.
Qed.

Lemma consistent_fold_apply (scan : gmap doc_id string)
    (ds : list doc_id) (sl : Store_ * list chunk_id) :
  consistent sl.1 → consistent (foldl (apply_scanned scan) sl ds).1.
Proof.
  revert sl. induction ds as [|d ds IH]; intros sl Hc; [done|].
  simpl. by apply IH, consistent_apply_scanned.
Qed.

Lemma consistent_fold_delete (ds : list doc_id) (st : Store_) :
  consistent st → consistent (foldl delete_document st ds).
Proof.
  revert st. induction ds as [|d ds IH]; intros st Hc; [done|].
  simpl. by apply IH, consistent_delete_document.
Qed.

Lemma consistent_apply (p : Partition)
    (scan : gmap doc_id string) (st : Store_) :
  consistent st → consistent (apply p scan st).1.
Proof.
  intros Hc. unfold Core.apply.
  by apply consistent_fold_apply, consistent_fold_delete.
Qed.

Lemma consistent_run_applies (calls : list (Partition * gmap doc_id string)) :
  consistent (run_applies calls).
Proof.
  unfold Core.run_applies.
  assert (∀ st : Store_, consistent st →
            consistent (foldl (λ st ps, (apply ps.1 ps.2 st).1) st calls))
    as Hall.
  { induction calls as [|ps calls IH]; intros st Hc; [done|].
    simpl. by apply IH, consistent_apply. }
  apply Hall, consistent_empty.
Qed.

(** *** The Change Tracker *)

Lemma elem_of_added (m : gmap doc_id (N * gset chunk_id))
    (scan : gmap doc_id string) d :
  d ∈ added (track m scan) ↔
  ∃ content, scan !! d = Some content ∧ recorded_hash m d = None.
Proof.
  unfold Core.track. simpl. rewrite elem_of_dom. split.
  - intros [content [Hs Hr]%map_lookup_filter_Some]. by exists content.
  - intros (content & Hs & Hr). exists content.
    by apply map_lookup_filter_Some.
Qed.

Lemma elem_of_modified (m : gmap doc_id (N * gset chunk_id))
    (scan : gmap doc_id string) d :
  d ∈ modified (track m scan) ↔
  ∃ content, scan !! d = Some content
             ∧ is_Some (recorded_hash m d)
             ∧ recorded_hash m d ≠ Some (hash content).
Proof.
  unfold Core.track. simpl. rewrite elem_of_dom. split.
  - intros [content [Hs Hr]%map_lookup_filter_Some]. by exists content.
  - intros (content & Hs & Hr). exists content.
    by apply map_lookup_filter_Some.
Qed.

Lemma elem_of_deleted (m : gmap doc_id (N * gset chunk_id))
    (scan : gmap doc_id string) d :
  d ∈ deleted (track m scan) ↔ is_Some (m !! d) ∧ scan !! d = None.
Proof.
  unfold Core.track. simpl.
  by rewrite elem_of_difference, !elem_of_dom, eq_None_not_Some.
Qed.

Lemma elem_of_changed (m : gmap doc_id (N * gset chunk_id))
    (scan : gmap doc_id string) d :
  d ∈ added (track m scan) ∪ modified (track m scan) ↔
  ∃ content, scan !! d = Some content ∧ recorded_hash m d ≠ Some (hash content).
Proof.
  rewrite elem_of_union, elem_of_added, elem_of_modified. split.
  - intros [(content & Hs & Hr)|(content & Hs & _ & Hr)]; exists content.
    + split; [done|]. by rewrite Hr.
    + done.
  - intros (content & Hs & Hr).
    destruct (recorded_hash m d) as [h|] eqn:E.
    + right. exists content. split; [done|]. split; [by eexists|done].
    + left. by exists content.
Qed.

(** *** Frames of the folds *)

Lemma fold_apply_index_ne (scan : gmap doc_id string)
    (ds : list doc_id) (sl : Store_ * list chunk_id) id :
  consistent sl.1 → id.1 ∉ ds →
  index (foldl (apply_scanned scan) sl ds).1 !! id = index sl.1 !! id.
Proof.
  revert sl. induction ds as [|d ds IH]; intros sl Hc Hid; [done|].
  apply not_elem_of_cons in Hid as [Hne Hid]. simpl.
  rewrite IH by (by try apply consistent_apply_scanned).
  unfold Core.apply_scanned. destruct (scan !! d); [|done].
  by apply apply_document_index_ne.
Qed.



Lemma fold_delete_index_ne (ds : list doc_id) (st : Store_) id :
  consistent st → id.1 ∉ ds →
  index (foldl delete_document st ds) !! id = index st !! id.
Proof.
  revert st. induction ds as [|d ds IH]; intros st Hc Hid; [done|].
  apply not_elem_of_cons in Hid as [Hne Hid]. simpl.
  rewrite IH by (by try apply consistent_delete_document).
  rewrite delete_document_index by done. by rewrite decide_False.
Qed.

(** *** Incremental re-indexing *)

Lemma needs_embedding_true (idx : gmap chunk_id Record_) c :
  needs_embedding idx c = true ↔
  ¬ ∃ r, idx !! id_of c = Some r ∧ record_hash r = hash (text c).
Proof.
  unfold Core.needs_embedding. destruct (idx !! id_of c) as [r|].
  - rewrite negb_true_iff, bool_decide_eq_false. split.
    + intros Hne (r' & [= <-] & Hh). done.
    + intros Hn Hh. apply Hn. by exists r.
  - split; [|done]. by intros _ (r' & ? & _).
Qed.

Lemma apply_document_keeps d content (sl : Store_ * list chunk_id) chunks c r :
  parse d content = Some chunks → c ∈ chunks →
  index sl.1 !! id_of c = Some r → record_hash r = hash (text c) →
  index (apply_document d content sl).1 !! id_of c = Some r.
Proof.
  intros Hp Hin Hr Hh.
  destruct (apply_document_parsed d content sl chunks Hp) as (_ & -> & _).
  rewrite decide_False.
  - rewrite upsert_fold_lookup by (by try eapply parse_NoDup). simpl.
    destruct (needs_embedding (index sl.1) c) eqn:E; [|done].
    apply needs_embedding_true in E. destruct E. by exists r.
  - intros [_ Hn]%elem_of_difference. apply Hn.
    by apply elem_of_list_to_set, list_elem_of_fmap_2.
Qed.

(** A record whose chunk comes out of the new parse with the same hash
    survives the fold over the documents. *)
Lemma fold_apply_keeps (scan : gmap doc_id string)
    (ds : list doc_id) (sl : Store_ * list chunk_id) id r :
  consistent sl.1 → NoDup ds →
  index sl.1 !! id = Some r →
  (∀ content chunks,
     scan !! id.1 = Some content → parse id.1 content = Some chunks →
     ∃ c, c ∈ chunks ∧ id_of c = id ∧ record_hash r = hash (text c)) →
  index (foldl (apply_scanned scan) sl ds).1 !! id = Some r.
Proof.
  intros Hc Hnd Hr Hsame. revert sl Hc Hr.
  induction ds as [|d ds IH]; intros sl Hc Hr; [done|].
  apply NoDup_cons in Hnd as [Hd Hnd]. simpl.
  apply IH; [done|by apply consistent_apply_scanned|].
  unfold Core.apply_scanned. destruct (scan !! d) as [content|] eqn:Hs; [|done].
  destruct (decide (id.1 = d)) as [<-|Hne].
  - destruct (parse id.1 content) as [chunks|] eqn:Hp;
      [|by rewrite apply_document_skip].
    destruct (Hsame content chunks Hs Hp) as (c & Hin & <- & Hh).
    by eapply apply_document_keeps.
  - by rewrite apply_document_index_ne.
Qed.

(** What the fold logs are chunks of its documents that needed an
    embedding in the index the fold started from. *)
Lemma fold_apply_log (scan : gmap doc_id string)
    (idx0 : gmap chunk_id Record_) (P : chunk_id → Prop)
    (ds : list doc_id) (sl : Store_ * list chunk_id) :
  (∀ d content chunks c,
     d ∈ ds → scan !! d = Some content → parse d content = Some chunks →
     c ∈ chunks → needs_embedding idx0 c = true → P (id_of c)) →
  consistent sl.1 → NoDup ds →
  (∀ id, id.1 ∈ ds → index sl.1 !! id = idx0 !! id) →
  Forall P sl.2 →
  Forall P (foldl (apply_scanned scan) sl ds).2.
Proof.
  revert sl. induction ds as [|d ds IH]; intros sl HP Hc Hnd Hidx Hlog; [done|].
  apply NoDup_cons in Hnd as [Hd Hnd]. simpl. apply IH.
  - intros d' content chunks c Hd'. apply HP. by right.
  - by apply consistent_apply_scanned.
  - done.
  - intros id Hid. rewrite <- Hidx by by right.
    unfold Core.apply_scanned. destruct (scan !! d); [|done].
    apply apply_document_index_ne; [done|]. intros E. by rewrite E in Hid.
  - unfold Core.apply_scanned. destruct (scan !! d) as [content|] eqn:Hs; [|done].
    destruct (parse d content) as [chunks|] eqn:Hp;
      [|by rewrite apply_document_skip].
    destruct (apply_document_parsed d content sl chunks Hp) as (_ & _ & ->).
    apply Forall_app. split; [done|]. apply Forall_fmap, Forall_forall.
    intros c [Hn Hin]%list_elem_of_filter. simpl.
    apply (HP d content chunks c); [by left|done..|].
    rewrite <- Hn. apply needs_embedding_ext. symmetry. apply Hidx.
    rewrite (parse_elem_of _ _ _ _ Hp Hin). by left.
Qed.

Lemma changed_not_deleted (m : gmap doc_id (N * gset chunk_id))
    (scan : gmap doc_id string) (d : doc_id) :
  d ∈ added (track m scan) ∪ modified (track m scan) →
  d ∉ deleted (track m scan).
Proof.
  intros (content & Hs & _)%elem_of_changed [_ Hn]%elem_of_deleted. congruence.
Qed.

(** C6. In an indexing pass over a store reached by apply calls, every
    chunk id that is embedded belongs to an added or modified document and
    is a chunk of its new parse that was not present with a matching
    content hash. The record of a chunk id whose chunk comes out of the new
    parse with the same hash is left as it was, vector and hash, and so is
    every record of a document that the pass does not touch. *)
Theorem reindexing_is_incremental
    (calls : list (Partition * gmap doc_id string)) (scan : gmap doc_id string) :
  (∀ id, id ∈ embedded_by_pass scan (run_applies calls) →
     id.1 ∈ added (track (manifest (run_applies calls)) scan)
            ∪ modified (track (manifest (run_applies calls)) scan)
     ∧ ∃ content chunks c,
         scan !! id.1 = Some content ∧ parse id.1 content = Some chunks
         ∧ c ∈ chunks ∧ id_of c = id
         ∧ ¬ ∃ r, index (run_applies calls) !! id = Some r
                  ∧ record_hash r = hash (text c))
  ∧ (∀ id r content chunks c,
       index (run_applies calls) !! id = Some r →
       scan !! id.1 = Some content → parse id.1 content = Some chunks →
       c ∈ chunks → id_of c = id → record_hash r = hash (text c) →
       index (index_pass scan (run_applies calls)) !! id = Some r)
  ∧ (∀ id,
       id.1 ∉ added (track (manifest (run_applies calls)) scan)
              ∪ modified (track (manifest (run_applies calls)) scan)
              ∪ deleted (track (manifest (run_applies calls)) scan) →
       index (index_pass scan (run_applies calls)) !! id
       = index (run_applies calls) !! id).
Proof.
  pose proof (consistent_run_applies calls) as Hc.
  set (st := run_applies calls) in *.
  unfold Core.index_pass, Core.embedded_by_pass, Core.apply.
  set (p := track (manifest st) scan).
  set (st_del := foldl delete_document st (elements (deleted p))).
  set (ds := elements (added p ∪ modified p)).
  assert (consistent st_del) as Hcd by by apply consistent_fold_delete.
  assert (∀ id, id.1 ∉ deleted p → index st_del !! id = index st !! id) as Hdel.
  { intros id Hid. apply fold_delete_index_ne; [done|].
    by rewrite elem_of_elements. }
  assert (NoDup ds) as Hnd by apply NoDup_elements.
  assert (∀ d, d ∈ ds → d ∉ deleted p) as Hds.
  { intros d Hd%elem_of_elements. by apply changed_not_deleted. }
  split; [|split].
  - apply Forall_forall.
    apply (fold_apply_log scan (index st)); cbn [fst snd]; [|done|done| |done].
    + intros d content chunks c Hd Hs Hp Hin Hn.
      pose proof (parse_elem_of _ _ _ _ Hp Hin) as Hid. rewrite Hid.
      split; [by apply elem_of_elements|].
      exists content, chunks, c. repeat (split; [done|]).
      by apply needs_embedding_true.
    + intros id Hid. by apply Hdel, Hds.
  - intros id r content chunks c Hr Hs Hp Hin Hid Hh.
    apply fold_apply_keeps; cbn [fst snd]; [done|done| |].
    + rewrite Hdel; [done|]. intros [_ Hn]%elem_of_deleted. congruence.
    + intros content' chunks' Hs' Hp'.
      rewrite Hs in Hs'. injection Hs' as <-.
      rewrite Hp in Hp'. injection Hp' as <-. by exists c.
  - intros id Hid. rewrite !not_elem_of_union in Hid.
    destruct Hid as [[Ha Hm] Hd].
    rewrite fold_apply_index_ne; cbn [fst snd]; [by apply Hdel|done|].
    unfold ds. rewrite elem_of_elements, not_elem_of_union. done.
Qed.

(** *** Idempotence *)





(** *** Retrieval *)




(** *** Synthesis *)

(** C4. Every source that [synthesize] returns with an answer is one of
    the retrieved chunks it was given, and they come in the order in which
    they were retrieved. *)
Theorem sources_used_are_retrieved
    (generate : string → list Turn → option string)
    (surfaces : string → Hit → bool)
    query_text history (retrieved_chunks : list Hit) answer_text sources_used :
  synthesize generate surfaces query_text history retrieved_chunks
    = Some (answer_text, sources_used) →
  (∀ s, s ∈ sources_used → s ∈ retrieved_chunks)
  ∧ sources_used `sublist_of` retrieved_chunks.
Proof.
  unfold synthesize. destruct (generate _ history) as [a|]; [|done].
  simpl. intros [= <- <-]. split.
  - by intros s [_ Hs]%list_elem_of_filter.
  - apply sublist_filter.
Qed.



End Facts.

(** C4, witness: the sources of an answer over three retrieved chunks. *)
Lemma sources_used_witness :
  let retrieved :=
    Core.search Examples.embed Examples.similarity Examples.indexed "intro"
      Examples.no_filter 3 in
  ∃ answer_text sources_used,
    synthesize Examples.generate Examples.surfaces "intro" [] retrieved
      = Some (answer_text, sources_used)
    ∧ (∀ s, s ∈ sources_used → s ∈ retrieved)
    ∧ sources_used `sublist_of` retrieved.
Proof.
  intros retrieved. eexists _, _. split; [vm_compute; reflexivity|].
  eapply (sources_used_are_retrieved Examples.generate Examples.surfaces
            "intro" [] retrieved).
  vm_compute. reflexivity.
Defined.


(** C6, witness: after the first section of one document is edited, the
    pass embeds the chunk of that section and nothing else; the record of
    its second section and the record of the other document stay. *)
Lemma reindexing_is_incremental_witness :
  Core.embedded_by_pass Examples.hash Examples.embed Examples.split
    Examples.category_of Examples.edited_corpus Examples.indexed
  = [(Examples.doc_a, 0)]
  ∧ index (Examples.index_pass Examples.edited_corpus Examples.indexed)
      !! (Examples.doc_a, 1) = Some Examples.scaling_record
  ∧ index (Examples.index_pass Examples.edited_corpus Examples.indexed)
      !! (Examples.doc_b, 0) = index Examples.indexed !! (Examples.doc_b, 0).
Proof.
  destruct (reindexing_is_incremental Examples.hash Examples.embed
              Examples.split Examples.category_of Examples.first_pass
              Examples.edited_corpus) as (_ & Hkeep & Hframe).
  split; [vm_compute; reflexivity|]. split.
  - apply (Hkeep (Examples.doc_a, 1) Examples.scaling_record
             "introduction|scaling"
             (default [] (Core.parse Examples.split Examples.category_of
                            Examples.doc_a "introduction|scaling"))
             (record_chunk Examples.scaling_record));
      try (vm_compute; reflexivity).
    vm_compute. apply list_elem_of_further, list_elem_of_here.
  - apply Hframe. vm_compute. intros H. discriminate H.
Defined.




End CoreFacts.

(** ** The hook in a run, the routes and the components *)

Module UseChatRunFacts.
Import UseChat.

Section Facts.

Variable uuidv4 : nat → string.
Variable body : FilterOptions.

Abbreviation append_call := (append_call uuidv4 body).
Abbreviation append_settle := (append_settle uuidv4).
Abbreviation reload_call := (reload_call uuidv4 body).
Abbreviation handleSubmit := (handleSubmit uuidv4 body).
Abbreviation step := (step uuidv4 body).
Abbreviation run := (run uuidv4 body).

Lemma append_call_display content options st :
  Js.trim content ≠ "" →
  isLoading (append_call content options st).1 = true
  ∧ error (append_call content options st).1 = None
  ∧ input (append_call content options st).1 = input st
  ∧ pushed (append_call content options st).1 = pushed st.
Proof.
  intros H. unfold UseChat.append_call.
  rewrite (proj2 (UseChatFacts.truthy_true _) H). simpl.
  unfold abort_current. by destruct (abortControllerRef st).
Qed.

Lemma userMessage_trim uid content :
  userMessage uid (Js.trim content) = userMessage uid content.
Proof. unfold userMessage. by rewrite JsFacts.trim_idemp. Qed.

Lemma requestBody_trim content options st :
  requestBody body (Js.trim content) options st = requestBody body content options st.
Proof. unfold requestBody. by rewrite JsFacts.trim_idemp. Qed.

(** X1. [handleSubmit] does nothing when the input is blank. Otherwise it
    clears the input and hands the trimmed input to [append]: the list
    gains one user message whose content is the trimmed input, the hook is
    loading, and one request is issued, with the controller created for
    it and the body that [append] builds from the input. *)
Theorem handleSubmit_sends_the_trimmed_input options st :
  (Js.trim (input st) = "" → handleSubmit options st = st)
  ∧ (Js.trim (input st) ≠ "" →
     input (handleSubmit options st) = ""
     ∧ isLoading (handleSubmit options st) = true
     ∧ messages (handleSubmit options st) =
         messages st
         ++ [{| id := uuidv4 (uuids st); role := user;
                content := Js.trim (input st); sources := Some [] |}]
     ∧ in_flight (handleSubmit options st) =
         in_flight st
         ++ [{| controller := controllers st;
                request_body := requestBody body (input st) options st |}]).
Proof.
  unfold UseChat.handleSubmit. split; intros H.
  - by rewrite (proj2 (UseChatFacts.truthy_false _) H).
  - rewrite (proj2 (UseChatFacts.truthy_true _) H). simpl.
    assert (Js.trim (Js.trim (input st)) ≠ "") as H2
      by by rewrite JsFacts.trim_idemp.
    destruct (UseChatFacts.append_call_awaiting uuidv4 body _ options st H2)
      as (st1 & E & Hm & _ & _ & _ & _ & Hf & _).
    destruct (append_call_display (Js.trim (input st)) options st H2)
      as (Hl & _).
    rewrite E in *. simpl in *. rewrite Hm, Hf, userMessage_trim, requestBody_trim.
    done.
Qed.


(** *** Frame lemmas *)

Lemma append_call_cases content options st :
  (Js.trim content = "" ∧ (append_call content options st).1 = st)
  ∨ (Js.trim content ≠ ""
     ∧ messages (append_call content options st).1 =
         messages st ++ [userMessage (uuidv4 (uuids st)) content]
     ∧ uuids (append_call content options st).1 = S (uuids st)
     ∧ in_flight (append_call content options st).1 =
         in_flight st
         ++ [{| controller := controllers st;
                request_body := requestBody body content options st |}]
     ∧ isLoading (append_call content options st).1 = true
     ∧ abortControllerRef (append_call content options st).1
       = Some (controllers st)
     ∧ controllers (append_call content options st).1 = S (controllers st)).
Proof.
  destruct (decide (Js.trim content = "")) as [H|H].
  - left. by rewrite UseChatFacts.append_call_blank.
  - right. split; [done|].
    destruct (UseChatFacts.append_call_awaiting uuidv4 body content options st H)
      as (st1 & E & Hm & Hu & Hc & Hr & _ & Hf & _).
    destruct (append_call_display content options st H) as (Hl & _).
    rewrite E in *. simpl in *. done.
Qed.

Lemma append_settle_cases c res st :
  (messages (append_settle c res st).1 = messages st
   ∧ uuids (append_settle c res st).1 = uuids st)
  ∨ (∃ data,
       res = FetchOk data ∧ (c ∉ aborted st)
       ∧ messages (append_settle c res st).1 =
           messages st ++ [assistantMessage (uuidv4 (uuids st)) data]
       ∧ uuids (append_settle c res st).1 = S (uuids st)).
Proof.
  unfold UseChat.append_settle. simpl.
  destruct (decide (c ∈ aborted st)) as [Hin|Hn]; [by left|].
  destruct res as [data|msg|msg]; [|by left|by left].
  right. exists data. split; [done|]. split; [done|].
  unfold updateConversationId.
  destruct (Js.truthy (conversation_id data)); [case_decide|]; done.
Qed.

Lemma append_settle_isLoading c res st :
  isLoading (append_settle c res st).1 = false.
Proof.
  unfold UseChat.append_settle. simpl.
  destruct (decide (c ∈ aborted st)); [done|].
  by destruct res.
Qed.

Lemma reload_call_cases options st :
  (reload_call options st).1 = st
  ∨ ∃ index m,
      lastUserMessageIndex (messages st) = Some index
      ∧ messages st !! index = Some m
      ∧ (reload_call options st).1 =
          (append_call (content m) options
             (set_messages (λ _, take (index + 1) (messages st)) st)).1.
Proof.
  unfold UseChat.reload_call. case_decide; [by left|].
  destruct (lastUserMessageIndex (messages st)) as [index|]; [|by left].
  destruct (messages st !! index) as [m|] eqn:E; [|by left].
  right. by exists index, m.
Qed.

Lemma handleSubmit_cases options st :
  handleSubmit options st = st
  ∨ handleSubmit options st =
      set_input "" (append_call (Js.trim (input st)) options st).1.
Proof.
  unfold UseChat.handleSubmit.
  destruct (negb (Js.truthy (Js.trim (input st)))); auto.
Qed.

Lemma stop_cases st :
  stop st = st ∨ stop st = set_isLoading false (abort_current st).
Proof. unfold stop. destruct (abortControllerRef st); auto. Qed.

Lemma messages_abort_current st : messages (abort_current st) = messages st.
Proof. unfold abort_current. by destruct (abortControllerRef st). Qed.

Lemma uuids_abort_current st : uuids (abort_current st) = uuids st.
Proof. unfold abort_current. by destruct (abortControllerRef st). Qed.

Lemma in_flight_abort_current st : in_flight (abort_current st) = in_flight st.
Proof. unfold abort_current. by destruct (abortControllerRef st). Qed.


(** *** The conversation id *)

(** X2. The conversation id of a successful answer, for a request that
    was not aborted. An empty id changes neither the stored id nor the
    route. An id that is not empty becomes the stored id, the route
    [/chat/id] is pushed exactly when the id differs from the stored one,
    and the next request that [append] issues carries that id. *)
Theorem conversation_id_is_threaded c data st :
  c ∉ aborted st →
  (conversation_id data = "" →
   conversationIdRef (append_settle c (FetchOk data) st).1 = conversationIdRef st
   ∧ pushed (append_settle c (FetchOk data) st).1 = pushed st)
  ∧ (conversation_id data ≠ "" →
     conversationIdRef (append_settle c (FetchOk data) st).1
       = Some (conversation_id data)
     ∧ pushed (append_settle c (FetchOk data) st).1 =
         pushed st
         ++ (if decide (conversationIdRef st = Some (conversation_id data))
             then [] else ["/chat/" +:+ conversation_id data])
     ∧ ∀ content options,
         Js.trim content ≠ "" →
         ∃ r, in_flight (append_call content options
                           (append_settle c (FetchOk data) st).1).1
              = in_flight (append_settle c (FetchOk data) st).1 ++ [r]
              ∧ body_conversation_id (request_body r)
                = Some (conversation_id data)).
Proof.
  intros Hn.
  assert (∀ st0 : State,
    (append_settle c (FetchOk data) st).1 = st0 →
    conversationIdRef st0 =
      (if Js.truthy (conversation_id data)
       then Some (conversation_id data) else conversationIdRef st)
    ∧ pushed st0 =
        (if Js.truthy (conversation_id data)
         then pushed st
              ++ (if decide (conversationIdRef st = Some (conversation_id data))
                  then [] else ["/chat/" +:+ conversation_id data])
         else pushed st)) as Hst.
  { intros st0 <-. unfold UseChat.append_settle. simpl.
    rewrite decide_False by done.
    destruct (Js.truthy (conversation_id data)); [|done].
    unfold updateConversationId. simpl.
    destruct (decide (Some (conversation_id data) = conversationIdRef st))
      as [E|E]; simpl.
    - rewrite decide_True by done. by rewrite app_nil_r.
    - by rewrite decide_False by done. }
  destruct (Hst _ eq_refl) as [Hr Hp]. split; intros Hid.
  - by rewrite Hr, Hp, (proj2 (UseChatFacts.truthy_false _) Hid).
  - rewrite (proj2 (UseChatFacts.truthy_true _) Hid) in Hr, Hp.
    split; [done|]. split; [done|]. intros content options Hc.
    destruct (UseChatFacts.append_call_awaiting uuidv4 body content options
                (append_settle c (FetchOk data) st).1 Hc)
      as (st1 & E & _ & _ & _ & _ & _ & Hf & _).
    rewrite E. simpl. eexists. split; [exact Hf|]. simpl. exact Hr.
Qed.

(** *** Reachable states *)

Lemma ref_step st e :
  is_Some (abortControllerRef st) → is_Some (abortControllerRef (step st e)).
Proof.
  intros Hr.
  assert (∀ content options st0,
            is_Some (abortControllerRef st0) →
            is_Some (abortControllerRef (append_call content options st0).1))
    as Happ.
  { intros content options st0 H0.
    destruct (append_call_cases content options st0)
      as [[_ ->]|(_ & _ & _ & _ & _ & -> & _)]; [done|by eexists]. }
  destruct e as [content options|options| |options|value|c res]; simpl.
  - by apply Happ.
  - destruct (reload_call_cases options st) as [->|(i & m & _ & _ & ->)];
      [done|]. by apply Happ.
  - unfold stop. destruct (abortControllerRef st) eqn:E; [|by rewrite E].
    unfold abort_current. by rewrite E.
  - destruct (handleSubmit_cases options st) as [->| ->]; [done|].
    simpl. by apply Happ.
  - done.
  - destruct (is_in_flight c st); [|done].
    by destruct (UseChatFacts.append_settle_frame uuidv4 c res st) as (-> & _).
Qed.

Lemma ref_run es st :
  is_Some (abortControllerRef st) → is_Some (abortControllerRef (run es st)).
Proof.
  revert st. induction es as [|e es IH]; intros st H; [done|].
  simpl. apply IH. by apply ref_step.
Qed.

(** While the hook shows that it is loading, a request is live. *)
Lemma loading_step st e :
  inv st →
  (isLoading st = true → live st ≠ []) →
  isLoading (step st e) = true → live (step st e) ≠ [].
Proof.
  intros Hinv IH.
  assert (∀ content options st0,
            inv st0 → (isLoading st0 = true → live st0 ≠ []) →
            isLoading (append_call content options st0).1 = true →
            live (append_call content options st0).1 ≠ []) as Happ.
  { intros content options st0 H0 IH0.
    destruct (append_call_cases content options st0) as [[_ ->]|(Hc & _)];
      [done|].
    destruct (UseChatFacts.inv_append_call uuidv4 body content options st0 H0)
      as [_ Hl].
    by rewrite (Hl Hc). }
  destruct e as [content options|options| |options|value|c res]; simpl.
  - by apply Happ.
  - destruct (reload_call_cases options st) as [->|(i & m & _ & _ & ->)];
      [done|].
    apply Happ; [|done]. by apply (UseChatFacts.inv_ext st).
  - destruct (stop_cases st) as [->| ->]; done.
  - destruct (handleSubmit_cases options st) as [->| ->]; [done|].
    intros Hl. rewrite (UseChatFacts.live_ext _
      (append_call (Js.trim (input st)) options st).1) by done.
    by apply Happ.
  - done.
  - destruct (is_in_flight c st); [|done].
    by rewrite append_settle_isLoading.
Qed.

Lemma loading_run es st :
  inv st →
  (isLoading st = true → live st ≠ []) →
  isLoading (run es st) = true → live (run es st) ≠ [].
Proof.
  revert st. induction es as [|e es IH]; intros st Hinv H; [done|].
  simpl. apply IH; [by apply UseChatFacts.inv_step|by apply loading_step].
Qed.

(** X3. In every state that the hook reaches from its mount, whatever the
    calls and the answers: while [isLoading] is true exactly one request
    is live, and it carries the signal of the current controller. The
    converse fails: after a second [append] the late rejection of the
    first request sets [isLoading] to false while the second request is
    still live. *)
Theorem loading_means_a_request_is_live initialId initialMessages :
  (∀ es,
     isLoading (run es (init initialId initialMessages)) = true →
     ∃ r, live (run es (init initialId initialMessages)) = [r]
          ∧ abortControllerRef (run es (init initialId initialMessages))
            = Some (controller r))
  ∧ ∃ es,
      isLoading (run es (init initialId initialMessages)) = false
      ∧ live (run es (init initialId initialMessages)) ≠ [].
Proof.
  split.
  - intros es Hl.
    pose proof (UseChatFacts.inv_run uuidv4 body es _
                  (UseChatFacts.inv_init initialId initialMessages))
      as [_ [Hnil|Hone]]; [|done].
    exfalso. revert Hnil. apply loading_run; try done.
    apply UseChatFacts.inv_init.
  - exists [Append "a" no_options; Append "b" no_options;
            Settle 1 (FetchRejected "late")].
    split; [done|]. vm_compute. discriminate.
Qed.


(** *** The message list *)

Lemma settle_step_cases c res st :
  (messages (step st (Settle c res)) = messages st
   ∧ uuids (step st (Settle c res)) = uuids st)
  ∨ (∃ data,
       res = FetchOk data
       ∧ messages (step st (Settle c res)) =
           messages st ++ [assistantMessage (uuidv4 (uuids st)) data]
       ∧ uuids (step st (Settle c res)) = S (uuids st)).
Proof.
  simpl. destruct (is_in_flight c st); [|by left].
  destruct (append_settle_cases c res st) as [?|(data & ? & _ & ?)];
    [by left|right; by exists data].
Qed.

(** X4. Apart from [reload], nothing the hook does removes or reorders
    messages: after any sequence of events without a [Reload] the list
    starts with the list before it. *)
Theorem messages_only_grow_without_reload es st :
  Forall (λ e, ∀ options, e ≠ Reload options) es →
  messages st `prefix_of` messages (run es st).
Proof.
  revert st. induction es as [|e es IH]; intros st Hes; [done|].
  apply Forall_cons in Hes as [He Hes]. simpl.
  etrans; [|by apply IH].
  assert (∀ content options,
            messages st `prefix_of` messages (append_call content options st).1)
    as Happ.
  { intros content options.
    destruct (append_call_cases content options st) as [[_ ->]|(_ & -> & _)];
      [done|by apply prefix_app_r]. }
  destruct e as [content options|options| |options|value|c res].
  - apply Happ.
  - by destruct (He options).
  - simpl. destruct (stop_cases st) as [->| ->]; [done|].
    simpl. by rewrite messages_abort_current.
  - simpl. destruct (handleSubmit_cases options st) as [->| ->]; [done|].
    apply Happ.
  - done.
  - destruct (settle_step_cases c res st) as [[-> _]|(data & _ & -> & _)];
      [done|by apply prefix_app_r].
Qed.

(** The messages that the hook has added carry the identifiers of pairwise
    distinct draws. *)
Lemma ids_push (init_ms : list Message) st ms' n m :
  (∃ k new ns,
     messages st = take k init_ms ++ new
     ∧ id <$> new = uuidv4 <$> ns
     ∧ NoDup ns ∧ Forall (λ i, i < uuids st) ns) →
  ms' = messages st ++ [m] → id m = uuidv4 (uuids st) → n = S (uuids st) →
  ∃ k new ns,
    ms' = take k init_ms ++ new
    ∧ id <$> new = uuidv4 <$> ns
    ∧ NoDup ns ∧ Forall (λ i, i < n) ns.
Proof.
  intros (k & new & ns & Hm & Hid & Hnd & Hlt) -> Hidm ->.
  exists k, (new ++ [m]), (ns ++ [uuids st]).
  split; [by rewrite Hm, app_assoc|].
  split; [by rewrite !fmap_app, Hid; simpl; rewrite Hidm|].
  split.
  - apply NoDup_app. split; [done|]. split; [|apply NoDup_singleton].
    intros i Hi ->%list_elem_of_singleton.
    rewrite Forall_forall in Hlt. apply Hlt in Hi. lia.
  - apply Forall_app. split; [|apply Forall_singleton; lia].
    eapply Forall_impl; [exact Hlt|]. simpl. lia.
Qed.

Lemma ids_truncate (init_ms : list Message) st j :
  (∃ k new ns,
     messages st = take k init_ms ++ new
     ∧ id <$> new = uuidv4 <$> ns
     ∧ NoDup ns ∧ Forall (λ i, i < uuids st) ns) →
  ∃ k new ns,
    take j (messages st) = take k init_ms ++ new
    ∧ id <$> new = uuidv4 <$> ns
    ∧ NoDup ns ∧ Forall (λ i, i < uuids st) ns.
Proof.
  intros (k & new & ns & Hm & Hid & Hnd & Hlt).
  exists (j `min` k), (take (j - length (take k init_ms)) new),
         (take (j - length (take k init_ms)) ns).
  split; [by rewrite Hm, take_app, take_take|].
  split; [by rewrite !fmap_take, Hid|].
  split.
  - exact (sublist_NoDup _ _ Hnd (sublist_take _ _)).
  - by apply Forall_take.
Qed.

Lemma ids_step (init_ms : list Message) st e :
  (∃ k new ns,
     messages st = take k init_ms ++ new
     ∧ id <$> new = uuidv4 <$> ns
     ∧ NoDup ns ∧ Forall (λ i, i < uuids st) ns) →
  ∃ k new ns,
    messages (step st e) = take k init_ms ++ new
    ∧ id <$> new = uuidv4 <$> ns
    ∧ NoDup ns ∧ Forall (λ i, i < uuids (step st e)) ns.
Proof.
  intros H.
  assert (∀ content options st0,
    (∃ k new ns,
       messages st0 = take k init_ms ++ new
       ∧ id <$> new = uuidv4 <$> ns
       ∧ NoDup ns ∧ Forall (λ i, i < uuids st0) ns) →
    ∃ k new ns,
      messages (append_call content options st0).1 = take k init_ms ++ new
      ∧ id <$> new = uuidv4 <$> ns
      ∧ NoDup ns
      ∧ Forall (λ i, i < uuids (append_call content options st0).1) ns)
    as Happ.
  { intros content options st0 H0.
    destruct (append_call_cases content options st0)
      as [[_ ->]|(_ & Hm & Hu & _)]; [done|].
    by eapply ids_push. }
  destruct e as [content options|options| |options|value|c res].
  - by apply Happ.
  - simpl. destruct (reload_call_cases options st)
      as [->|(i & m & _ & _ & ->)]; [done|].
    apply Happ. simpl. by apply ids_truncate.
  - simpl. destruct (stop_cases st) as [->| ->]; [done|].
    simpl. by rewrite messages_abort_current, uuids_abort_current.
  - simpl. destruct (handleSubmit_cases options st) as [->| ->]; [done|].
    simpl. by apply Happ.
  - done.
  - destruct (settle_step_cases c res st) as [[-> ->]|(data & _ & Hm & Hu)];
      [done|].
    by eapply ids_push.
Qed.

Lemma ids_run (init_ms : list Message) es st :
  (∃ k new ns,
     messages st = take k init_ms ++ new
     ∧ id <$> new = uuidv4 <$> ns
     ∧ NoDup ns ∧ Forall (λ i, i < uuids st) ns) →
  ∃ k new ns,
    messages (run es st) = take k init_ms ++ new
    ∧ id <$> new = uuidv4 <$> ns
    ∧ NoDup ns ∧ Forall (λ i, i < uuids (run es st)) ns.
Proof.
  revert st. induction es as [|e es IH]; intros st H; [done|].
  simpl. apply IH. by apply ids_step.
Qed.

(** X5. In every state that the hook reaches from its mount the list of
    messages is a prefix of the initial messages followed by messages that
    the hook has added, and the identifiers of these are [uuidv4] at
    pairwise distinct draws, each below the number of draws made; so they
    are pairwise distinct when [uuidv4] never repeats an identifier. *)
Theorem hook_messages_have_distinct_ids initialId initialMessages es :
  ∃ k new ns,
    messages (run es (init initialId initialMessages))
      = take k initialMessages ++ new
    ∧ id <$> new = uuidv4 <$> ns
    ∧ NoDup ns
    ∧ Forall (λ i, i < uuids (run es (init initialId initialMessages))) ns
    ∧ ((∀ i j, uuidv4 i = uuidv4 j → i = j) → NoDup (id <$> new)).
Proof.
  destruct (ids_run initialMessages es (init initialId initialMessages))
    as (k & new & ns & Hm & Hid & Hnd & Hlt).
  { exists (length initialMessages), [], []. simpl.
    rewrite firstn_all, app_nil_r. repeat split; constructor. }
  exists k, new, ns. repeat (split; [done|]).
  intros Hinj. rewrite Hid. apply NoDup_fmap_2; [|done].
  intros i j. apply Hinj.
Qed.


(** *** Requests in flight *)

Lemma length_filter_retire (l : list Request) c :
  NoDup (controller <$> l) → c ∈ controller <$> l →
  length (filter (λ r, controller r ≠ c) l) + 1 = length l.
Proof.
  induction l as [|r l IH]; simpl; intros Hnd Hin.
  - by apply elem_of_nil in Hin.
  - apply NoDup_cons in Hnd as [Hr Hnd]. rewrite filter_cons.
    destruct (decide (controller r ≠ c)) as [Hne|Heq]; simpl.
    + apply elem_of_cons in Hin as [->|Hin]; [done|].
      by rewrite IH.
    + apply dec_stable in Heq. subst c.
      rewrite ListFacts.length_filter_Forall; [lia|].
      apply Forall_forall. intros r' Hr' Heq. apply Hr.
      rewrite <- Heq. by apply list_elem_of_fmap_2.
Qed.

(** The controllers of the requests in flight are pairwise distinct, and a
    controller that has been created and is not in flight never is again. *)
Lemma in_flight_step st e :
  well_formed st →
  in_flight (step st e) = in_flight st
  ∨ (∃ r, in_flight (step st e) = in_flight st ++ [r]
          ∧ controller r = controllers st
          ∧ controllers (step st e) = S (controllers st))
  ∨ (∃ c, in_flight (step st e) = filter (λ r, controller r ≠ c) (in_flight st)
          ∧ controllers (step st e) = controllers st).
Proof.
  intros Hwf.
  assert (∀ content options st0,
    in_flight (append_call content options st0).1 = in_flight st0
    ∨ (∃ r, in_flight (append_call content options st0).1
            = in_flight st0 ++ [r]
            ∧ controller r = controllers st0
            ∧ controllers (append_call content options st0).1
              = S (controllers st0))) as Happ.
  { intros content options st0.
    destruct (append_call_cases content options st0)
      as [[_ ->]|(_ & _ & _ & Hf & _ & _ & Hc)]; [by left|].
    right. eexists. by rewrite Hf. }
  destruct e as [content options|options| |options|value|c res]; simpl.
  - destruct (Happ content options st) as [?|?]; auto.
  - destruct (reload_call_cases options st) as [->|(i & m & _ & _ & ->)];
      [by left|].
    destruct (Happ (content m) options
                (set_messages (λ _, take (i + 1) (messages st)) st))
      as [?|?]; auto.
  - left. destruct (stop_cases st) as [->| ->]; [done|].
    simpl. apply in_flight_abort_current.
  - destruct (handleSubmit_cases options st) as [->| ->]; [by left|].
    simpl. destruct (Happ (Js.trim (input st)) options st) as [?|?]; auto.
  - by left.
  - destruct (is_in_flight c st); [|by left].
    right. right. exists c.
    by destruct (UseChatFacts.append_settle_frame uuidv4 c res st)
      as (_ & -> & _ & ->).
Qed.

Lemma controllers_step st e : controllers st ≤ controllers (step st e).
Proof.
  assert (∀ content options st0,
    controllers st0 ≤ controllers (append_call content options st0).1)
    as Happ.
  { intros content options st0.
    destruct (append_call_cases content options st0)
      as [[_ ->]|(_ & _ & _ & _ & _ & _ & ->)]; lia. }
  destruct e as [content options|options| |options|value|c res]; simpl.
  - apply Happ.
  - destruct (reload_call_cases options st) as [->|(i & m & _ & _ & ->)];
      [done|]. apply (Happ _ _ (set_messages _ st)).
  - unfold stop, abort_current. by destruct (abortControllerRef st).
  - destruct (handleSubmit_cases options st) as [->| ->]; [done|].
    apply Happ.
  - done.
  - destruct (is_in_flight c st); [|done].
    by destruct (UseChatFacts.append_settle_frame uuidv4 c res st)
      as (_ & -> & _).
Qed.

Lemma NoDup_in_flight_step st e :
  well_formed st →
  NoDup (controller <$> in_flight st) →
  NoDup (controller <$> in_flight (step st e)).
Proof.
  intros Hwf Hnd.
  destruct (in_flight_step st e Hwf)
    as [->|[(r & -> & Hr & _)|(c & -> & _)]]; [done| |].
  - rewrite fmap_app. apply NoDup_app. split; [done|].
    split; [|apply NoDup_singleton].
    intros c Hc1 Hc2. apply list_elem_of_singleton in Hc2. subst c.
    apply list_elem_of_fmap in Hc1 as (r' & Heq & Hin).
    destruct Hwf as (_ & _ & Hlt). rewrite Forall_forall in Hlt.
    apply Hlt in Hin. lia.
  - eapply sublist_NoDup; [exact Hnd|].
    apply fmap_sublist, sublist_filter.
Qed.

Lemma NoDup_in_flight_run es st :
  inv st →
  NoDup (controller <$> in_flight st) →
  NoDup (controller <$> in_flight (run es st)).
Proof.
  revert st. induction es as [|e es IH]; intros st Hinv H; [done|].
  simpl. apply IH; [by apply UseChatFacts.inv_step|].
  apply NoDup_in_flight_step; [apply Hinv|done].
Qed.

Lemma retired_step st e c :
  well_formed st → c < controllers st →
  c ∉ controller <$> in_flight st →
  c ∉ controller <$> in_flight (step st e).
Proof.
  intros Hwf Hc Hn.
  destruct (in_flight_step st e Hwf)
    as [->|[(r & -> & Hr & _)|(c' & -> & _)]]; [done| |].
  - rewrite fmap_app. intros [Hin|Hin]%elem_of_app; [done|].
    apply list_elem_of_singleton in Hin. lia.
  - intros (r & -> & Hr)%list_elem_of_fmap. apply Hn.
    apply list_elem_of_filter in Hr as [_ Hr]. by apply list_elem_of_fmap_2.
Qed.

Lemma retired_run es st c :
  inv st → c < controllers st →
  c ∉ controller <$> in_flight st →
  c ∉ controller <$> in_flight (run es st).
Proof.
  revert st. induction es as [|e es IH]; intros st Hinv Hc Hn; [done|].
  simpl. apply IH.
  - by apply UseChatFacts.inv_step.
  - pose proof (controllers_step st e). lia.
  - apply retired_step; [apply Hinv|done..].
Qed.

(** X6. A request settles once. In a state reached from the mount, when
    the request of controller [c] is in flight and settles, exactly one
    request leaves the requests in flight, and whatever happens afterwards
    no request of controller [c] is in flight again. *)
Theorem a_request_settles_once initialId initialMessages es c res :
  is_in_flight c (run es (init initialId initialMessages)) = true →
  length (in_flight (step (run es (init initialId initialMessages))
                          (Settle c res))) + 1
    = length (in_flight (run es (init initialId initialMessages)))
  ∧ ∀ es',
      is_in_flight c
        (run es' (step (run es (init initialId initialMessages))
                       (Settle c res))) = false.
Proof.
  set (st := run es (init initialId initialMessages)).
  intros Hin.
  assert (inv st) as Hinv
    by apply UseChatFacts.inv_run, UseChatFacts.inv_init.
  assert (NoDup (controller <$> in_flight st)) as Hnd.
  { apply NoDup_in_flight_run; [apply UseChatFacts.inv_init|constructor]. }
  assert (in_flight (step st (Settle c res))
          = filter (λ r, controller r ≠ c) (in_flight st)) as Hf.
  { simpl. rewrite Hin.
    by destruct (UseChatFacts.append_settle_frame uuidv4 c res st)
      as (_ & _ & _ & ->). }
  unfold is_in_flight in Hin. apply bool_decide_eq_true in Hin.
  split.
  - rewrite Hf. by apply length_filter_retire.
  - intros es'. unfold is_in_flight. apply bool_decide_eq_false.
    apply retired_run.
    + by apply UseChatFacts.inv_step.
    + pose proof (controllers_step st (Settle c res)).
      destruct Hinv as [(_ & _ & Hlt) _]. rewrite Forall_forall in Hlt.
      apply list_elem_of_fmap in Hin as (r & -> & Hr). apply Hlt in Hr. lia.
    + rewrite Hf. intros (r & Heq & Hr)%list_elem_of_fmap.
      apply list_elem_of_filter in Hr as [Hne _]. done.
Qed.

(** *** [stop] *)

Lemma all_aborted st c :
  live st = [] → c ∈ controller <$> in_flight st → c ∈ aborted st.
Proof.
  unfold live. intros Hl (r & -> & Hr)%list_elem_of_fmap.
  destruct (decide (controller r ∈ aborted st)) as [|Hn]; [done|].
  assert (r ∈ filter (λ r, controller r ∉ aborted st) (in_flight st)) as Hin
    by by apply list_elem_of_filter.
  rewrite Hl in Hin. by apply elem_of_nil in Hin.
Qed.

(** X7. [stop] in a state reached from the mount: the messages stay, the
    hook is no longer loading, no request is live, a second [stop] changes
    nothing, and whatever answer a request in flight gets afterwards, the
    messages stay as they were and the hook's error is the abort error. *)
Theorem stop_discards_every_pending_answer initialId initialMessages es :
  messages (stop (run es (init initialId initialMessages)))
    = messages (run es (init initialId initialMessages))
  ∧ isLoading (stop (run es (init initialId initialMessages))) = false
  ∧ live (stop (run es (init initialId initialMessages))) = []
  ∧ stop (stop (run es (init initialId initialMessages)))
    = stop (run es (init initialId initialMessages))
  ∧ ∀ c res,
      messages (step (stop (run es (init initialId initialMessages)))
                     (Settle c res))
      = messages (run es (init initialId initialMessages))
      ∧ (is_in_flight c (stop (run es (init initialId initialMessages)))
         = true →
         error (step (stop (run es (init initialId initialMessages)))
                     (Settle c res))
         = Some "AbortError").
Proof.
  set (st := run es (init initialId initialMessages)).
  assert (inv st) as Hinv
    by apply UseChatFacts.inv_run, UseChatFacts.inv_init.
  assert (is_Some (abortControllerRef st)) as [c0 Hr]
    by by apply ref_run.
  assert (stop st = set_isLoading false (abort_current st)) as Hs
    by (unfold stop; by rewrite Hr).
  assert (messages (stop st) = messages st) as Hm
    by (rewrite Hs; simpl; apply messages_abort_current).
  assert (live (stop st) = []) as Hl.
  { destruct Hinv as [_ Hone]. rewrite Hs.
    rewrite (UseChatFacts.live_ext _ (abort_current st));
      [by apply UseChatFacts.live_abort_current_nil|done|done]. }
  split; [done|]. split; [by rewrite Hs|]. split; [done|]. split.
  - rewrite Hs. unfold stop, abort_current. rewrite Hr. simpl.
    unfold set_isLoading. simpl. by rewrite (assoc_L (∪)), (idemp_L (∪)).
  - intros c res. simpl.
    destruct (is_in_flight c (stop st)) eqn:Hin; [|done].
    apply bool_decide_eq_true in Hin.
    assert (c ∈ aborted (stop st)) as Hc by by apply all_aborted.
    destruct (UseChatFacts.append_settle_failure uuidv4 c res (stop st))
      as [-> _]; [by left|].
    split; [done|]. intros _.
    unfold UseChat.append_settle. simpl. by rewrite decide_True.
Qed.

End Facts.

(** X2, witness: the first answer on a new chat. *)
Lemma conversation_id_is_threaded_witness :
  let st := (UseChat.append_call Examples.uuid no_options "hello" no_options
               Examples.fresh).1 in
  (1 ∉ aborted st)
  ∧ conversationIdRef
      (UseChat.append_settle Examples.uuid 1 (FetchOk Examples.first_answer)
         st).1 = Some "c-1"
  ∧ pushed
      (UseChat.append_settle Examples.uuid 1 (FetchOk Examples.first_answer)
         st).1 = ["/chat/c-1"].
Proof.
  intros st.
  assert (1 ∉ aborted st) as Hn by (vm_compute; intros H; discriminate H).
  split; [exact Hn|].
  destruct (conversation_id_is_threaded Examples.uuid no_options 1
              Examples.first_answer st Hn) as [_ H].
  destruct H as (H1 & H2 & _); [discriminate|].
  split; [exact H1|exact H2].
Defined.

(** X4, witness: a turn and a [stop] on a chat with one message. *)
Lemma messages_only_grow_witness :
  let es := [Append "hi" no_options; Settle 1 (FetchOk Examples.first_answer);
             Stop] in
  let st := UseChat.init None [Examples.question] in
  Forall (λ e, ∀ options, e ≠ Reload options) es
  ∧ messages st `prefix_of` messages (UseChat.run Examples.uuid no_options es st).
Proof.
  intros es st.
  assert (Forall (λ e, ∀ options, e ≠ Reload options) es) as Hes
    by (repeat constructor; intros options H; discriminate H).
  split; [exact Hes|].
  exact (messages_only_grow_without_reload Examples.uuid no_options es st Hes).
Defined.

(** X6, witness: the request of a first [append] is rejected. *)
Lemma a_request_settles_once_witness :
  let st := UseChat.run Examples.uuid no_options [Append "hi" no_options]
              (UseChat.init None []) in
  is_in_flight 1 st = true
  ∧ length (in_flight (UseChat.step Examples.uuid no_options st
                         (Settle 1 (FetchRejected "timeout")))) + 1
    = length (in_flight st)
  ∧ ∀ es',
      is_in_flight 1
        (UseChat.run Examples.uuid no_options es'
           (UseChat.step Examples.uuid no_options st
              (Settle 1 (FetchRejected "timeout")))) = false.
Proof.
  intros st. split; [reflexivity|].
  apply (a_request_settles_once Examples.uuid no_options None []
           [Append "hi" no_options] 1 (FetchRejected "timeout")).
  reflexivity.
Defined.

End UseChatRunFacts.

(** ** The chat route and the history routes *)

Module ChatApiFacts.
Import Route.

Lemma assoc_last_app key (m1 m2 : list (string * Json)) :
  assoc_last key (m1 ++ m2) =
  match assoc_last key m2 with
  | Some v => Some v
  | None => assoc_last key m1
  end.
Proof.
  induction m1 as [|[k v] m1 IH]; simpl.
  - by destruct (assoc_last key m2).
  - rewrite IH. by destruct (assoc_last key m2).
Qed.

Lemma assoc_last_skip key k v (m1 m2 : list (string * Json)) :
  k ≠ key →
  assoc_last key (m1 ++ (k, v) :: m2) = assoc_last key (m1 ++ m2).
Proof.
  intros Hk. rewrite !assoc_last_app. simpl.
  destruct (assoc_last key m2); [done|]. by rewrite decide_False.
Qed.

Lemma string_min1_Some j m : string_min1 j = Some m → m ≠ "".
Proof.
  unfold string_min1. destruct j; simpl; try done.
  case_decide as Hl; [|done]. intros [= <-] ->. simpl in Hl. lia.
Qed.

(** X8. What [chatRequestSchema] accepts has a message that is not empty,
    and serialising the parsed value gives a body that parses to that very
    value and has no members beyond [message], [conversation_id],
    [technologies] and [categories]. *)
Theorem chatRequestSchema_output_revalidates body r :
  chatRequestSchema body = Some r →
  message r ≠ ""
  ∧ chatRequestSchema (ChatRequest_to_json r) = Some r
  ∧ keys (ChatRequest_to_json r)
    ⊆ ["message"; "conversation_id"; "technologies"; "categories"].
Proof.
  intros H.
  assert (message r ≠ "") as Hm.
  { destruct body; try done. simpl in H.
    destruct (assoc_last "message" members ≫= string_min1) as [m|] eqn:E;
      [|done].
    simpl in H.
    destruct (optional as_string (assoc_last "conversation_id" members));
      [|done]. simpl in H.
    destruct (optional as_string_array (assoc_last "technologies" members));
      [|done]. simpl in H.
    destruct (optional as_string_array (assoc_last "categories" members));
      [|done]. simpl in H.
    injection H as <-. simpl.
    destruct (assoc_last "message" members) as [j|]; [|done].
    by apply (string_min1_Some j). }
  split; [done|]. split; [by apply RouteFacts.chatRequestSchema_to_json|].
  destruct r as [m c t g]. unfold ChatRequest_to_json, keys. simpl.
  destruct c, t, g; by apply (bool_decide_unpack _).
Qed.

(** X9. A member with any other name than [message], [conversation_id],
    [technologies] and [categories] is ignored: with or without it the
    schema gives the same result, and for a body that the schema accepts
    the route gives the same answer. *)
Theorem chatRequestSchema_ignores_unknown_members k v m1 m2 :
  k ∉ ["message"; "conversation_id"; "technologies"; "categories"] →
  chatRequestSchema (JObject (m1 ++ (k, v) :: m2))
  = chatRequestSchema (JObject (m1 ++ m2))
  ∧ ∀ zod_issues backend,
      chatRequestSchema (JObject (m1 ++ m2)) ≠ None →
      POST zod_issues backend (Some (JObject (m1 ++ (k, v) :: m2)))
      = POST zod_issues backend (Some (JObject (m1 ++ m2))).
Proof.
  intros Hk.
  assert (∀ key, key ∈ ["message"; "conversation_id"; "technologies";
                        "categories"] →
          assoc_last key (m1 ++ (k, v) :: m2) = assoc_last key (m1 ++ m2))
    as Hskip.
  { intros key Hkey. apply assoc_last_skip. by intros ->. }
  assert (chatRequestSchema (JObject (m1 ++ (k, v) :: m2))
          = chatRequestSchema (JObject (m1 ++ m2))) as Hs.
  { unfold chatRequestSchema, member.
    rewrite !Hskip; [done|by apply (bool_decide_unpack _)..]. }
  split; [done|]. intros zod_issues backend Hok.
  unfold POST. unfold member at 1 2.
  rewrite Hskip by by apply (bool_decide_unpack _).
  destruct (negb _); [done|]. rewrite Hs.
  by destruct (chatRequestSchema (JObject (m1 ++ m2))).
Qed.




Section Api.

Variable zod_issues : Json → Json.
Variable backend : ChatRequest → BackendResult.
Variable body : FilterOptions.


End Api.

(** X8, witness: a body with a member that the schema does not know. *)
Lemma chatRequestSchema_output_revalidates_witness :
  let body :=
    JObject [("message", JString "hi"); ("user", JNumber 1);
             ("technologies", JArray [JString "qdrant"])] in
  let r := {| message := "hi"; conversation_id := None;
              technologies := Some ["qdrant"]; categories := None |} in
  chatRequestSchema body = Some r
  ∧ message r ≠ ""
  ∧ chatRequestSchema (ChatRequest_to_json r) = Some r
  ∧ keys (ChatRequest_to_json r)
    ⊆ ["message"; "conversation_id"; "technologies"; "categories"].
Proof.
  intros body r. split; [reflexivity|].
  apply (chatRequestSchema_output_revalidates body r). reflexivity.
Defined.

(** X9, witness: a [user] member next to the message. *)
Lemma chatRequestSchema_ignores_unknown_members_witness :
  let m1 := [("message", JString "hi")] in
  ("user" ∉ ["message"; "conversation_id"; "technologies"; "categories"])
  ∧ chatRequestSchema (JObject (m1 ++ [("user", JString "me")]))
    = chatRequestSchema (JObject (m1 ++ [])).
Proof.
  intros m1.
  assert ("user" ∉ ["message"; "conversation_id"; "technologies";
                    "categories"]) as Hk
    by (apply (bool_decide_unpack _); vm_compute; exact I).
  split; [exact Hk|].
  exact (proj1 (chatRequestSchema_ignores_unknown_members
                  "user" (JString "me") m1 [] Hk)).
Defined.


End ChatApiFacts.

Module HistoryFacts.
Import History.

Local Ltac cases :=
  repeat split; intros;
  repeat match goal with
         | H : ∃ _, _ |- _ => destruct H
         | H : _ ∧ _ |- _ => destruct H
         | H : Responded _ _ = Responded _ _ |- _ => injection H as ? ?; subst
         | H : Unreachable = Responded _ _ |- _ => discriminate H
         end;
  try done; try congruence; eauto 8.

(** X11. The history routes and the status of the backend. [GET] answers
    200 with the backend's data exactly when the backend answers ok with a
    body that can be read, and 500 in every other case, a 404 of the
    backend included. [GET_SINGLE_CONVERSATION] does the same but passes
    a 404 on as 404. [DELETE] answers 204 without a body exactly when the
    backend answers ok, 404 exactly when the backend answers 404, and 500
    otherwise. *)
Theorem history_routes_map_the_backend_status (b : BackendResponse) :
  (status (GET b) = 200
   ∨ GET b = json (error_body "Failed to fetch conversations") 500)
  ∧ (status (GET b) = 200 ↔
     ∃ st data, b = Responded st (Some data) ∧ ok st = true
                ∧ GET b = json data 200)
  ∧ (status (GET_SINGLE_CONVERSATION b) = 200 ↔
     ∃ st data, b = Responded st (Some data) ∧ ok st = true
                ∧ GET_SINGLE_CONVERSATION b = json data 200)
  ∧ (status (GET_SINGLE_CONVERSATION b) = 404 ↔ ∃ body, b = Responded 404 body)
  ∧ (status (DELETE b) = 404 ↔ ∃ body, b = Responded 404 body)
  ∧ (status (DELETE b) = 204 ↔
     ∃ st body, b = Responded st body ∧ ok st = true)
  ∧ (DELETE b = {| status := 204; body := None |}
     ∨ DELETE b = json (error_body "Conversation not found") 404
     ∨ DELETE b = json (error_body "Failed to delete conversation") 500).
Proof.
  assert (ok 404 = false) as H404 by done.
  destruct b as [|st body]; simpl; [cases|].
  destruct (decide (st = 404)) as [->|Hne]; simpl; [cases|].
  destruct (ok st) eqn:Hok; simpl; [|cases].
  destruct body as [data|]; simpl; cases.
Qed.

End HistoryFacts.

Module ChatPageFacts.
Import ChatPage.

Section Facts.

Variable backend : string → Fetched.

Lemma getChat_resolves id : ∃ r, getChat backend id = Resolved r.
Proof.
  unfold getChat. destruct (backend id) as [|st body]; [by eexists|].
  destruct (negb (History.ok st)); [case_decide; by eexists|].
  destruct body; by eexists.
Qed.

(** X12. [getChat] never rejects, so [generateMetadata] never gives the
    title [Chat Error]. For the id [new] the page is an empty chat without
    a conversation id, whatever the backend holds. The page is the
    not-found page exactly when the title is [Chat Not Found]. A chat
    that is rendered for another id has that id, and the backend has
    answered ok; its messages are the ones of the answer, or none when the
    answer has no messages. *)
Theorem page_and_metadata_agree id :
  (∃ r, getChat backend id = Resolved r)
  ∧ title (generateMetadata backend id) ≠ "Chat Error"
  ∧ (id = "new" →
     ChatPage backend id = ChatOf [] None
     ∧ title (generateMetadata backend id) = "New Chat")
  ∧ (ChatPage backend id = NotFound ↔
     title (generateMetadata backend id) = "Chat Not Found")
  ∧ (∀ ms initialId,
       id ≠ "new" → ChatPage backend id = ChatOf ms initialId →
       initialId = Some id
       ∧ ∃ st body, backend id = Response st body ∧ History.ok st = true
                    ∧ ms = match body with Messages ms' => ms' | _ => [] end).
Proof.
  destruct (getChat_resolves id) as [r Hr].
  split; [by exists r|].
  unfold ChatPage, generateMetadata. rewrite Hr.
  destruct (decide (id = "new")) as [Hnew|Hnew]; simpl.
  - repeat split; done.
  - split; [by destruct r|]. split; [done|]. split; [by destruct r|].
    intros ms initialId _ Hp. destruct r as [ms'|]; [|done].
    injection Hp as <- <-. split; [done|].
    revert Hr. unfold getChat.
    destruct (backend id) as [|st body]; [done|].
    destruct (History.ok st) eqn:Hok; simpl; [|by case_decide].
    destruct body; intros [= <-]; eauto.
Qed.

End Facts.

End ChatPageFacts.

Module ChatViewFacts.
Import UseChat ChatView.

Lemma toggle_selected (technologyId : string) (prev : list string) :
  technologyId ∈ prev →
  handleTechnologyToggle technologyId prev
  = filter (λ id, id ≠ technologyId) prev.
Proof.
  intros H. unfold handleTechnologyToggle. by rewrite bool_decide_eq_true_2.
Qed.

Lemma toggle_not_selected (technologyId : string) (prev : list string) :
  technologyId ∉ prev →
  handleTechnologyToggle technologyId prev = prev ++ [technologyId].
Proof.
  intros H. unfold handleTechnologyToggle. by rewrite bool_decide_eq_false_2.
Qed.

Lemma filter_others (technologyId : string) (prev : list string) :
  technologyId ∉ prev → filter (λ id, id ≠ technologyId) prev = prev.
Proof.
  induction prev as [|x prev IH]; [done|].
  intros [Hx Hp]%not_elem_of_cons.
  rewrite filter_cons, decide_True by done. by rewrite IH.
Qed.

(** X13. [handleTechnologyToggle] flips the membership of the technology
    it is given and of no other, keeps a selection free of duplicates free
    of duplicates, and selecting a technology that was not selected and
    deselecting it again gives the selection back. *)
Theorem handleTechnologyToggle_flips_one_membership
    (technologyId : string) (prev : list string) :
  (technologyId ∈ handleTechnologyToggle technologyId prev ↔ technologyId ∉ prev)
  ∧ (∀ other, other ≠ technologyId →
       other ∈ handleTechnologyToggle technologyId prev ↔ other ∈ prev)
  ∧ (NoDup prev → NoDup (handleTechnologyToggle technologyId prev))
  ∧ (technologyId ∉ prev →
     handleTechnologyToggle technologyId
       (handleTechnologyToggle technologyId prev) = prev).
Proof.
  assert (technologyId ∈ prev ++ [technologyId]) as Hlast
    by (apply elem_of_app; right; by apply list_elem_of_singleton).
  destruct (decide (technologyId ∈ prev)) as [E|E].
  - rewrite !toggle_selected by done. repeat split.
    + by intros [? _]%list_elem_of_filter.
    + done.
    + by intros [_ ?]%list_elem_of_filter.
    + intros. by apply list_elem_of_filter.
    + apply NoDup_filter.
    + done.
  - rewrite (toggle_not_selected _ prev) by done. repeat split.
    + done.
    + done.
    + intros [?|?%list_elem_of_singleton]%elem_of_app; done.
    + intros. apply elem_of_app. by left.
    + intros Hnd. apply NoDup_app. split; [done|].
      split; [|apply NoDup_singleton].
      by intros x Hx ->%list_elem_of_singleton.
    + intros _. rewrite toggle_selected by done.
      rewrite filter_app, filter_cons, filter_nil.
      rewrite decide_False by (by intros ?).
      rewrite app_nil_r. by apply filter_others.
Qed.

Section Facts.

Variable uuidv4 : nat → string.

(** X14. A submit from [ChatInput] sends the selected technologies and no
    categories. A regeneration drops the selection: the request that
    resubmits the last user message has no technologies and no
    categories. While the hook is loading, neither the regenerate button
    nor the Enter key does anything. *)
Theorem submit_carries_the_selection_and_regenerate_drops_it
    selectedTechnologies st :
  (Js.trim (input st) ≠ "" →
   in_flight (handleManualSubmit uuidv4 selectedTechnologies st) =
     in_flight st
     ++ [{| controller := controllers st;
            request_body :=
              {| message := Js.trim (input st);
                 body_conversation_id := conversationIdRef st;
                 body_technologies := selectedTechnologies;
                 body_categories := [] |} |}])
  ∧ (∀ before m after,
       isLoading st = false →
       messages st = before ++ m :: after →
       role m = user → Forall (λ m', role m' ≠ user) after →
       Js.trim (content m) ≠ "" →
       in_flight (handleRegenerate uuidv4 selectedTechnologies st) =
         in_flight st
         ++ [{| controller := controllers st;
                request_body :=
                  {| message := Js.trim (content m);
                     body_conversation_id := conversationIdRef st;
                     body_technologies := [];
                     body_categories := [] |} |}])
  ∧ (isLoading st = true →
     handleRegenerate uuidv4 selectedTechnologies st = st
     ∧ onKeyDown_Enter uuidv4 selectedTechnologies st = st).
Proof.
  split; [|split].
  - intros Hin. unfold handleManualSubmit, onSubmit.
    rewrite (proj2 (UseChatFacts.truthy_true _) Hin). simpl.
    assert (Js.trim (Js.trim (input st)) ≠ "") as H2
      by by rewrite JsFacts.trim_idemp.
    destruct (UseChatFacts.append_call_awaiting uuidv4 body _
                (selection selectedTechnologies) st H2)
      as (st1 & E & _ & _ & _ & _ & _ & Hf & _).
    rewrite E. simpl. rewrite Hf. unfold requestBody. simpl.
    by rewrite JsFacts.trim_idemp.
  - intros before m after Hl Hm Hrole Hafter Hc.
    unfold handleRegenerate, onRegenerate. rewrite Hl.
    unfold reload_call.
    rewrite decide_False
      by (rewrite Hm, length_app; simpl; lia).
    rewrite UseChatFacts.lastUserMessageIndex_last_user, Hm,
      (UseChatFacts.last_user_app before m after Hrole Hafter).
    rewrite list_lookup_middle by done.
    destruct (UseChatFacts.append_call_awaiting uuidv4 body (content m)
                no_options
                (set_messages
                   (λ _, take (length before + 1) (before ++ m :: after)) st)
                Hc)
      as (st1 & E & _ & _ & _ & _ & _ & Hf & _).
    rewrite E. simpl. by rewrite Hf.
  - intros Hl. unfold handleRegenerate, onKeyDown_Enter. by rewrite Hl.
Qed.

(** X15. Clicking a suggested prompt sends nothing: while the suggestions
    are on display the input is empty, [handleSubmit] of that render sees
    the empty input and returns, and only the input is set to the prompt.
    A submit after that sends the prompt. *)
Theorem suggestion_click_only_fills_the_input
    suggestion selectedTechnologies st :
  suggestions_shown st = true →
  handleSuggestionClick uuidv4 suggestion selectedTechnologies st
  = set_input suggestion st
  ∧ (Js.trim suggestion ≠ "" →
     messages (handleManualSubmit uuidv4 selectedTechnologies
                 (handleSuggestionClick uuidv4 suggestion
                    selectedTechnologies st))
     = [userMessage (uuidv4 (uuids st)) suggestion]).
Proof.
  unfold suggestions_shown.
  intros [[Hin%negb_true_iff Hl]%andb_true_iff Hm%bool_decide_eq_true]%andb_true_iff.
  apply UseChatFacts.truthy_false in Hin. apply length_zero_iff_nil in Hm.
  assert (handleSuggestionClick uuidv4 suggestion selectedTechnologies st
          = set_input suggestion st) as Hclick.
  { unfold handleSuggestionClick, onSubmit. by rewrite Hin. }
  split; [done|]. intros Hs. rewrite Hclick.
  unfold handleManualSubmit, onSubmit. simpl.
  rewrite (proj2 (UseChatFacts.truthy_true _) Hs). simpl.
  assert (Js.trim (Js.trim suggestion) ≠ "") as H2
    by by rewrite JsFacts.trim_idemp.
  destruct (UseChatFacts.append_call_awaiting uuidv4 body _
              (selection selectedTechnologies) (set_input suggestion st) H2)
    as (st1 & E & Hmsg & _).
  rewrite E. simpl. rewrite Hmsg. simpl. rewrite Hm. simpl.
  unfold userMessage. by rewrite JsFacts.trim_idemp.
Qed.

End Facts.

(** X15, witness: the first suggestion on a new chat. *)
Lemma suggestion_click_only_fills_the_input_witness :
  suggestions_shown Examples.fresh = true
  ∧ handleSuggestionClick Examples.uuid "Explain vector databases" ["qdrant"]
      Examples.fresh
    = set_input "Explain vector databases" Examples.fresh.
Proof.
  split; [reflexivity|].
  apply (suggestion_click_only_fills_the_input Examples.uuid
           "Explain vector databases" ["qdrant"] Examples.fresh).
  reflexivity.
Defined.

End ChatViewFacts.

Module LoadingMessagesFacts.
Import LoadingMessages.

(** X16. After [n] ticks of the interval [LoadingMessages] shows the
    message at index [min n 10]: the index never passes the last message,
    the message on display is always defined, and [isComplete] is set by
    the eleventh tick and not before. *)
Theorem ticks_stop_at_the_last_message n :
  messageIndex (ticks n) = n `min` 10
  ∧ isComplete (ticks n) = bool_decide (10 < n)
  ∧ is_Some (shown (ticks n)).
Proof.
  assert (messageIndex (ticks n) = n `min` 10
          ∧ isComplete (ticks n) = bool_decide (10 < n)) as [Hi Hc].
  { induction n as [|n [IHi IHc]]; [done|].
    change (ticks (S n)) with (tick (ticks n)). unfold tick.
    change (length messages - 1) with 10. rewrite IHi, IHc.
    destruct (decide (n `min` 10 = 10)) as [E|E]; simpl.
    - split; [lia|]. symmetry. apply bool_decide_eq_true. lia.
    - split; [lia|]. apply bool_decide_ext. lia. }
  split; [done|]. split; [done|].
  unfold shown. apply lookup_lt_is_Some. rewrite Hi.
  change (length messages) with 11. lia.
Qed.

End LoadingMessagesFacts.

Module UtilsFacts.
Import Utils.

Lemma length_append (s1 s2 : string) :
  String.length (s1 +:+ s2) = String.length s1 + String.length s2.
Proof. induction s1 as [|c s1 IH]; simpl; [done|]. by rewrite IH. Qed.

Lemma length_substring_0 (n : nat) (s : string) :
  String.length (substring 0 n s) = n `min` String.length s.
Proof.
  revert n. induction s as [|c s IH]; intros [|n]; simpl; try done.
  by rewrite IH.
Qed.

Lemma slice_0 (end_ : Z) (s : string) :
  slice 0 end_ s =
  substring 0
    (Z.to_nat (if (end_ <? 0)%Z
               then Z.max (Z.of_nat (String.length s) + end_) 0
               else Z.min end_ (Z.of_nat (String.length s)))) s.
Proof.
  unfold slice. simpl.
  rewrite Z.min_l by lia. simpl. f_equal.
  destruct (end_ <? 0)%Z; lia.
Qed.

(** X17. [truncateText] for an integer [maxLength]. The result fits
    [maxLength] exactly when the text fits or [maxLength] is at least 3.
    A text that fits is returned as it is; a longer one, for [maxLength]
    at least 3, is cut to [maxLength - 3] characters followed by three
    dots, [maxLength] characters in all. For [maxLength] below 3 a text
    that does not fit gives a result of at least three characters. *)
Theorem truncateText_fits_from_three_on (text : string) (maxLength : Z) :
  ((Z.of_nat (String.length (truncateText text maxLength)) ≤ maxLength)%Z ↔
   (Z.of_nat (String.length text) ≤ maxLength)%Z ∨ (3 ≤ maxLength)%Z)
  ∧ ((Z.of_nat (String.length text) ≤ maxLength)%Z →
     truncateText text maxLength = text)
  ∧ ((3 ≤ maxLength < Z.of_nat (String.length text))%Z →
     truncateText text maxLength
     = substring 0 (Z.to_nat (maxLength - 3)) text +:+ "..."
     ∧ Z.of_nat (String.length (truncateText text maxLength)) = maxLength)
  ∧ ((maxLength < 3)%Z → (maxLength < Z.of_nat (String.length text))%Z →
     (3 ≤ Z.of_nat (String.length (truncateText text maxLength)))%Z).
Proof.
  unfold truncateText.
  destruct (Z.of_nat (String.length text) <=? maxLength)%Z eqn:E.
  - apply Z.leb_le in E. repeat split; intros; try done; try lia; by left.
  - apply Z.leb_gt in E. rewrite slice_0.
    rewrite length_append, length_substring_0. simpl String.length.
    destruct (maxLength - 3 <? 0)%Z eqn:E3.
    + apply Z.ltb_lt in E3. repeat split; intros; lia.
    + apply Z.ltb_ge in E3. rewrite Z.min_l by lia.
      repeat split; intros; try lia; by right.
Qed.

Lemma rev_app_append (a b s : string) :
  String.rev_app a b +:+ s = String.rev_app a (b +:+ s).
Proof. revert b. induction a as [|c a IH]; intros b; [done|]. apply IH. Qed.

Lemma append_nil_r (s : string) : s +:+ "" = s.
Proof.
  induction s as [|c s IH]; [done|].
  change (String c (s +:+ "") = String c s). by rewrite IH.
Qed.

Lemma split_white_space_go_cons in_run current s :
  ∃ w ws, split_white_space_go in_run current s = w :: ws.
Proof.
  revert in_run current. induction s as [|c s IH]; intros in_run current; simpl.
  - by eexists _, _.
  - destruct (Js.is_white_space c); [destruct in_run|]; by eauto.
Qed.

Lemma join_single_spaced in_run current s :
  single_spaced s = true →
  (in_run = true →
   match s with String c _ => Js.is_white_space c = false | EmptyString => True end) →
  join " " (split_white_space_go in_run current s) = String.rev current +:+ s.
Proof.
  revert in_run current.
  induction s as [|c s IH]; intros in_run current Hs Hrun; simpl.
  - by rewrite append_nil_r.
  - simpl in Hs. apply andb_true_iff in Hs as [Hc Hs].
    destruct (Js.is_white_space c) eqn:Ec.
    + destruct in_run; [by specialize (Hrun eq_refl)|].
      apply andb_true_iff in Hc as [->%bool_decide_eq_true Hnext].
      destruct (split_white_space_go_cons true "" s) as (w & ws & E).
      pose proof (IH true "" Hs) as IH'. rewrite E in *.
      unfold join in *.
      change (String.concat " " (String.rev current :: w :: ws))
        with (String.rev current +:+ " " +:+ String.concat " " (w :: ws)).
      rewrite IH'.
      * reflexivity.
      * intros _. destruct s as [|d s]; [done|]. by apply negb_true_iff.
    + rewrite IH by done. unfold String.rev. simpl.
      by rewrite !rev_app_append.
Qed.

(** X18. [generateTitle] gives at most 80 characters, and a message of at
    most 80 characters and at most six words, whose white space is single
    spaces, is its own title. *)
Theorem generateTitle_is_short (message : string) :
  String.length (generateTitle message) ≤ 80
  ∧ (single_spaced message = true →
     length (split_white_space message) ≤ 6 →
     String.length message ≤ 80 →
     generateTitle message = message).
Proof.
  unfold generateTitle. split.
  - case_decide as H; [|lia].
    rewrite slice_0, length_append, length_substring_0. simpl. lia.
  - intros Hs Hw Hl. rewrite take_ge by done.
    unfold split_white_space. rewrite join_single_spaced by done.
    change (String.rev "" +:+ message) with message.
    by rewrite decide_False by lia.
Qed.

Lemma toString16_below_16 (v : N) :
  (v < 16)%N → toString16 v = String (hex_digit v) "".
Proof.
  intros H. unfold toString16. simpl.
  rewrite N.mod_small, N.div_small by done. done.
Qed.

Lemma y_digit (r : N) :
  (r < 16)%N →
  hex_digit (N.lor (N.land r 3) 8) ∈ ["8"; "9"; "a"; "b"]%char
  ∧ (N.lor (N.land r 3) 8 < 16)%N.
Proof.
  intros H.
  assert (∃ k, k < 16 ∧ r = N.of_nat k) as (k & Hk & ->)
    by (exists (N.to_nat r); lia).
  do 16 (destruct k as [|k];
         [split; [by apply (bool_decide_unpack _)|done]|]).
  lia.
Qed.

Lemma hex_digit_is_hex (v : N) :
  hex_digit v ∈ list_ascii_of_string "0123456789abcdef".
Proof.
  unfold hex_digit.
  repeat (match goal with |- context [match ?x with _ => _ end] =>
            destruct x end;
          try by apply (bool_decide_unpack _)).
Qed.

Section Random.

Variable random16 : nat → N.
Hypothesis random16_range : ∀ n, (random16 n < 16)%N.

Lemma replace_xy_matches call template :
  Forall2
    (λ t c,
       if decide (t = "x"%char)
       then c ∈ list_ascii_of_string "0123456789abcdef"
       else if decide (t = "y"%char) then c ∈ ["8"; "9"; "a"; "b"]%char
            else c = t)
    (list_ascii_of_string template)
    (list_ascii_of_string (replace_xy random16 call template)).
Proof.
  revert call. induction template as [|t template IH]; intros call; simpl.
  - constructor.
  - unfold generateUUID_digit.
    destruct (decide (t = "x"%char)) as [->|Hx]; simpl.
    + rewrite toString16_below_16 by done. simpl.
      constructor; [|apply IH]. apply hex_digit_is_hex.
    + destruct (decide (t = "y"%char)) as [->|Hy]; simpl.
      * destruct (y_digit (random16 call)) as [Hd Hlt]; [done|].
        rewrite toString16_below_16 by done. simpl.
        constructor; [|apply IH]. done.
      * rewrite decide_False by (by intros [|]). simpl.
        constructor; [|apply IH].
        by rewrite decide_False, decide_False.
Qed.

End Random.

(** X19. [generateUUID] has the layout of a version 4 UUID, provided each
    draw is a number from 0 to 15: every [x] of the template becomes a
    lower-case hexadecimal digit, the [y] becomes one of 8, 9, a and b,
    the hyphens and the 4 stay, and the result has 36 characters. *)
Theorem generateUUID_has_the_version_4_layout (random16 : nat → N) :
  (∀ n, (random16 n < 16)%N) →
  Forall2
    (λ t c,
       if decide (t = "x"%char)
       then c ∈ list_ascii_of_string "0123456789abcdef"
       else if decide (t = "y"%char) then c ∈ ["8"; "9"; "a"; "b"]%char
            else c = t)
    (list_ascii_of_string "xxxxxxxx-xxxx-4xxx-yxxx-xxxxxxxxxxxx")
    (list_ascii_of_string (generateUUID random16))
  ∧ String.length (generateUUID random16) = 36.
Proof.
  intros H.
  pose proof (replace_xy_matches random16 H 0
                "xxxxxxxx-xxxx-4xxx-yxxx-xxxxxxxxxxxx") as Hm.
  split; [exact Hm|].
  apply Forall2_length in Hm.
  rewrite <- (string_of_list_ascii_of_string (generateUUID random16)).
  unfold generateUUID.
  revert Hm. generalize (list_ascii_of_string
    (replace_xy random16 0 "xxxxxxxx-xxxx-4xxx-yxxx-xxxxxxxxxxxx")).
  intros l Hm. simpl in Hm.
  clear H. symmetry in Hm.
  do 37 (destruct l as [|? l]; [try done|]). done.
Qed.

(** X19, witness: draws that alternate between 3 and 12. *)
Lemma generateUUID_has_the_version_4_layout_witness :
  let random16 := λ n : nat, if Nat.even n then 3%N else 12%N in
  (∀ n, (random16 n < 16)%N)
  ∧ generateUUID random16 = "3c3c3c3c-3c3c-43c3-83c3-c3c3c3c3c3c3"
  ∧ String.length (generateUUID random16) = 36.
Proof.
  intros random16.
  assert (∀ n, (random16 n < 16)%N) as H
    by (intros n; unfold random16; destruct (Nat.even n); reflexivity).
  split; [exact H|]. split; [reflexivity|].
  exact (proj2 (generateUUID_has_the_version_4_layout random16 H)).
Defined.

End UtilsFacts.

Module UseHistoryFacts.
Import UseHistory.

(** X20. [fetchConversations] always ends with [isLoading] false. An ok
    answer with a list replaces the conversations and leaves no error and
    no toast; every other answer keeps the conversations, sets the error
    and raises the toast [Failed to fetch conversations]. *)
Theorem fetchConversations_keeps_the_list_on_failure resp st :
  isLoading (fetchConversations resp st) = false
  ∧ (∀ status data,
       resp = ListResponded status (ListData data) → History.ok status = true →
       conversations (fetchConversations resp st) = data
       ∧ error (fetchConversations resp st) = None
       ∧ toasts (fetchConversations resp st) = toasts st)
  ∧ ((∀ status data,
        resp = ListResponded status (ListData data) → History.ok status = false) →
     conversations (fetchConversations resp st) = conversations st
     ∧ is_Some (error (fetchConversations resp st))
     ∧ toasts (fetchConversations resp st)
       = toasts st ++ [toast_error "Failed to fetch conversations"]).
Proof.
  unfold fetchConversations. split; [done|]. split.
  - intros status data -> Hok. by rewrite Hok.
  - intros Hfail. destruct resp as [msg|status [msg|data]]; simpl.
    + by eauto.
    + destruct (History.ok status); simpl; by eauto.
    + rewrite (Hfail status data eq_refl). simpl. by eauto.
Qed.

End UseHistoryFacts.

Module SidebarHistoryFacts.
Import UseHistory SidebarHistory.

(** X21. [handleDelete] for a picked conversation [d]. When the backend
    deletes it, the list is the old list without the conversations of id
    [d], the dialog closes, and the route [/] is pushed exactly when [d]
    is the active conversation. On a 404 the list stays, and still the
    dialog closes and the route is pushed as before. When the deletion
    fails in any other way the component's state stays as it is, the
    dialog open, and the list is fetched again. *)
Theorem handleDelete_closes_the_dialog_unless_the_deletion_throws
    active d resp refetch ui history :
  deleteId ui = Some d → d ≠ "" →
  match resp with
  | DeleteResponded status =>
    (History.ok status = true →
     conversations (handleDelete active resp refetch ui history).2
       = filter (λ conv, Conversation.id conv ≠ d) (conversations history)
     ∧ (d ∉ Conversation.id
              <$> conversations (handleDelete active resp refetch ui history).2)
     ∧ showDeleteDialog (handleDelete active resp refetch ui history).1 = false
     ∧ pushed (handleDelete active resp refetch ui history).1
       = pushed ui ++ (if decide (Some d = active) then ["/"] else []))
    ∧ (status = 404 →
       conversations (handleDelete active resp refetch ui history).2
         = conversations history
       ∧ showDeleteDialog (handleDelete active resp refetch ui history).1
         = false
       ∧ pushed (handleDelete active resp refetch ui history).1
         = pushed ui ++ (if decide (Some d = active) then ["/"] else []))
    ∧ (History.ok status = false → status ≠ 404 →
       handleDelete active resp refetch ui history
       = (ui, fetchConversations refetch
                (toast (toast_error "Failed to delete conversation") history)))
  | DeleteThrew _ =>
    handleDelete active resp refetch ui history
    = (ui, fetchConversations refetch
             (toast (toast_error "Failed to delete conversation") history))
  end.
Proof.
  intros Hd Hne. unfold handleDelete. rewrite Hd.
  rewrite (proj2 (UseChatFacts.truthy_true _) Hne). simpl.
  destruct resp as [msg|status]; simpl; [done|].
  split; [|split].
  - intros Hok. rewrite decide_False by (by intros ->). rewrite Hok. simpl.
    repeat split; try done.
    intros (conv & Heq & Hin)%list_elem_of_fmap.
    by apply list_elem_of_filter in Hin as [Hid _].
  - intros ->. by rewrite decide_True.
  - intros Hok Hn. rewrite decide_False by done. by rewrite Hok.
Qed.

(** X21, witness: the active conversation is deleted. *)
Lemma handleDelete_closes_the_dialog_witness :
  let c1 := {| Conversation.id := "c-1"; Conversation.title := "Qdrant";
               Conversation.messages := [];
               Conversation.created_at := "2025-01-02";
               Conversation.updated_at := "2025-01-02" |} in
  let c2 := {| Conversation.id := "c-2"; Conversation.title := "Milvus";
               Conversation.messages := [];
               Conversation.created_at := "2025-01-01";
               Conversation.updated_at := "2025-01-01" |} in
  let history := {| conversations := [c1; c2]; isLoading := false;
                    error := None; toasts := [] |} in
  let ui := {| deleteId := Some "c-1"; showDeleteDialog := true;
               pushed := [] |} in
  deleteId ui = Some "c-1" ∧ "c-1" ≠ ""
  ∧ conversations
      (handleDelete (Some "c-1") (DeleteResponded 200) (ListThrew "") ui
         history).2 = [c2]
  ∧ pushed
      (handleDelete (Some "c-1") (DeleteResponded 200) (ListThrew "") ui
         history).1 = ["/"].
Proof.
  intros c1 c2 history ui.
  assert ("c-1" ≠ "") as Hne by discriminate.
  split; [reflexivity|]. split; [exact Hne|].
  destruct (handleDelete_closes_the_dialog_unless_the_deletion_throws
              (Some "c-1") "c-1" (DeleteResponded 200) (ListThrew "") ui
              history eq_refl Hne) as [H _].
  destruct (H eq_refl) as (H1 & _ & _ & H4).
  split; [exact H1|exact H4].
Defined.

Section Grouping.

Variable getTime : string → Z.
Variable isToday isYesterday : Z → bool.
Variable oneWeekAgo oneMonthAgo : Z.

Abbreviation compare := (compare getTime).
Abbreviation insert := (insert getTime).
Abbreviation sort := (sort getTime).
Abbreviation push :=
  (push getTime isToday isYesterday oneWeekAgo oneMonthAgo).
Abbreviation groupConversationsByDate :=
  (groupConversationsByDate getTime isToday isYesterday oneWeekAgo oneMonthAgo).
Abbreviation time c := (getTime (Conversation.created_at c)).
Abbreviation newer_first := (λ a b : Conversation.t, (time b ≤ time a)%Z).

Lemma insert_Permutation a l : insert a l ≡ₚ a :: l.
Proof.
  induction l as [|b l IH]; simpl; [done|].
  destruct (compare a b <=? 0)%Z; [done|].
  rewrite IH. apply Permutation_swap.
Qed.

Lemma sort_Permutation l : sort l ≡ₚ l.
Proof.
  induction l as [|a l IH]; simpl; [done|].
  by rewrite insert_Permutation, IH.
Qed.

Lemma insert_sorted a l :
  StronglySorted newer_first l → StronglySorted newer_first (insert a l).
Proof.
  induction 1 as [|b l Hl IH Hb]; simpl.
  - repeat constructor.
  - unfold SidebarHistory.compare.
    destruct (_ <=? 0)%Z eqn:E.
    + apply Z.leb_le in E. constructor; [by constructor|].
      constructor; [lia|].
      eapply Forall_impl; [exact Hb|]. simpl. intros c Hc. lia.
    + apply Z.leb_gt in E. constructor; [done|].
      rewrite insert_Permutation. constructor; [lia|done].
Qed.

Lemma sort_sorted l : StronglySorted newer_first (sort l).
Proof.
  induction l as [|a l IH]; simpl; [constructor|]. by apply insert_sorted.
Qed.

Lemma push_Permutation g c :
  today (push g c) ++ yesterday (push g c) ++ lastWeek (push g c)
  ++ lastMonth (push g c) ++ older (push g c)
  ≡ₚ (today g ++ yesterday g ++ lastWeek g ++ lastMonth g ++ older g) ++ [c].
Proof.
  unfold SidebarHistory.push.
  destruct (isToday _); [|destruct (isYesterday _);
                           [|destruct (_ <? _)%Z; [|destruct (_ <? _)%Z]]];
    simpl; rewrite <- ?app_assoc; repeat apply Permutation_app_head;
    first [reflexivity
          |etrans; [apply Permutation_app_comm|];
           by rewrite <- ?app_assoc].
Qed.

Lemma foldl_push_Permutation l g :
  today (foldl push g l) ++ yesterday (foldl push g l)
  ++ lastWeek (foldl push g l) ++ lastMonth (foldl push g l)
  ++ older (foldl push g l)
  ≡ₚ (today g ++ yesterday g ++ lastWeek g ++ lastMonth g ++ older g) ++ l.
Proof.
  revert g. induction l as [|c l IH]; intros g; simpl.
  - by rewrite app_nil_r.
  - rewrite IH, push_Permutation, <- app_assoc. done.
Qed.

Lemma sorted_snoc (grp : list Conversation.t) c :
  StronglySorted newer_first grp →
  Forall (λ x, newer_first x c) grp →
  StronglySorted newer_first (grp ++ [c]).
Proof.
  intros Hs Hc. apply StronglySorted_app_2; [|done|repeat constructor].
  intros x1 x2 H1 ->%list_elem_of_singleton.
  rewrite Forall_forall in Hc. by apply Hc.
Qed.

Lemma foldl_push_sorted l g :
  StronglySorted newer_first l →
  Forall (λ grp, StronglySorted newer_first grp
                 ∧ Forall (λ x, Forall (newer_first x) l) grp)
         [today g; yesterday g; lastWeek g; lastMonth g; older g] →
  Forall (StronglySorted newer_first)
         [today (foldl push g l); yesterday (foldl push g l);
          lastWeek (foldl push g l); lastMonth (foldl push g l);
          older (foldl push g l)].
Proof.
  revert g. induction l as [|c l IH]; intros g Hl Hg; simpl.
  - eapply Forall_impl; [exact Hg|]. by intros grp [? _].
  - apply StronglySorted_inv in Hl as [Hl Hc]. apply IH; [done|].
    assert (∀ grp,
      StronglySorted newer_first grp
      ∧ Forall (λ x, Forall (newer_first x) (c :: l)) grp →
      (StronglySorted newer_first grp
       ∧ Forall (λ x, Forall (newer_first x) l) grp)
      ∧ (StronglySorted newer_first (grp ++ [c])
         ∧ Forall (λ x, Forall (newer_first x) l) (grp ++ [c]))) as Hstep.
    { intros grp [Hs Hall].
      assert (Forall (λ x, Forall (newer_first x) l) grp) as Hrest.
      { eapply Forall_impl; [exact Hall|]. simpl.
        by intros x [_ ?]%Forall_cons. }
      split; [done|]. split.
      - apply sorted_snoc; [done|].
        eapply Forall_impl; [exact Hall|]. simpl.
        by intros x [? _]%Forall_cons.
      - apply Forall_app. split; [done|]. by apply Forall_singleton. }
    apply Forall_cons in Hg as [H1 Hg]. apply Forall_cons in Hg as [H2 Hg].
    apply Forall_cons in Hg as [H3 Hg]. apply Forall_cons in Hg as [H4 Hg].
    apply Forall_cons in Hg as [H5 _].
    apply Hstep in H1 as [H1 H1']. apply Hstep in H2 as [H2 H2'].
    apply Hstep in H3 as [H3 H3']. apply Hstep in H4 as [H4 H4'].
    apply Hstep in H5 as [H5 H5'].
    unfold SidebarHistory.push.
    destruct (isToday _); [|destruct (isYesterday _);
                             [|destruct (_ <? _)%Z; [|destruct (_ <? _)%Z]]];
      simpl; repeat (constructor; [done|]); constructor.
Qed.

Lemma foldl_push_classes l g :
  Forall (λ c, isToday (time c) = true) (today g) →
  Forall (λ c, isToday (time c) = false ∧ isYesterday (time c) = true)
         (yesterday g) →
  Forall (λ c, isToday (time c) = false ∧ isYesterday (time c) = false
               ∧ (oneWeekAgo < time c)%Z) (lastWeek g) →
  Forall (λ c, isToday (time c) = false ∧ isYesterday (time c) = false
               ∧ (oneMonthAgo < time c ≤ oneWeekAgo)%Z) (lastMonth g) →
  Forall (λ c, isToday (time c) = false ∧ isYesterday (time c) = false
               ∧ (time c ≤ oneWeekAgo)%Z ∧ (time c ≤ oneMonthAgo)%Z)
         (older g) →
  Forall (λ c, isToday (time c) = true) (today (foldl push g l))
  ∧ Forall (λ c, isToday (time c) = false ∧ isYesterday (time c) = true)
           (yesterday (foldl push g l))
  ∧ Forall (λ c, isToday (time c) = false ∧ isYesterday (time c) = false
                 ∧ (oneWeekAgo < time c)%Z) (lastWeek (foldl push g l))
  ∧ Forall (λ c, isToday (time c) = false ∧ isYesterday (time c) = false
                 ∧ (oneMonthAgo < time c ≤ oneWeekAgo)%Z)
           (lastMonth (foldl push g l))
  ∧ Forall (λ c, isToday (time c) = false ∧ isYesterday (time c) = false
                 ∧ (time c ≤ oneWeekAgo)%Z ∧ (time c ≤ oneMonthAgo)%Z)
           (older (foldl push g l)).
Proof.
  revert g. induction l as [|c l IH]; intros g H1 H2 H3 H4 H5; simpl; [done|].
  unfold SidebarHistory.push.
  destruct (isToday (time c)) eqn:E1;
    [|destruct (isYesterday (time c)) eqn:E2;
      [|destruct (oneWeekAgo <? time c)%Z eqn:E3;
        [|destruct (oneMonthAgo <? time c)%Z eqn:E4]]];
    apply IH; simpl; try done;
    apply Forall_app; (split; [done|]); apply Forall_singleton;
    rewrite ?Z.ltb_lt, ?Z.ltb_ge in *; repeat split; try done; lia.
Qed.

(** X22. [groupConversationsByDate] puts every conversation in exactly one
    group: the five groups together are a permutation of the list. Each
    group is ordered newest first, and its members pass the test of the
    group after failing the tests of the groups before it. *)
Theorem groupConversationsByDate_partitions_newest_first conversations :
  today (groupConversationsByDate conversations)
  ++ yesterday (groupConversationsByDate conversations)
  ++ lastWeek (groupConversationsByDate conversations)
  ++ lastMonth (groupConversationsByDate conversations)
  ++ older (groupConversationsByDate conversations)
  ≡ₚ conversations
  ∧ Forall (StronglySorted newer_first)
      [today (groupConversationsByDate conversations);
       yesterday (groupConversationsByDate conversations);
       lastWeek (groupConversationsByDate conversations);
       lastMonth (groupConversationsByDate conversations);
       older (groupConversationsByDate conversations)]
  ∧ Forall (λ c, isToday (time c) = true)
      (today (groupConversationsByDate conversations))
  ∧ Forall (λ c, isToday (time c) = false ∧ isYesterday (time c) = true)
      (yesterday (groupConversationsByDate conversations))
  ∧ Forall (λ c, isToday (time c) = false ∧ isYesterday (time c) = false
                 ∧ (oneWeekAgo < time c)%Z)
      (lastWeek (groupConversationsByDate conversations))
  ∧ Forall (λ c, isToday (time c) = false ∧ isYesterday (time c) = false
                 ∧ (oneMonthAgo < time c ≤ oneWeekAgo)%Z)
      (lastMonth (groupConversationsByDate conversations))
  ∧ Forall (λ c, isToday (time c) = false ∧ isYesterday (time c) = false
                 ∧ (time c ≤ oneWeekAgo)%Z ∧ (time c ≤ oneMonthAgo)%Z)
      (older (groupConversationsByDate conversations)).
Proof.
  unfold SidebarHistory.groupConversationsByDate. split; [|split].
  - rewrite foldl_push_Permutation. simpl. apply sort_Permutation.
  - apply foldl_push_sorted; [apply sort_sorted|].
    repeat constructor.
  - apply foldl_push_classes; constructor.
Qed.

End Grouping.

End SidebarHistoryFacts.

Module MessageViewFacts.
Import MessageView.

Lemma append_cons c (a b : string) : String c a +:+ b = String c (a +:+ b).
Proof. done. Qed.

Lemma append_assoc (a b c : string) : (a +:+ b) +:+ c = a +:+ (b +:+ c).
Proof.
  induction a as [|x a IH]; [done|]. by rewrite !append_cons, IH.
Qed.

Lemma substring_0_all (s : string) : substring 0 (String.length s) s = s.
Proof. induction s as [|c s IH]; [done|]. simpl. by rewrite IH. Qed.

Lemma substring_0_append (a b : string) :
  substring 0 (String.length a) (a +:+ b) = a.
Proof.
  induction a as [|c a IH]; [by destruct b|].
  rewrite append_cons. simpl. by rewrite IH.
Qed.

Lemma substring_skip_append (a b : string) k m :
  substring (String.length a + k) m (a +:+ b) = substring k m b.
Proof. induction a as [|c a IH]; [done|]. rewrite append_cons. apply IH. Qed.

Lemma rev_rev (s : string) : String.rev (String.rev s) = s.
Proof.
  rewrite <- (string_of_list_ascii_of_string (String.rev (String.rev s))).
  rewrite !JsFacts.chars_rev, reverse_involutive.
  apply string_of_list_ascii_of_string.
Qed.

Lemma split_go_append sep current (a rest : string) :
  sep ∉ list_ascii_of_string a →
  split_go sep current (a +:+ rest)
  = split_go sep (String.rev_app a current) rest.
Proof.
  revert current. induction a as [|c a IH]; intros current Ha; [done|].
  simpl in Ha. apply not_elem_of_cons in Ha as [Hc Ha].
  rewrite append_cons. simpl. rewrite decide_False by done. by apply IH.
Qed.

Lemma head_split (sep : ascii) (a rest : string) :
  sep ∉ list_ascii_of_string a →
  head (split sep (a +:+ String sep rest)) = Some a
  ∧ head (split sep a) = Some a.
Proof.
  intros Ha. unfold split. split.
  - rewrite split_go_append by done. simpl. rewrite decide_True by done.
    simpl. f_equal. apply rev_rev.
  - rewrite <- (UtilsFacts.append_nil_r a) at 1.
    rewrite split_go_append by done. simpl. f_equal. apply rev_rev.
Qed.


Lemma index_0_not_prefix (pattern s : string) c :
  String.prefix pattern (String c s) = false →
  index 0 pattern (String c s) = S <$> index 0 pattern s.
Proof.
  intros H.
  change (index 0 pattern (String c s))
    with (if String.prefix pattern (String c s) then Some 0
          else match index 0 pattern s with
               | Some n => Some (S n)
               | None => None
               end).
  rewrite H. by destruct (index 0 pattern s).
Qed.

Lemma prefix_cons a (p : string) c (s : string) :
  String.prefix (String a p) (String c s)
  = if ascii_dec a c then String.prefix p s else false.
Proof. done. Qed.

Lemma index_past (dir ext : string) :
  "i"%char ∉ list_ascii_of_string dir →
  index 0 "/index" (dir +:+ "/index." +:+ ext) = Some (String.length dir)
  ∧ index 0 "index" (dir +:+ "/index." +:+ ext)
    = Some (S (String.length dir)).
Proof.
  induction dir as [|c dir IH]; intros Hi.
  - done.
  - simpl in Hi. apply not_elem_of_cons in Hi as [Hc Hi].
    destruct (IH Hi) as [IH1 IH2]. rewrite append_cons.
    assert (String.prefix "index" (String c (dir +:+ "/index." +:+ ext))
            = false) as H1.
    { rewrite prefix_cons. by destruct (ascii_dec "i" c). }
    assert (String.prefix "/index" (String c (dir +:+ "/index." +:+ ext))
            = false) as H2.
    { rewrite prefix_cons. destruct (ascii_dec "/" c) as [_|]; [|done].
      destruct dir as [|c2 dir]; [done|].
      rewrite append_cons, prefix_cons.
      simpl in Hi. apply not_elem_of_cons in Hi as [Hc2 _].
      by destruct (ascii_dec "i" c2). }
    by rewrite (index_0_not_prefix _ _ _ H1), (index_0_not_prefix _ _ _ H2),
      IH1, IH2.
Qed.

Lemma index_0_prefix (pattern s : string) :
  String.prefix pattern s = true → index 0 pattern s = Some 0.
Proof.
  intros H. destruct s as [|c s].
  - by destruct pattern.
  - change (index 0 pattern (String c s))
      with (if String.prefix pattern (String c s) then Some 0
            else match index 0 pattern s with
                 | Some n => Some (S n)
                 | None => None
                 end).
    by rewrite H.
Qed.

Lemma prefix_append (pattern rest : string) :
  String.prefix pattern (pattern +:+ rest) = true.
Proof.
  induction pattern as [|c pattern IH]; [by destruct rest|].
  rewrite append_cons, prefix_cons. by destruct (ascii_dec c c).
Qed.

Lemma remove_first_prefix (pattern rest : string) :
  remove_first pattern (pattern +:+ rest) = rest.
Proof.
  pose proof (prefix_append pattern rest) as Hp. unfold remove_first.
  rewrite (index_0_prefix _ _ Hp).
  change (0 + String.length pattern) with (String.length pattern).
  rewrite UtilsFacts.length_append.
  replace (String.length pattern + String.length rest
           - String.length pattern) with (String.length rest) by lia.
  pose proof (substring_skip_append pattern rest 0 (String.length rest)) as Hs.
  rewrite Nat.add_0_r in Hs. rewrite Hs, substring_0_all.
  by destruct (pattern +:+ rest).
Qed.

Lemma substring_0_append_more (a b : string) k :
  substring 0 (String.length a + k) (a +:+ b) = a +:+ substring 0 k b.
Proof.
  induction a as [|c a IH]; [done|].
  rewrite !append_cons. simpl. by rewrite IH.
Qed.

Lemma chars_append (a b : string) :
  list_ascii_of_string (a +:+ b)
  = list_ascii_of_string a ++ list_ascii_of_string b.
Proof.
  induction a as [|c a IH]; [done|]. rewrite append_cons. simpl. by rewrite IH.
Qed.


(** X24. For a [weaviate] source the two links differ on index pages. When
    the path is [data/weaviate_docs/] followed by a directory without a
    dot and without the letter i, then [/index.] and an extension,
    [SourceDetails] links to the directory and [SourceItem] links to the
    directory followed by a slash. *)
Theorem weaviate_links_differ_on_index_pages source dir extension :
  technology source = "weaviate" →
  file_path source
  = "data/weaviate_docs/" +:+ dir +:+ "/index." +:+ extension →
  "i"%char ∉ list_ascii_of_string dir →
  "."%char ∉ list_ascii_of_string dir →
  SourceDetails_doc_url source
  = "https://weaviate.io/developers/weaviate/" +:+ dir
  ∧ SourceItem_doc_url source
    = "https://weaviate.io/developers/weaviate/" +:+ dir +:+ "/"
  ∧ SourceItem_doc_url source ≠ SourceDetails_doc_url source.
Proof.
  intros Ht Hp Hi Hdot.
  assert (SourceDetails_doc_url source
          = "https://weaviate.io/developers/weaviate/" +:+ dir
          ∧ SourceItem_doc_url source
            = "https://weaviate.io/developers/weaviate/" +:+ dir +:+ "/")
    as [Hd Hitem].
  { unfold SourceDetails_doc_url, SourceItem_doc_url. rewrite Ht, Hp.
    rewrite !decide_False by done. rewrite !decide_True by done.
    rewrite remove_first_prefix.
    destruct (index_past dir extension Hi) as [I1 I2].
    assert (String.length (dir +:+ "/index." +:+ extension)
            = String.length dir + (7 + String.length extension)) as Hlen
      by (rewrite !UtilsFacts.length_append; simpl; lia).
    assert (substring (String.length dir + 6)
              (String.length dir + (7 + String.length extension)
               - (String.length dir + 6))
              (dir +:+ "/index." +:+ extension)
            = String "." extension) as Htail.
    { rewrite substring_skip_append.
      replace (String.length dir + (7 + String.length extension)
               - (String.length dir + 6))
        with (String.length (String "." extension)) by (simpl; lia).
      apply (substring_0_all (String "." extension)). }
    unfold remove_first. rewrite I1, I2, Hlen. split.
    - change (String.length "/index") with 6. rewrite Htail.
      rewrite substring_0_append.
      by destruct (head_split "." dir extension Hdot) as [-> _].
    - change (String.length "index") with 5.
      replace (S (String.length dir) + 5) with (String.length dir + 6) by lia.
      rewrite Htail.
      replace (S (String.length dir)) with (String.length dir + 1) by lia.
      rewrite substring_0_append_more.
      change (substring 0 1 ("/index." +:+ extension)) with "/".
      assert ("."%char ∉ list_ascii_of_string (dir +:+ "/")) as Hdot'.
      { rewrite chars_append. intros [?|?%list_elem_of_singleton]%elem_of_app;
          done. }
      rewrite <- append_assoc.
      by destruct (head_split "." (dir +:+ "/") extension Hdot') as [-> _]. }
  split; [done|]. split; [done|].
  rewrite Hd, Hitem. intros E. apply (inj _) in E.
  apply (f_equal String.length) in E.
  rewrite UtilsFacts.length_append in E. simpl in E. lia.
Qed.

(** X24, witness: the index page of the concepts. *)
Lemma weaviate_links_differ_witness :
  let source :=
    {| technology := "weaviate";
       file_path := "data/weaviate_docs/concepts/index.md";
       section_title := "Concepts"; category := "concepts"; score := 90;
       content_preview := ""; full_content := "" |} in
  technology source = "weaviate"
  ∧ file_path source = "data/weaviate_docs/" +:+ "concepts" +:+ "/index." +:+ "md"
  ∧ ("i"%char ∉ list_ascii_of_string "concepts")
  ∧ ("."%char ∉ list_ascii_of_string "concepts")
  ∧ SourceDetails_doc_url source
    = "https://weaviate.io/developers/weaviate/concepts"
  ∧ SourceItem_doc_url source
    = "https://weaviate.io/developers/weaviate/concepts/".
Proof.
  intros source.
  assert ("i"%char ∉ list_ascii_of_string "concepts") as Hi
    by (apply (bool_decide_unpack _); vm_compute; exact I).
  assert ("."%char ∉ list_ascii_of_string "concepts") as Hdot
    by (apply (bool_decide_unpack _); vm_compute; exact I).
  split; [reflexivity|]. split; [reflexivity|].
  split; [exact Hi|]. split; [exact Hdot|].
  destruct (weaviate_links_differ_on_index_pages source "concepts" "md"
              eq_refl eq_refl Hi Hdot) as (H1 & H2 & _).
  split; [exact H1|exact H2].
Defined.

(** X25. [SourceContent] after the request has settled. It shows the text
    exactly when the answer is ok and the text is not empty. It shows
    [Loading documentation...] exactly when the answer is ok with an empty
    text, or an error with an empty message was thrown. An answer that is
    not ok shows [Failed to load documentation]. *)
Theorem SourceContent_shows_an_empty_document_as_loading loaded :
  (∀ text,
     render (fetchContent loaded SourceContent_init) = Markdown text ↔
     ∃ status, loaded = LoadResponded status text
               ∧ History.ok status = true ∧ text ≠ "")
  ∧ (render (fetchContent loaded SourceContent_init) = LoadingText ↔
     (∃ status, loaded = LoadResponded status "" ∧ History.ok status = true)
     ∨ loaded = LoadThrew (Some ""))
  ∧ (∀ status text,
       loaded = LoadResponded status text → History.ok status = false →
       render (fetchContent loaded SourceContent_init)
       = ErrorText "Failed to load documentation").
Proof.
  unfold render, fetchContent.
  destruct loaded as [[message|]|status text]; simpl.
  - destruct message; simpl; repeat split; intros;
      repeat match goal with
             | H : ∃ _, _ |- _ => destruct H
             | H : _ ∧ _ |- _ => destruct H
             | H : _ ∨ _ |- _ => destruct H
             end; try done; auto.
  - repeat split; intros;
      repeat match goal with
             | H : ∃ _, _ |- _ => destruct H
             | H : _ ∧ _ |- _ => destruct H
             | H : _ ∨ _ |- _ => destruct H
             end; done.
  - destruct (History.ok status) eqn:Hok; simpl.
    + destruct text as [|c text]; simpl; repeat split; intros;
        repeat match goal with
               | H : ∃ _, _ |- _ => destruct H
               | H : _ ∧ _ |- _ => destruct H
               | H : _ ∨ _ |- _ => destruct H
               | H : LoadResponded _ _ = LoadResponded _ _ |- _ =>
                 injection H as ? ?; subst
               | H : Markdown _ = Markdown _ |- _ => injection H as ?; subst
               end; try done; try congruence; eauto.
    + repeat split; intros;
        repeat match goal with
               | H : ∃ _, _ |- _ => destruct H
               | H : _ ∧ _ |- _ => destruct H
               | H : _ ∨ _ |- _ => destruct H
               | H : LoadResponded _ _ = LoadResponded _ _ |- _ =>
                 injection H as ? ?; subst
               end; try done; try congruence.
Qed.

End MessageViewFacts.

Module SidebarUserNavFacts.
Import SidebarUserNav.

(** X26. The theme item. Its label names the theme that selecting it
    sets exactly when the current theme is [dark] or [light]; for any
    other theme the label says light and the item sets dark. After a
    first selection every second selection gives the same theme, and the
    item sets [light] only from [dark]. *)
Theorem theme_label_and_action_agree_on_light_and_dark theme :
  (label theme = "Toggle " +:+ onSelect theme +:+ " mode" ↔
   theme = Some "dark" ∨ theme = Some "light")
  ∧ onSelect (Some (onSelect (Some (onSelect theme)))) = onSelect theme
  ∧ (onSelect theme = "light" ↔ theme = Some "dark").
Proof.
  unfold label, onSelect.
  destruct (decide (theme = Some "dark")) as [->|Hd]; simpl.
  - repeat split; auto.
  - destruct (decide (theme = Some "light")) as [->|Hl]; simpl.
    + repeat split; auto; done.
    + repeat split; try done; intros [?|?]; done.
Qed.

End SidebarUserNavFacts.
